(** * mobile-cli-lib: the iOS device protocol stack of [mobile/ios/ios-core.ts]

    A shallow embedding of the plist message sockets ([WinSocket],
    [PosixSocket]), of [MobileDevice.isDataReceivingCompleted] and of the
    remote-debug classes ([GDBServer], [GDBStandardOutputAdapter],
    [GDBSignalWatcher]), followed by the properties proved about them.

    Conventions.  A JavaScript number that the code uses as a length, an
    index or a byte is an integer [Z].  A JavaScript string is the list of
    its UTF-16 code units; a Node [Buffer] is the list of its bytes.  Code
    that can throw returns a [Result]. *)

From Stdlib Require Import ZArith List Bool Lia String Ascii Sorted.
Import ListNotations.
Open Scope Z_scope.

(* ================================================================== *)
(** * JavaScript data *)
(* ================================================================== *)

Module JS.

(** A string is its sequence of UTF-16 code units. *)
Definition jsstring := list Z.

(** A Buffer is its sequence of bytes (numbers 0..255). *)
Definition Buffer := list Z.

(** The code units of an ASCII literal of the source. *)
Definition js (s : string) : jsstring :=
  map (fun a => Z.of_N (N_of_ascii a)) (list_ascii_of_string s).

(** The code unit of a one-character literal such as ["$"]. *)
Definition chr (a : ascii) : Z := Z.of_N (N_of_ascii a).

Fixpoint str_eqb (a b : jsstring) : bool :=
  match a, b with
  | [], [] => true
  | x :: a', y :: b' => (x =? y) && str_eqb a' b'
  | _, _ => false
  end.

(** [xs.length] as a number. *)
Definition len {A} (xs : list A) : Z := Z.of_nat (List.length xs).

(** An exception value: the thrown error, by its kind and message. *)
Inductive Exn :=
| AssertionError
| TypeError (msg : jsstring)
| RangeError
| Failure (msg : jsstring).      (* [$errors.fail(msg)] *)

(** The completion of a call: a value, or a thrown exception. *)
Inductive Result (A : Type) :=
| Return (a : A)
| Throw (e : Exn).
Arguments Return {A} a.
Arguments Throw {A} e.

Definition bind {A B} (r : Result A) (k : A -> Result B) : Result B :=
  match r with
  | Return a => k a
  | Throw e => Throw e
  end.

(** JavaScript values as far as this program inspects them.  Object
    properties are kept in insertion order, as [_.keys] reports them. *)
#[local] Unset Elimination Schemes.
Inductive JSValue :=
| JUndefined
| JNull
| JBool (b : bool)
| JNum (n : Z)
| JStr (s : jsstring)
| JBuffer (b : Buffer)
| JArray (items : list JSValue)
| JObject (props : list (jsstring * JSValue)).
#[local] Set Elimination Schemes.

(** [ToBoolean]: what [&&], [!] and [if] test. *)
Definition truthy (v : JSValue) : bool :=
  match v with
  | JUndefined | JNull => false
  | JBool b => b
  | JNum n => negb (n =? 0)
  | JStr s => match s with [] => false | _ => true end
  | JBuffer _ | JArray _ | JObject _ => true
  end.

(** [a && b]: the left operand when it is falsy, else the right one. *)
Definition js_and (a b : JSValue) : JSValue := if truthy a then b else a.

(** [!a] *)
Definition js_not (a : JSValue) : JSValue := JBool (negb (truthy a)).

Fixpoint lookup (props : list (jsstring * JSValue)) (k : jsstring)
  : option JSValue :=
  match props with
  | [] => None
  | (k', v) :: rest => if str_eqb k' k then Some v else lookup rest k
  end.

(** [o[k] = v] on a plain object: overwrite in place, or append. *)
Fixpoint assign (props : list (jsstring * JSValue)) (k : jsstring)
  (v : JSValue) : list (jsstring * JSValue) :=
  match props with
  | [] => [(k, v)]
  | (k', v') :: rest =>
      if str_eqb k' k then (k, v) :: rest else (k', v') :: assign rest k v
  end.

(** The property name ["0"], the one index this program reads. *)
Definition is_zero_name (k : jsstring) : bool := str_eqb k (js "0").

(** [v[k]] for a property name [k] on a value that is neither [null] nor
    [undefined].  Primitives have none of the names this program reads,
    except that a string, an array and a Buffer answer to ["0"]. *)
Definition get (v : JSValue) (k : jsstring) : JSValue :=
  match v with
  | JObject props =>
      match lookup props k with Some x => x | None => JUndefined end
  | JArray items =>
      if is_zero_name k then
        match items with x :: _ => x | [] => JUndefined end
      else JUndefined
  | JBuffer b =>
      if is_zero_name k then
        match b with x :: _ => JNum x | [] => JUndefined end
      else JUndefined
  | JStr s =>
      if is_zero_name k then
        match s with c :: _ => JStr [c] | [] => JUndefined end
      else JUndefined
  | _ => JUndefined
  end.

(** [typeof v === "object"] *)
Definition typeof_object (v : JSValue) : bool :=
  match v with
  | JNull | JBuffer _ | JArray _ | JObject _ => true
  | _ => false
  end.

(** [buf[i]]: the byte, or [undefined] ([None]) outside the buffer. *)
Definition at_ (buf : Buffer) (i : nat) : option Z := nth_error buf i.

(** [buf[i] === c] *)
Definition at_is (buf : Buffer) (i : nat) (c : Z) : bool :=
  match at_ buf i with
  | Some b => b =? c
  | None => false
  end.

(** A digit 0..35 as the character [Number.prototype.toString] prints. *)
Definition digit_char (d : Z) : Z :=
  if d <? 10 then chr "0" + d else chr "a" + (d - 10).

Fixpoint digits (fuel : nat) (radix n : Z) (acc : jsstring) : jsstring :=
  match fuel with
  | O => acc
  | S fuel' =>
      let acc' := digit_char (n mod radix) :: acc in
      if n / radix =? 0 then acc' else digits fuel' radix (n / radix) acc'
  end.

(** [n.toString(radix)] for an integer [n]: no padding, no leading
    zeros, lower-case letters, ["-"] in front of a negative number. *)
Definition Number_toString (radix n : Z) : jsstring :=
  if n <? 0
  then chr "-" :: digits (S (Z.to_nat (Z.log2 (- n)))) radix (- n) []
  else digits (S (Z.to_nat (Z.log2 n))) radix n [].

(** One byte as two lower-case hexadecimal digits. *)
Definition hex_byte (b : Z) : jsstring :=
  [digit_char ((b / 16) mod 16); digit_char (b mod 16)].

(** [buf.toString("hex")] *)
Definition Buffer_toString_hex (buf : Buffer) : jsstring :=
  flat_map hex_byte buf.

Definition is_high_surrogate (c : Z) : bool := (0xD800 <=? c) && (c <=? 0xDBFF).
Definition is_low_surrogate (c : Z) : bool := (0xDC00 <=? c) && (c <=? 0xDFFF).

Definition utf8_of_code_point (c : Z) : Buffer :=
  if c <? 0x80 then [c]
  else if c <? 0x800 then
    [Z.lor 0xC0 (Z.shiftr c 6); Z.lor 0x80 (Z.land c 0x3F)]
  else if c <? 0x10000 then
    [Z.lor 0xE0 (Z.shiftr c 12);
     Z.lor 0x80 (Z.land (Z.shiftr c 6) 0x3F);
     Z.lor 0x80 (Z.land c 0x3F)]
  else
    [Z.lor 0xF0 (Z.shiftr c 18);
     Z.lor 0x80 (Z.land (Z.shiftr c 12) 0x3F);
     Z.lor 0x80 (Z.land (Z.shiftr c 6) 0x3F);
     Z.lor 0x80 (Z.land c 0x3F)].

(** [new Buffer(str)]: the UTF-8 bytes of a string.  A surrogate pair is
    one code point; a lone surrogate is written as U+FFFD. *)
Fixpoint Buffer_from_string (s : jsstring) : Buffer :=
  match s with
  | [] => []
  | c :: rest =>
      if is_high_surrogate c then
        match rest with
        | d :: rest' =>
            if is_low_surrogate d then
              utf8_of_code_point
                (0x10000 + (c - 0xD800) * 0x400 + (d - 0xDC00))
                ++ Buffer_from_string rest'
            else utf8_of_code_point 0xFFFD ++ Buffer_from_string rest
        | [] => utf8_of_code_point 0xFFFD
        end
      else if is_low_surrogate c then
        utf8_of_code_point 0xFFFD ++ Buffer_from_string rest
      else utf8_of_code_point c ++ Buffer_from_string rest
  end.

(** [items.join(sep)] *)
Fixpoint join (sep : jsstring) (items : list jsstring) : jsstring :=
  match items with
  | [] => []
  | [x] => x
  | x :: rest => x ++ sep ++ join sep rest
  end.

End JS.
Import JS.

(* ================================================================== *)
(** * The remote-debug protocol: [GDBServer] and its two stream consumers *)
(* ================================================================== *)

Module GDB.

(** [getCharacterCodePoint(ch)]: both assertions, then the code unit. *)
Definition getCharacterCodePoint (ch : jsstring) : Result Z :=
  match ch with
  | [code] =>
      if (0xD800 <=? code) && (code <=? 0xffff)
      then Throw AssertionError
      else Return code
  | _ => Throw AssertionError
  end.

(** ** The socket [GDBServer] writes to *)

Record Socket := mkSocket {
  written : list jsstring;   (* every [socket.write(data)], oldest first *)
  piped : bool               (* the two consumers have been attached *)
}.

Definition M (A : Type) : Type := Socket -> Result A * Socket.

Definition ret {A} (a : A) : M A := fun s => (Return a, s).

Definition mbind {A B} (m : M A) (k : A -> M B) : M B :=
  fun s =>
    match m s with
    | (Return a, s') => k a s'
    | (Throw e, s') => (Throw e, s')
    end.

Definition lift {A} (r : Result A) : M A := fun s => (r, s).

Definition socket_write (data : jsstring) : M unit :=
  fun s => (Return tt, mkSocket (written s ++ [data]) (piped s)).

Definition socket_pipe : M unit :=
  fun s => (Return tt, mkSocket (written s) true).

Declare Scope gdb_scope.
Delimit Scope gdb_scope with gdb.
Notation "x <- m ;; k" := (mbind m (fun x => k))
  (at level 61, m at next level, right associativity) : gdb_scope.
Notation "m ;;; k" := (mbind m (fun _ => k))
  (at level 61, right associativity) : gdb_scope.
Open Scope gdb_scope.

(** The summing loop of [send]: [sum += getCharacterCodePoint(packet[i])]. *)
Fixpoint sum_loop (packet : jsstring) (sum : Z) : Result Z :=
  match packet with
  | [] => Return sum
  | ch :: rest =>
      bind (getCharacterCodePoint [ch]) (fun code => sum_loop rest (sum + code))
  end.

(** [util.format("$%s#%s", packet, sum.toString(16))] *)
Definition frame_packet (packet : jsstring) (sum : Z) : jsstring :=
  js "$" ++ packet ++ js "#" ++ Number_toString 16 sum.

(** [GDBServer.send] *)
Definition send (packet : jsstring) : M unit :=
  sum <- lift (sum_loop packet 0) ;;
  let sum := Z.land sum 255 in
  socket_write (frame_packet packet sum).

(** The host the server runs on and the [justlaunch] option. *)
Record Config := mkConfig {
  isWindows : bool;
  justlaunch : bool
}.

Fixpoint mapi {A B} (f : A -> Z -> B) (xs : list A) (index : Z) : list B :=
  match xs with
  | [] => []
  | x :: rest => f x index :: mapi f rest (index + 1)
  end.

(** [util.format("%d,%d,%s", arg.length * 2, index,
                 new Buffer(arg).toString("hex"))] *)
Definition encode_argument (arg : jsstring) (index : Z) : jsstring :=
  Number_toString 10 (len arg * 2) ++ js "," ++
  Number_toString 10 index ++ js "," ++
  Buffer_toString_hex (Buffer_from_string arg).

Definition encodedArguments (argv : list jsstring) : jsstring :=
  join (js ",") (mapi encode_argument argv 0).

(** [GDBServer.run] *)
Definition run (cfg : Config) (argv : list jsstring) : M unit :=
  send (js "QStartNoAckMode") ;;;
  socket_write (js "+") ;;;
  send (js "QEnvironmentHexEncoded:") ;;;
  send (js "QSetDisableASLR:1") ;;;
  send (js "A" ++ encodedArguments argv) ;;;
  send (js "qLaunchSuccess") ;;;
  if isWindows cfg then send (js "vCont;c")
  else if negb (justlaunch cfg) then
    socket_pipe ;;; send (js "vCont;c")
  else send (js "D").

Definition fresh : Socket := mkSocket [] false.

(** ** [GDBSignalWatcher] *)

Inductive WriteOutcome :=
| ProcessExit (code : Z)            (* [process.exit(code)] *)
| Callback (err : option Exn).      (* [callback(err)] *)

(** The [for] loop of [_write], [n] iterations left, at index [i]. *)
Fixpoint write_loop (n : nat) (packet : Buffer) (i : nat) : WriteOutcome :=
  match n with
  | O => Callback None
  | S n' =>
      if at_is packet i (chr "$")
         && (at_is packet (i + 1) (chr "T") || at_is packet (i + 1) (chr "S"))
      then
        if at_is packet (i + 2) (chr "9")
        then ProcessExit 1
        else write_loop n' packet (S i)
      else write_loop n' packet (S i)
  end.

(** [GDBSignalWatcher._write]: [i] runs over [0 .. packet.length - 3]. *)
Definition _write (packet : Buffer) : WriteOutcome :=
  write_loop (List.length packet - 2) packet 0.

(** ** [GDBStandardOutputAdapter] *)

(** The value of a hexadecimal digit. *)
Definition hex_val (c : Z) : option Z :=
  if (chr "0" <=? c) && (c <=? chr "9") then Some (c - chr "0")
  else if (chr "a" <=? c) && (c <=? chr "f") then Some (c - chr "a" + 10)
  else if (chr "A" <=? c) && (c <=? chr "F") then Some (c - chr "A" + 10)
  else None.

(** The bytes of a string that is pairs of hexadecimal digits and nothing
    else. *)
Fixpoint hex_pairs (s : jsstring) : option Buffer :=
  match s with
  | [] => Some []
  | a :: b :: rest =>
      match hex_val a, hex_val b, hex_pairs rest with
      | Some x, Some y, Some r => Some (16 * x + y :: r)
      | _, _, _ => None
      end
  | [_] => None
  end.

(** The bytes of the pairs of digits [s] begins with: the reading stops
    at the first pair that holds a character that is no digit. *)
Fixpoint hex_prefix (s : jsstring) : Buffer :=
  match s with
  | a :: b :: rest =>
      match hex_val a, hex_val b with
      | Some x, Some y => 16 * x + y :: hex_prefix rest
      | _, _ => []
      end
  | _ => []
  end.

(** [new Buffer(hexString, "hex")]: a string of odd length is refused
    with a [TypeError]; of a string of even length the leading pairs of
    digits are read, up to the first pair that is none, and what follows
    is dropped without an error.  (The refusal of an odd length is that
    of Node 0.12 to 7; later versions drop the last character instead.
    Nothing proved below rests on a string of odd length but the example
    that says so.) *)
Definition Buffer_from_hex (s : jsstring) : Result Buffer :=
  if Nat.odd (List.length s)
  then Throw (TypeError (js "Invalid hex string"))
  else Return (hex_prefix s).

(** [packet.slice(start, end)] for [0 <= start], as [toString] reads it. *)
Definition range (packet : Buffer) (start end_ : nat) : Buffer :=
  firstn (end_ - start) (skipn start packet).

(** [packet.toString("ascii", start, end)] *)
Definition toString_ascii (packet : Buffer) (start end_ : nat) : jsstring :=
  map (fun b => Z.land b 0x7f) (range packet start end_).

(** How [_transform] ends: [done(null, result)] or [done(e)]. *)
Inductive Done :=
| DoneResult (result : jsstring)
| DoneError (e : Exn).

(** The inner loop [while (packet[i] !== "#") i++]: the index it stops
    at, or [None] when [fuel] iterations were not enough. *)
Fixpoint scan_hash (fuel : nat) (packet : Buffer) (i : nat) : option nat :=
  match fuel with
  | O => None
  | S fuel' =>
      if at_is packet i (chr "#") then Some i
      else scan_hash fuel' packet (S i)
  end.

Section Adapter.

(** The [string_decoder.StringDecoder("utf8")] of the adapter: its
    state and its [write]. *)
Variable Decoder : Type.
Variable decoder_write : Decoder -> Buffer -> jsstring * Decoder.

(** The [for] loop of [_transform] at index [i]; [None] when [fuel]
    loop iterations (outer and inner) were not enough. *)
Fixpoint transform_loop (fuel : nat) (packet : Buffer) (i : nat)
  (utf8StringDecoder : Decoder) (result : jsstring)
  : option (Done * Decoder) :=
  match fuel with
  | O => None
  | S fuel' =>
      if (i <? List.length packet)%nat then
        if at_is packet i (chr "$") then
          let start := S i in
          match scan_hash fuel' packet start with
          | None => None
          | Some end_ =>
              let i := S (S end_) in      (* skip checksum *)
              if negb (at_is packet start (chr "O")
                       && negb (at_is packet (start + 1) (chr "K")))
              then transform_loop fuel' packet (S i) utf8StringDecoder result
              else
                let start := S start in
                let hexString := toString_ascii packet start end_ in
                match Buffer_from_hex hexString with
                | Throw e => Some (DoneError e, utf8StringDecoder)
                | Return hex =>
                    let (text, decoder') := decoder_write utf8StringDecoder hex in
                    transform_loop fuel' packet (S i) decoder' (result ++ text)
                end
          end
        else transform_loop fuel' packet (S i) utf8StringDecoder result
      else Some (DoneResult result, utf8StringDecoder)
  end.

(** [GDBStandardOutputAdapter._transform] *)
Definition _transform (fuel : nat) (packet : Buffer)
  (utf8StringDecoder : Decoder) : option (Done * Decoder) :=
  transform_loop fuel packet 0 utf8StringDecoder [].

End Adapter.

End GDB.

(* ================================================================== *)
(** * [MobileDevice.isDataReceivingCompleted] *)
(* ================================================================== *)

Module MobileDevice.

(** [v.k]: a [TypeError] on [null] and [undefined], else the property. *)
Definition get_prop (v : JSValue) (k : jsstring) : Result JSValue :=
  match v with
  | JUndefined | JNull =>
      Throw (TypeError (js "Cannot read property of undefined"))
  | _ => Return (get v k)
  end.

(** [reply.Status && reply.Complete && !reply.PercentComplete] *)
Definition isDataReceivingCompleted (reply : JSValue) : Result JSValue :=
  bind (get_prop reply (js "Status")) (fun status =>
  if truthy status then
    bind (get_prop reply (js "Complete")) (fun complete =>
    if truthy complete then
      bind (get_prop reply (js "PercentComplete")) (fun percentComplete =>
      Return (js_not percentComplete))
    else Return complete)
  else Return status).

End MobileDevice.

(* ================================================================== *)
(** * Big-endian lengths and [Buffer.slice] *)
(* ================================================================== *)

Module Bytes.

(** [bufferpack.pack(">i", [n])]: [n] brought into the range of a signed
    32-bit number, the nearest bound standing for a number outside of it,
    then its four bytes, most significant first. *)
Definition pack_i32be (n : Z) : Buffer :=
  let v := Z.max (-2147483648) (Z.min n 2147483647) in
  [Z.land (Z.shiftr v 24) 255; Z.land (Z.shiftr v 16) 255;
   Z.land (Z.shiftr v 8) 255; Z.land v 255].

(** The signed 32-bit number four bytes spell. *)
Definition int32be (b0 b1 b2 b3 : Z) : Z :=
  let u := b0 * 16777216 + b1 * 65536 + b2 * 256 + b3 in
  if 2147483648 <=? u then u - 4294967296 else u.

(** [buffer.readInt32BE(0)], also [bufferpack.unpack(">i", buffer)[0]]. *)
Definition readInt32BE (b : Buffer) : Result Z :=
  match b with
  | b0 :: b1 :: b2 :: b3 :: _ => Return (int32be b0 b1 b2 b3)
  | _ => Throw RangeError
  end.

(** How [slice] reads an index: a negative one counts from the end, and
    both ends are clamped to the buffer. *)
Definition clamp (n i : Z) : Z :=
  if i <? 0 then Z.max 0 (n + i) else Z.min i n.

(** [b.slice(start, end)] *)
Definition slice (b : Buffer) (start end_ : Z) : Buffer :=
  let s := clamp (len b) start in
  let e := clamp (len b) end_ in
  if e <=? s then []
  else firstn (Z.to_nat (e - s)) (skipn (Z.to_nat s) b).

(** [b.slice(start)] *)
Definition slice_from (b : Buffer) (start : Z) : Buffer :=
  slice b start (len b).

End Bytes.
Import Bytes.

(* ================================================================== *)
(** * [WinSocket]: the synchronous message socket *)
(* ================================================================== *)

Module WinSocket.

Definition kCFPropertyListXMLFormat_v1_0 : Z := 100.
Definition kCFPropertyListBinaryFormat_v1_0 : Z := 200.

(** The largest Buffer the runtime allocates. *)
Definition kMaxLength : Z := 0x3fffffff.

(** What the next call of [recv] finds on the connection. *)
Inductive Segment :=
| Data (bytes : Buffer)     (* bytes that have arrived together *)
| SocketError.              (* [recv] answers -1 *)

(** The inbound side of the connection; once the list is empty the peer
    has closed and [recv] answers 0. *)
Definition Wire := list Segment.

(** [winSocketLibrary.recv(service, data, bytes, 0)]: the count it
    answers, the bytes it stored at the front of [data], the rest of the
    connection. *)
Definition recv (wire : Wire) (bytes : Z) : Z * Buffer * Wire :=
  match wire with
  | [] => (0, [], [])
  | SocketError :: rest => (-1, [], rest)
  | Data arrived :: rest =>
      if len arrived <=? bytes then (len arrived, arrived, rest)
      else (bytes, firstn (Z.to_nat bytes) arrived,
            Data (skipn (Z.to_nat bytes) arrived) :: rest)
  end.

Section WithRuntime.

(** The byte a fresh [new Buffer(n)] holds at each index before
    anything is stored in it. *)
Variable uninitialised : nat -> Z.
(** [buffer.toString()] *)
Variable Buffer_toString : Buffer -> jsstring.
(** [plist.parse] and [plistlib.toString] of the two plist packages,
    and [buffer.toString("base64")]. *)
Variable plist_parse : jsstring -> Result JSValue.
Variable plistlib_toString : JSValue -> jsstring.
Variable base64 : Buffer -> jsstring.

(** [WinSocket.read]: the whole of [data] is handed back whenever
    [recv] stored at least one byte. *)
Definition read (wire : Wire) (bytes : Z) : Result (option Buffer) * Wire :=
  if kMaxLength <? bytes then (Throw RangeError, wire)
  else
    let size := Z.to_nat bytes in
    let '(result, stored, wire') := recv wire bytes in
    if result <? 0 then
      (Throw (Failure (js "Error receiving data: " ++ Number_toString 10 result)),
       wire')
    else if result =? 0 then (Return None, wire')
    else
      let data :=
        stored ++ map uninitialised
                      (seq (List.length stored) (size - List.length stored)) in
      (Return (Some data), wire').

(** The loop [while (left > 0)] of [receiveMessageCore]; [None] when
    [fuel] iterations were not enough. *)
Fixpoint read_reply (fuel : nat) (left : Z) (reply : jsstring) (wire : Wire)
  : option (Result jsstring * Wire) :=
  if 0 <? left then
    match fuel with
    | O => None
    | S fuel' =>
        match read wire left with
        | (Throw e, wire') => Some (Throw e, wire')
        | (Return None, wire') =>
            Some (Throw (Failure (js "Unable to read reply")), wire')
        | (Return (Some r), wire') =>
            read_reply fuel' (left - len r) (reply ++ Buffer_toString r) wire'
        end
    end
  else Some (Return reply, wire).

(** [WinSocket.receiveMessageCore] *)
Definition receiveMessageCore (fuel : nat) (wire : Wire)
  : option (Result jsstring * Wire) :=
  match read wire 4 with
  | (Throw e, wire') => Some (Throw e, wire')
  | (Return data, wire') =>
      match data with
      | Some data =>
          if len data =? 4 then
            match readInt32BE data with
            | Throw e => Some (Throw e, wire')
            | Return l => read_reply fuel l [] wire'
            end
          else Some (Return [], wire')
      | None => Some (Return [], wire')
      end
  end.

(** [WinSocket.receiveMessage] *)
Definition receiveMessage (format : Z) (fuel : nat) (wire : Wire)
  : option (Result JSValue * Wire) :=
  match receiveMessageCore fuel wire with
  | None => None
  | Some (Throw e, wire') => Some (Throw e, wire')
  | Some (Return message, wire') =>
      if format =? kCFPropertyListXMLFormat_v1_0
      then Some (plist_parse message, wire')
      else Some (Return JNull, wire')
  end.

(** The entries [_.keys(data)] and [_.values(data)] pair up. *)
Definition entries (data : JSValue) : list (jsstring * JSValue) :=
  match data with
  | JObject props => props
  | JArray items => GDB.mapi (fun v i => (Number_toString 10 i, v)) items 0
  | JBuffer b => GDB.mapi (fun v i => (Number_toString 10 i, JNum v)) b 0
  | _ => []
  end.

(** One turn of the loop of [createPlist]: the [type] and [value]
    chosen for [values[i]]. *)
Definition plist_entry (v : JSValue) : JSValue :=
  let '(type, value) :=
    match v with
    | JBuffer b => (js "data", JStr (base64 b))
    | JArray _ | JObject _ => (js "dict", JObject [])
    | JNum n => (js "integer", JNum n)
    | _ => (js "string", v)
    end in
  JObject [(js "type", JStr type); (js "value", value)].

Fixpoint createPlist_loop (todo : list (jsstring * JSValue))
  (value : list (jsstring * JSValue)) : list (jsstring * JSValue) :=
  match todo with
  | [] => value
  | (key, v) :: rest => createPlist_loop rest (assign value key (plist_entry v))
  end.

(** [WinSocket.createPlist] *)
Definition createPlist (data : JSValue) : JSValue :=
  JObject [(js "type", JStr (js "dict"));
           (js "value", JObject (createPlist_loop (entries data) []))].

(** [WinSocket.sendMessage]: the bytes handed to [sendCore]. *)
Definition sendMessage (data : JSValue) : Buffer :=
  match data with
  | JStr s => Buffer_from_string s
  | _ =>
      let payload := Buffer_from_string (plistlib_toString (createPlist data)) in
      let packed := pack_i32be (len payload) in
      packed ++ payload
  end.

(** A message sent by [sendMessage] and read back by [receiveMessage]
    from a connection that delivers it in one piece. *)
Definition roundtrip (format : Z) (fuel : nat) (data : JSValue)
  : option (Result JSValue * Wire) :=
  receiveMessage format fuel [Data (sendMessage data)].

End WithRuntime.

End WinSocket.

(* ================================================================== *)
(** * [PosixSocket]: the streaming message socket *)
(* ================================================================== *)

Module PosixSocket.

Inductive ReadState :=
| Length
| Plist.

(** The future [receiveMessage] hands to its caller. *)
Inductive Future :=
| Pending
| Returned (v : JSValue)     (* [result.return(v)] *)
| Thrown (e : Exn).          (* [result.throw(e)] *)

Definition isResolved (f : Future) : bool :=
  match f with
  | Pending => false
  | _ => true
  end.

(** What reaches [$logger]. *)
Inductive LogEntry :=
| Trace (text : jsstring)                  (* [trace(text)] *)
| TraceMessage (message : JSValue)         (* [trace(message)] *)
| TraceError (text : jsstring) (e : Exn)   (* [trace(text + e)] *)
| Out (text : jsstring).                   (* [out(text)] *)

(** The fields of the socket, the future of the pending
    [receiveMessage] and everything logged so far. *)
Record World := mkWorld {
  buffer : Buffer;
  state : ReadState;
  length : Z;
  result : Future;
  logger : list LogEntry
}.

(** A new socket on which [receiveMessage] has just been called. *)
Definition initial : World := mkWorld [] Length 4 Pending [].

Section WithRuntime.

(** [bplistParser.parseBuffer], [plist.parse], [buffer.toString()] and
    the conversion of a value to a string ([%s], [+]). *)
Variable parseBuffer : Buffer -> Result JSValue.
Variable plist_parse : jsstring -> Result JSValue.
Variable Buffer_toString : Buffer -> jsstring.
Variable ToString : JSValue -> jsstring.

(** [message.Status && message.Status === "Complete"] *)
Definition status_is_complete (message : JSValue) : bool :=
  truthy (get message (js "Status"))
  && match get message (js "Status") with
     | JStr s => str_eqb s (js "Complete")
     | _ => false
     end.

(** The inner [try] of the [Plist] case, with its [catch]: what is
    done with a frame that has been parsed. *)
Definition retrieveState (message : JSValue) (result : Future)
  (logger : list LogEntry) : Future * list LogEntry :=
  if truthy message && typeof_object message && truthy (get message (js "0"))
  then
    let message := get message (js "0") in
    let output := [] in
    let output :=
      if truthy (get message (js "Status"))
      then output ++ js "Status: " ++ ToString (get message (js "Status"))
      else output in
    let output :=
      if truthy (get message (js "PercentComplete"))
      then output ++ js " PercentComplete: "
                  ++ ToString (get message (js "PercentComplete"))
      else output in
    let logger := logger ++ [Out output] in
    let result :=
      if status_is_complete message
      then (if negb (isResolved result) then Returned message else result)
      else result in
    match MobileDevice.get_prop (get message (js "0")) (js "Status") with
    | Throw e =>
        (result, logger ++ [TraceError (js "Failed to retreive state: ") e])
    | Return status =>
        match MobileDevice.get_prop (get message (js "0")) (js "PercentComplete") with
        | Throw e =>
            (result, logger ++ [TraceError (js "Failed to retreive state: ") e])
        | Return percentComplete =>
            (result,
             logger ++ [Trace (js "Status: " ++ ToString status
                               ++ js " PercentComplete: "
                               ++ ToString percentComplete)])
        end
    end
  else (result, logger).

(** The outer [try] of the [Plist] case, with its [catch]: parse one
    frame and deal with it. *)
Definition receivePlist (plistBuffer : Buffer) (result : Future)
  (logger : list LogEntry) : Future * list LogEntry :=
  match parseBuffer plistBuffer with
  | Throw e => (result, logger ++ [TraceError (js "Failed to parse bplist: ") e])
  | Return message =>
      retrieveState message result
        (logger ++ [Trace (js "MESSAGE RECEIVING"); TraceMessage message])
  end.

(** One turn of [while (this.buffer.length >= this.length)], the test
    included: [None] when the loop is left, else the completion of the
    [switch]. *)
Definition iteration (w : World) : option (Result World) :=
  if length w <=? len (buffer w) then
    Some
      match state w with
      | Length =>
          bind (readInt32BE (buffer w)) (fun l =>
          Return (mkWorld (slice_from (buffer w) 4) Plist l
                          (result w) (logger w)))
      | Plist =>
          let plistBuffer := slice (buffer w) 0 (length w) in
          let '(result', logger') :=
            receivePlist plistBuffer (result w) (logger w) in
          Return (mkWorld (slice_from (buffer w) (length w)) Length 4
                          result' logger')
      end
  else None.

(** The [while] loop inside its [try]; [None] when [fuel] turns were
    not enough. *)
Fixpoint drain (fuel : nat) (w : World) : option World :=
  match iteration w with
  | None => Some w
  | Some (Throw e) =>
      Some (mkWorld (buffer w) (state w) (length w) (result w)
                    (logger w ++ [TraceError (js "Exception thrown: ") e]))
  | Some (Return w') =>
      match fuel with
      | O => None
      | S fuel' => drain fuel' w'
      end
  end.

(** The turns the loop can take from [w]. *)
Definition turns (w : World) : nat :=
  match state w with
  | Length => 2 * List.length (buffer w)
  | Plist => 2 * List.length (buffer w) + 1
  end.

(** The handler of ["data"] that [receiveMessage] installs. *)
Definition onData (format : Z) (w : World) (data : Buffer) : option World :=
  let w := mkWorld (buffer w ++ data) (state w) (length w)
                   (result w) (logger w) in
  if format =? WinSocket.kCFPropertyListBinaryFormat_v1_0 then
    drain (turns w) w
  else if format =? WinSocket.kCFPropertyListXMLFormat_v1_0 then
    let parsedData :=
      match plist_parse (Buffer_toString (buffer w)) with
      | Return parsed => parsed
      | Throw _ => JObject []
      end in
    Some (mkWorld (buffer w) (state w) (length w)
                  (if negb (isResolved (result w))
                   then Returned parsedData else result w)
                  (logger w))
  else Some w.

(** The handler of ["error"]. *)
Definition onError (w : World) (error : Exn) : World :=
  mkWorld (buffer w) (state w) (length w)
          (if negb (isResolved (result w)) then Thrown error else result w)
          (logger w).

(** The socket after a sequence of ["data"] events. *)
Fixpoint feed (format : Z) (w : World) (chunks : list Buffer) : option World :=
  match chunks with
  | [] => Some w
  | data :: rest =>
      match onData format w data with
      | None => None
      | Some w' => feed format w' rest
      end
  end.

(** ** Frames, as [sendMessage] writes them *)

(** [bufferpack.pack(">i", [data.length])] followed by [data]. *)
Definition frame (data : Buffer) : Buffer := pack_i32be (len data) ++ data.

(** A frame handled on its own: all of it parsed at once. *)
Definition direct (fl : Future * list LogEntry) (data : Buffer)
  : Future * list LogEntry :=
  receivePlist data (fst fl) (snd fl).

(** The messages the log shows as received, oldest first. *)
Fixpoint messages (log : list LogEntry) : list JSValue :=
  match log with
  | [] => []
  | TraceMessage m :: rest => m :: messages rest
  | _ :: rest => messages rest
  end.

(** The frames of a list that parse, as the values they parse to. *)
Fixpoint parsed (frames : list Buffer) : list JSValue :=
  match frames with
  | [] => []
  | data :: rest =>
      match parseBuffer data with
      | Return m => m :: parsed rest
      | Throw _ => parsed rest
      end
  end.

End WithRuntime.

End PosixSocket.

(* ================================================================== *)
(** * The UTF-8 string decoder held by the output adapter *)
(* ================================================================== *)

Module StringDecoder.

(** The bytes of a sequence begun in one [write] and not yet finished. *)
Definition Decoder := Buffer.

Definition is_continuation (b : Z) : bool := (0x80 <=? b) && (b <? 0xC0).

(** The UTF-16 code units of a code point. *)
Definition code_units (c : Z) : jsstring :=
  if c <? 0x10000 then [c]
  else [0xD800 + Z.shiftr (c - 0x10000) 10; 0xDC00 + Z.land (c - 0x10000) 0x3FF].

Definition emit (units : jsstring) (r : jsstring * Buffer) : jsstring * Buffer :=
  (units ++ fst r, snd r).

(** The bounds of the second byte of a sequence that begins with [b0]:
    they leave out the forms that are longer than need be, the
    surrogates, and the code points above U+10FFFF. *)
Definition second_lower (b0 : Z) : Z :=
  if b0 =? 0xE0 then 0xA0 else if b0 =? 0xF0 then 0x90 else 0x80.

Definition second_upper (b0 : Z) : Z :=
  if b0 =? 0xED then 0x9F else if b0 =? 0xF4 then 0x8F else 0xBF.

Definition is_second (b0 b : Z) : bool :=
  (second_lower b0 <=? b) && (b <=? second_upper b0).

(** Decode as many whole sequences as [bytes] holds; what is left of a
    sequence cut short at the end is handed back.  A byte that cannot
    start a sequence becomes U+FFFD, and so does the beginning of a
    sequence that the next byte cannot continue, the reading going on at
    that byte. *)
Fixpoint decode (bytes : Buffer) : jsstring * Buffer :=
  match bytes with
  | [] => ([], [])
  | b0 :: r0 =>
      if b0 <? 0x80 then emit [b0] (decode r0)
      else if (0xC2 <=? b0) && (b0 <? 0xE0) then
        match r0 with
        | [] => ([], bytes)
        | b1 :: r1 =>
            if is_continuation b1
            then emit (code_units (Z.land b0 0x1F * 64 + Z.land b1 0x3F)) (decode r1)
            else emit [0xFFFD] (decode r0)
        end
      else if (0xE0 <=? b0) && (b0 <? 0xF0) then
        match r0 with
        | [] => ([], bytes)
        | b1 :: r1 =>
            if is_second b0 b1 then
              match r1 with
              | [] => ([], bytes)
              | b2 :: r2 =>
                  if is_continuation b2
                  then emit (code_units (Z.land b0 0x0F * 4096
                                         + Z.land b1 0x3F * 64 + Z.land b2 0x3F))
                            (decode r2)
                  else emit [0xFFFD] (decode r1)
              end
            else emit [0xFFFD] (decode r0)
        end
      else if (0xF0 <=? b0) && (b0 <? 0xF5) then
        match r0 with
        | [] => ([], bytes)
        | b1 :: r1 =>
            if is_second b0 b1 then
              match r1 with
              | [] => ([], bytes)
              | b2 :: r2 =>
                  if is_continuation b2 then
                    match r2 with
                    | [] => ([], bytes)
                    | b3 :: r3 =>
                        if is_continuation b3
                        then emit (code_units (Z.land b0 0x07 * 262144
                                               + Z.land b1 0x3F * 4096
                                               + Z.land b2 0x3F * 64
                                               + Z.land b3 0x3F))
                                  (decode r3)
                        else emit [0xFFFD] (decode r2)
                    end
                  else emit [0xFFFD] (decode r1)
              end
            else emit [0xFFFD] (decode r0)
        end
      else emit [0xFFFD] (decode r0)
  end.

(** [new StringDecoder("utf8")] *)
Definition create : Decoder := [].

(** [decoder.write(buffer)]: the text completed by [buffer], and the
    decoder holding what is still incomplete. *)
Definition write (d : Decoder) (buffer : Buffer) : jsstring * Decoder :=
  decode (d ++ buffer).

End StringDecoder.

(* ================================================================== *)
(** * The statements of the specification, as it words them *)
(* ================================================================== *)

Module Spec.

(** The value a dictionary holds under a name, [undefined] without it. *)
Definition field (props : list (jsstring * JSValue)) (k : jsstring) : JSValue :=
  match lookup props k with
  | Some v => v
  | None => JUndefined
  end.

Definition contains (props : list (jsstring * JSValue)) (k : jsstring) : bool :=
  match lookup props k with
  | Some _ => true
  | None => false
  end.

(** Completion as the specification words it: a [Status] field, a
    [Complete] field equal to [true], no [PercentComplete] field. *)
Definition complete_as_specified (props : list (jsstring * JSValue)) : bool :=
  contains props (js "Status")
  && match lookup props (js "Complete") with
     | Some (JBool true) => true
     | _ => false
     end
  && negb (contains props (js "PercentComplete")).

(** The three replies the specification lists. *)
Definition done_reply : list (jsstring * JSValue) :=
  [(js "Status", JStr (js "Complete")); (js "Complete", JBool true)].

Definition progress_reply (percent : Z) : list (jsstring * JSValue) :=
  [(js "Status", JStr (js "Complete")); (js "Complete", JBool true);
   (js "PercentComplete", JNum percent)].

Definition statusless_reply : list (jsstring * JSValue) :=
  [(js "Complete", JBool true)].

(** A code unit [getCharacterCodePoint] lets through. *)
Definition acceptable (c : Z) : Prop := ~ (0xD800 <= c <= 0xffff).

(** A dictionary that holds a dictionary, and the same with the inner
    dictionary emptied. *)
Definition nested_message : JSValue :=
  JObject [(js "Outer", JObject [(js "Inner", JStr (js "x"))])].

Definition emptied_message : JSValue :=
  JObject [(js "Outer", JObject [])].

(** The test [_write] makes at index [k]. *)
Definition kill_at (packet : Buffer) (k : nat) : bool :=
  at_is packet k (chr "$")
  && (at_is packet (k + 1) (chr "T") || at_is packet (k + 1) (chr "S"))
  && at_is packet (k + 2) (chr "9").

(** The kill condition as the specification words it: somewhere in the
    chunk a packet begins [$T] or [$S] and the third byte of its payload
    is [9]. *)
Fixpoint kill_as_specified (packet : Buffer) : bool :=
  match packet with
  | [] => false
  | b :: rest =>
      ((b =? chr "$")
       && (at_is rest 0 (chr "T") || at_is rest 0 (chr "S"))
       && at_is rest 2 (chr "9"))
      || kill_as_specified rest
  end.

(** The packet [send] writes for an acceptable payload: the payload
    between [$] and [#], then the sum of its code units, masked to eight
    bits, as [send] prints it. *)
Definition framed (payload : jsstring) : jsstring :=
  GDB.frame_packet payload (Z.land (fold_left Z.add payload 0) 255).

(** The triple [2L,i,H] of argument [i]: [L] the number of its bytes, [H]
    their hexadecimal digits. *)
Definition triple (arg : jsstring) (i : Z) : jsstring :=
  Number_toString 10 (2 * len (Buffer_from_string arg)) ++ js "," ++
  Number_toString 10 i ++ js "," ++
  Buffer_toString_hex (Buffer_from_string arg).

(** The first six writes of the handshake. *)
Definition handshake_prefix (argv : list jsstring) : list jsstring :=
  [framed (js "QStartNoAckMode");
   js "+";
   framed (js "QEnvironmentHexEncoded:");
   framed (js "QSetDisableASLR:1");
   framed (js "A" ++ join (js ",") (GDB.mapi triple argv 0));
   framed (js "qLaunchSuccess")].

(** The handshake as the specification words it: the resume directive
    is [D] when the session is launch-only, [vCont;c] otherwise. *)
Definition handshake_as_specified (launch_only : bool) (argv : list jsstring)
  : list jsstring :=
  handshake_prefix argv
  ++ [framed (if launch_only then js "D" else js "vCont;c")].

(** The handshake with the host taken into account: on Windows the
    resume directive is always [vCont;c]. *)
Definition handshake (cfg : GDB.Config) (argv : list jsstring) : list jsstring :=
  handshake_prefix argv
  ++ [framed (if GDB.isWindows cfg then js "vCont;c"
              else if GDB.justlaunch cfg then js "D" else js "vCont;c")].

(** A string all of whose code units are ASCII. *)
Definition ascii_string (s : jsstring) : Prop :=
  Forall (fun c => 0 <= c < 128) s.

(** What a chunk read by the output adapter is made of: whole packets
    [$payload#hh], and bytes between packets. *)
Inductive Item :=
| Noise (bytes : Buffer)
| Packet (payload : Buffer) (c1 c2 : Z).

Definition render (it : Item) : Buffer :=
  match it with
  | Noise bytes => bytes
  | Packet payload c1 c2 => chr "$" :: payload ++ [chr "#"; c1; c2]
  end.

Definition chunk_of (items : list Item) : Buffer := flat_map render items.

(** No [$] between packets, no [#] inside a payload. *)
Definition well_formed (it : Item) : Prop :=
  match it with
  | Noise bytes => ~ In (chr "$") bytes
  | Packet payload _ _ => ~ In (chr "#") payload
  end.

(** Console output: the first byte of the payload is [O] and the second
    is not [K]. *)
Definition qualifies (payload : Buffer) : bool :=
  match payload with
  | o :: rest =>
      (o =? chr "O")
      && match rest with
         | k :: _ => negb (k =? chr "K")
         | [] => true
         end
  | [] => false
  end.




Section Console.

Variable Decoder : Type.
Variable decoder_write : Decoder -> Buffer -> jsstring * Decoder.

(** The text of a chunk: each qualifying payload without its [O],
    its hexadecimal pairs decoded, passed through the one decoder. *)
Fixpoint console (items : list Item) (d : Decoder) (result : jsstring)
  : GDB.Done * Decoder :=
  match items with
  | [] => (GDB.DoneResult result, d)
  | Noise _ :: rest => console rest d result
  | Packet payload _ _ :: rest =>
      if qualifies payload then
        match GDB.Buffer_from_hex (map (fun b => Z.land b 0x7f) (tl payload)) with
        | Throw e => (GDB.DoneError e, d)
        | Return hex =>
            let (text, d') := decoder_write d hex in
            console rest d' (result ++ text)
        end
      else console rest d result
  end.

End Console.

Section Streaming.

Variable parseBuffer : Buffer -> Result JSValue.
Variable ToString : JSValue -> jsstring.

(** A payload whose length a signed 32-bit prefix can declare. *)
Definition declarable (data : Buffer) : Prop := len data < 2147483648.

(** The byte sequence of frames written back to back. *)
Definition stream_of (frames : list Buffer) : Buffer :=
  List.concat (map PosixSocket.frame frames).

(** The future and the log after the frames of a list have been handled
    one by one, each parsed on its own. *)
Definition handled (frames : list Buffer)
  : PosixSocket.Future * list PosixSocket.LogEntry :=
  fold_left (PosixSocket.direct parseBuffer ToString) frames
            (PosixSocket.Pending, []).

(** How the socket stands in the frames still to come, [rest] being the
    bytes that have not arrived yet. *)
Definition pending (w : PosixSocket.World) (todo : list Buffer) (rest : Buffer)
  : Prop :=
  match PosixSocket.state w with
  | PosixSocket.Length =>
      PosixSocket.length w = 4
      /\ PosixSocket.buffer w ++ rest = stream_of todo
  | PosixSocket.Plist =>
      exists data todo',
        todo = data :: todo'
        /\ PosixSocket.length w = len data
        /\ PosixSocket.buffer w ++ rest = data ++ stream_of todo'
  end.

(** The socket has handled the frames that are behind it and stands in
    those to come. *)
Definition tracks (w : PosixSocket.World) (frames : list Buffer) (rest : Buffer)
  : Prop :=
  exists past todo,
    frames = past ++ todo
    /\ (PosixSocket.result w, PosixSocket.logger w) = handled past
    /\ pending w todo rest.

(** The worlds the socket goes through: from the initial one by the
    arrival of a chunk and by a turn of the loop. *)
Inductive Reached : PosixSocket.World -> Prop :=
| reached_initial : Reached PosixSocket.initial
| reached_data w data :
    Reached w ->
    Reached (PosixSocket.mkWorld (PosixSocket.buffer w ++ data)
                                 (PosixSocket.state w) (PosixSocket.length w)
                                 (PosixSocket.result w) (PosixSocket.logger w))
| reached_turn w w' :
    Reached w ->
    PosixSocket.iteration parseBuffer ToString w = Some (Return w') ->
    Reached w'.

(** The future has not been failed. *)
Definition not_thrown (f : PosixSocket.Future) : Prop :=
  match f with
  | PosixSocket.Thrown _ => False
  | _ => True
  end.

End Streaming.

(** A stand-in for the binary plist parser, for running the socket on
    concrete bytes: it refuses the empty buffer and reads any other as the
    array holding one dictionary, whose [Status] is the text of the
    bytes. *)
Definition sample_parseBuffer (data : Buffer) : Result JSValue :=
  match data with
  | [] => Throw (TypeError (js "Unable to identify format"))
  | _ => Return (JArray [JObject [(js "Status", JStr data)]])
  end.

(** A stand-in for the conversion to a string. *)
Definition sample_ToString (v : JSValue) : jsstring :=
  match v with
  | JStr s => s
  | JUndefined => js "undefined"
  | _ => js "[object Object]"
  end.

(** A stand-in for [plist.parse] that refuses everything. *)
Definition sample_plist_parse (text : jsstring) : Result JSValue :=
  Throw (TypeError (js "Invalid XML")).

(** [buffer.toString()] of the adapter's decoder model, a dangling
    sequence dropped. *)
Definition sample_Buffer_toString (b : Buffer) : jsstring :=
  fst (StringDecoder.decode b).

(** A [#] later in the chunk than index [i]. *)
Definition closed_at (packet : Buffer) (i : nat) : Prop :=
  exists j, (i < j)%nat /\ at_is packet j (chr "#") = true.

(** Every [$] of the chunk is followed by a [#]. *)
Definition every_dollar_closed (packet : Buffer) : Prop :=
  forall i, at_is packet i (chr "$") = true -> closed_at packet i.

(** Index [p] is not one of the two bytes that follow a [#]. *)
Definition not_in_checksum (packet : Buffer) (p : nat) : Prop :=
  forall j, at_is packet j (chr "#") = true -> p <> S j /\ p <> S (S j).

End Spec.

(* ================================================================== *)
(** * [WinSocket]: sending, and reading until the stream closes *)
(* ================================================================== *)

Module WinSocketIO.

Import WinSocket.

Definition BYTES_TO_READ : Z := 1024.

(** The outbound side of the connection: how many bytes each coming call
    of [send] takes, a negative entry standing for a call that fails;
    once the list is empty [send] takes all it is given. *)
Definition Outlet := list Z.

(** [WinSocket.sendCore]: the count [send] answers, the bytes that went
    out, the rest of the outlet. *)
Definition sendCore (outlet : Outlet) (data : Buffer) : Z * Buffer * Outlet :=
  match outlet with
  | [] => (len data, data, [])
  | room :: rest =>
      if room <? 0 then (-1, [], rest)
      else if len data <=? room then (len data, data, rest)
      else (room, firstn (Z.to_nat room) data, rest)
  end.

(** [WinSocket.sendAll]: the loop [while (data.length !== 0)], with the
    bytes that have gone out so far; [None] when [fuel] turns were not
    enough. *)
Fixpoint sendAll (fuel : nat) (outlet : Outlet) (data : Buffer) (gone : Buffer)
  : option (Result unit * Buffer * Outlet) :=
  if len data =? 0 then Some (Return tt, gone, outlet)
  else
    match fuel with
    | O => None
    | S fuel' =>
        let '(result, took, outlet') := sendCore outlet data in
        if result <? 0 then
          Some (Throw (Failure (js "Error sending data: "
                                ++ Number_toString 10 result)),
                gone, outlet')
        else sendAll fuel' outlet' (slice_from data result) (gone ++ took)
    end.

Section WithRuntime.

Variable uninitialised : nat -> Z.

(** How [receiveAll] and [readSystemLog] end: the completion, what is
    left of the connection, the buffers passed to the handler, oldest
    first, and whether [close] was called. *)
Record Drained := mkDrained {
  completion : Result unit;
  remaining : Wire;
  handed : list Buffer;
  closed : bool
}.

(** [WinSocket.receiveAll], and [WinSocket.readSystemLog], which is the
    same loop: read [BYTES_TO_READ] bytes and pass them on until a read
    answers [null], then close. *)
Fixpoint receiveAll (fuel : nat) (wire : Wire) (handed : list Buffer)
  : option Drained :=
  match fuel with
  | O => None
  | S fuel' =>
      match read uninitialised wire BYTES_TO_READ with
      | (Throw e, wire') => Some (mkDrained (Throw e) wire' handed false)
      | (Return None, wire') => Some (mkDrained (Return tt) wire' handed true)
      | (Return (Some data), wire') => receiveAll fuel' wire' (handed ++ [data])
      end
  end.

(** The bytes of a segment followed by what the fresh buffer held. *)
Definition padded (arrived : Buffer) : Buffer :=
  arrived ++ map uninitialised
                 (seq (List.length arrived)
                      (Z.to_nat BYTES_TO_READ - List.length arrived)).

End WithRuntime.

End WinSocketIO.

(* ================================================================== *)
(** * [PosixSocket]: sending, and the reply of [receiveMessage] *)
(* ================================================================== *)

Module PosixSocketIO.

Section WithRuntime.

(** [$coreFoundation.dictToPlistEncoding] and [bplistParser.parseBuffer]. *)
Variable dictToPlistEncoding : JSValue -> Z -> Buffer.
Variable parseBuffer : Buffer -> Result JSValue.

(** [PosixSocket.sendMessage]: the buffers handed to [socket.write], in
    order. *)
Definition sendMessage (message : JSValue) (format : Z) : list Buffer :=
  match message with
  | JStr text => [Buffer_from_string text]
  | _ =>
      let data := dictToPlistEncoding message format in
      let payload := pack_i32be (len data) in
      [payload; data]
  end.

(** The message a frame settles the future with: the first element of
    what it parses to, when that is truthy and its [Status] is the string
    [Complete]. *)
Definition completes (data : Buffer) : option JSValue :=
  match parseBuffer data with
  | Return message =>
      if truthy message && typeof_object message && truthy (get message (js "0"))
         && PosixSocket.status_is_complete (get message (js "0"))
      then Some (get message (js "0"))
      else None
  | Throw _ => None
  end.

Fixpoint first_complete (frames : list Buffer) : option JSValue :=
  match frames with
  | [] => None
  | data :: rest =>
      match completes data with
      | Some message => Some message
      | None => first_complete rest
      end
  end.

End WithRuntime.

(** One list is the end of another. *)
Definition suffix_of (a b : Buffer) : Prop := exists front, b = front ++ a.

End PosixSocketIO.

(* ================================================================== *)
(** * [Signal] and [SignalBinding] of [events/signal.ts] *)
(* ================================================================== *)

(** A listener is a function and a context is an object: each is known
    by its identity, a number; [None] is the context [undefined].  A
    binding is an object too, and [id] is its identity.  A binding is
    destroyed exactly when it is taken out of [_bindings], so the bindings
    that are alive are those of the list, and a binding that is looked for
    by its [id] and not found has been destroyed. *)

Module SignalBinding.

Record t := mk {
  id : nat;
  _listener : nat;
  _isOnce : bool;
  context : option nat;
  priority : Z;
  active : bool;
  params : option (list JSValue)
}.

End SignalBinding.

Module Signal.

Record t := mk {
  _bindings : list SignalBinding.t;
  _prevParams : option (list JSValue);
  memorize : bool;
  _shouldPropagate : bool;
  active : bool;
  allocated : nat          (* the bindings constructed so far *)
}.

(** [new Signal()] *)
Definition create : t := mk [] None false true true 0.

(** How a method ends: it returns, or it throws an [Error]. *)
Inductive Outcome (A : Type) :=
| Done (a : A)
| Error (message : jsstring).
Arguments Done {A} a.
Arguments Error {A} message.

(** [cur.context === context] *)
Definition same_context (a b : option nat) : bool :=
  match a, b with
  | Some x, Some y => (x =? y)%nat
  | None, None => true
  | _, _ => false
  end.

(** [cur.getListener() === listener && cur.context === context] *)
Definition is_bound_to (cur : SignalBinding.t) (listener : nat)
  (context : option nat) : bool :=
  (SignalBinding._listener cur =? listener)%nat
  && same_context (SignalBinding.context cur) context.

(** The loop [while (n--)] of [_indexOfListener]: the index found, or
    [None] for -1. *)
Fixpoint _indexOfListener_loop (bindings : list SignalBinding.t) (n : nat)
  (listener : nat) (context : option nat) : option nat :=
  match n with
  | O => None
  | S n' =>
      match nth_error bindings n' with
      | Some cur =>
          if is_bound_to cur listener context then Some n'
          else _indexOfListener_loop bindings n' listener context
      | None => _indexOfListener_loop bindings n' listener context
      end
  end.

(** [Signal._indexOfListener] *)
Definition _indexOfListener (s : t) (listener : nat) (context : option nat)
  : option nat :=
  _indexOfListener_loop (_bindings s) (List.length (_bindings s)) listener context.

(** [Signal.has] *)
Definition has (s : t) (listener : nat) (context : option nat) : bool :=
  match _indexOfListener s listener context with
  | Some _ => true
  | None => false
  end.

(** [Signal.getNumListeners] *)
Definition getNumListeners (s : t) : nat := List.length (_bindings s).

(** The loop [do { --n; } while (...)] of [_addBinding], entered with [n]:
    the value of [n + 1] it ends with. *)
Fixpoint insertion_point (bindings : list SignalBinding.t) (n : nat) (p : Z)
  : nat :=
  match n with
  | O => O
  | S n' =>
      match nth_error bindings n' with
      | Some cur =>
          if p <=? SignalBinding.priority cur
          then insertion_point bindings n' p
          else S n'
      | None => S n'
      end
  end.

(** [bindings.splice(at, 0, binding)] *)
Definition splice_in (bindings : list SignalBinding.t) (at_ : nat)
  (binding : SignalBinding.t) : list SignalBinding.t :=
  firstn at_ bindings ++ binding :: skipn at_ bindings.

(** [bindings.splice(at, 1)] *)
Definition splice_out (bindings : list SignalBinding.t) (at_ : nat)
  : list SignalBinding.t :=
  firstn at_ bindings ++ skipn (S at_) bindings.

(** [Signal._addBinding] *)
Definition _addBinding (s : t) (binding : SignalBinding.t) : t :=
  let n := insertion_point (_bindings s) (List.length (_bindings s))
                           (SignalBinding.priority binding) in
  mk (splice_in (_bindings s) n binding) (_prevParams s) (memorize s)
     (_shouldPropagate s) (active s) (allocated s).

(** [Signal.validateListener], the listener being a function ([Some]) or
    anything else ([None]). *)
Definition validateListener (listener : option nat) (fnName : jsstring)
  : Outcome nat :=
  match listener with
  | Some l => Done l
  | None =>
      Error (js "listener is a required param of " ++ fnName
             ++ js "() and should be a Function.")
  end.

(** The binding whose identity is [bid], when it is alive. *)
Definition alive (s : t) (bid : nat) : option SignalBinding.t :=
  find (fun b => (SignalBinding.id b =? bid)%nat) (_bindings s).

(** The part of [Signal.remove] after the validation. *)
Definition remove_bound (s : t) (listener : nat) (context : option nat) : t :=
  match _indexOfListener s listener context with
  | Some i =>
      mk (splice_out (_bindings s) i) (_prevParams s) (memorize s)
         (_shouldPropagate s) (active s) (allocated s)
  | None => s
  end.

(** [Signal.remove] *)
Definition remove (s : t) (listener : option nat) (context : option nat)
  : Outcome nat * t :=
  match validateListener listener (js "remove") with
  | Error m => (Error m, s)
  | Done l => (Done l, remove_bound s l context)
  end.

(** [Signal.removeAll] *)
Definition removeAll (s : t) : t :=
  mk [] (_prevParams s) (memorize s) (_shouldPropagate s) (active s) (allocated s).

(** [Signal.halt] *)
Definition halt (s : t) : t :=
  mk (_bindings s) (_prevParams s) (memorize s) false (active s) (allocated s).

(** [Signal.forget] *)
Definition forget (s : t) : t :=
  mk (_bindings s) None (memorize s) (_shouldPropagate s) (active s) (allocated s).

Section WithListeners.

(** What the listeners act on besides the signal, and what calling a
    listener with a context and parameters does: it returns, the flag
    telling whether what it returned is [false], or it throws; either
    way it may have used the signal. *)
Variable World : Type.
Variable call :
  nat -> option nat -> list JSValue -> t * World -> Outcome bool * (t * World).

(** [SignalBinding.execute] on the binding [bid]: whether the listener
    returned [false]. *)
Definition execute (bid : nat) (paramsArr : list JSValue) (sw : t * World)
  : Outcome bool * (t * World) :=
  match alive (fst sw) bid with
  | None => (Done false, sw)
  | Some this =>
      if SignalBinding.active this then
        let params :=
          match SignalBinding.params this with
          | Some curried => curried ++ paramsArr
          | None => paramsArr
          end in
        match call (SignalBinding._listener this) (SignalBinding.context this)
                   params sw with
        | (Error m, sw') => (Error m, sw')
        | (Done handlerReturn, sw') =>
            if SignalBinding._isOnce this then
              (* [detach]: [remove], when the binding is still bound *)
              match alive (fst sw') bid with
              | Some this' =>
                  (Done handlerReturn,
                   (remove_bound (fst sw') (SignalBinding._listener this')
                                 (SignalBinding.context this'),
                    snd sw'))
              | None => (Done handlerReturn, sw')
              end
            else (Done handlerReturn, sw')
        end
      else (Done false, sw)
  end.

(** [Signal._registerListener] *)
Definition _registerListener (listener : nat) (isOnce : bool)
  (listenerContext : option nat) (priority : option Z) (sw : t * World)
  : Outcome SignalBinding.t * (t * World) :=
  let s := fst sw in
  let registered :=
    match _indexOfListener s listener listenerContext with
    | Some prevIndex =>
        match nth_error (_bindings s) prevIndex with
        | Some binding =>
            if Bool.eqb (SignalBinding._isOnce binding) isOnce
            then (Done binding, s)
            else
              (Error (js "You cannot add" ++ (if isOnce then [] else js "Once")
                      ++ js "() then add"
                      ++ (if negb isOnce then [] else js "Once")
                      ++ js "() the same listener without removing the relationship first."),
               s)
        | None =>
            (* [binding] is [undefined]: a TypeError *)
            (Error (js "Cannot read property 'isOnce' of undefined"), s)
        end
    | None =>
        let binding :=
          SignalBinding.mk (allocated s) listener isOnce listenerContext
                           (match priority with Some p => p | None => 0 end)
                           true None in
        let s' := _addBinding s binding in
        (Done binding,
         mk (_bindings s') (_prevParams s') (memorize s') (_shouldPropagate s')
            (active s') (S (allocated s')))
    end in
  match registered with
  | (Error m, s') => (Error m, (s', snd sw))
  | (Done binding, s') =>
      match memorize s', _prevParams s' with
      | true, Some prevParams =>
          match execute (SignalBinding.id binding) prevParams (s', snd sw) with
          | (Error m, sw') => (Error m, sw')
          | (Done _, sw') => (Done binding, sw')
          end
      | _, _ => (Done binding, (s', snd sw))
      end
  end.

(** [Signal.add] *)
Definition add (listener : option nat) (listenerContext : option nat)
  (priority : option Z) (sw : t * World)
  : Outcome SignalBinding.t * (t * World) :=
  match validateListener listener (js "add") with
  | Error m => (Error m, sw)
  | Done l => _registerListener l false listenerContext priority sw
  end.

(** [Signal.addOnce] *)
Definition addOnce (listener : option nat) (listenerContext : option nat)
  (priority : option Z) (sw : t * World)
  : Outcome SignalBinding.t * (t * World) :=
  match validateListener listener (js "addOnce") with
  | Error m => (Error m, sw)
  | Done l => _registerListener l true listenerContext priority sw
  end.

(** The loop [do { n--; } while (...)] of [dispatch] over the cloned
    array, last binding first. *)
Fixpoint dispatch_loop (backwards : list nat) (paramsArr : list JSValue)
  (sw : t * World) : Outcome unit * (t * World) :=
  match backwards with
  | [] => (Done tt, sw)
  | bid :: rest =>
      if _shouldPropagate (fst sw) then
        match execute bid paramsArr sw with
        | (Error m, sw') => (Error m, sw')
        | (Done returned_false, sw') =>
            if returned_false then (Done tt, sw')
            else dispatch_loop rest paramsArr sw'
        end
      else (Done tt, sw)
  end.

(** [Signal.dispatch] *)
Definition dispatch (paramsArr : list JSValue) (sw : t * World)
  : Outcome unit * (t * World) :=
  let s := fst sw in
  if negb (active s) then (Done tt, sw)
  else
    let s :=
      if memorize s
      then mk (_bindings s) (Some paramsArr) (memorize s) (_shouldPropagate s)
              (active s) (allocated s)
      else s in
    match _bindings s with
    | [] => (Done tt, (s, snd sw))
    | _ =>
        let bindings := map SignalBinding.id (_bindings s) in
        let s := mk (_bindings s) (_prevParams s) (memorize s) true
                    (active s) (allocated s) in
        dispatch_loop (rev bindings) paramsArr (s, snd sw)
    end.

End WithListeners.

(** ** Notions about a signal *)

(** The bindings are in the order of their priorities. *)
Definition in_priority_order (bindings : list SignalBinding.t) : Prop :=
  StronglySorted
    (fun a b => SignalBinding.priority a <= SignalBinding.priority b) bindings.

(** What a binding binds: its listener and its context. *)
Definition bound_pair (b : SignalBinding.t) : nat * option nat :=
  (SignalBinding._listener b, SignalBinding.context b).

(** No two bindings bind one listener in one context. *)
Definition bound_once (bindings : list SignalBinding.t) : Prop :=
  NoDup (map bound_pair bindings).

(** The bindings are distinct objects, constructed by this signal. *)
Definition own_bindings (s : t) : Prop :=
  NoDup (map SignalBinding.id (_bindings s))
  /\ Forall (fun b => (SignalBinding.id b < allocated s)%nat) (_bindings s).

(** What the methods keep of a signal whose bindings nobody else writes. *)
Definition well_kept (s : t) : Prop :=
  in_priority_order (_bindings s) /\ bound_once (_bindings s) /\ own_bindings s.

(** Nothing is memorized, so that registering executes no listener. *)
Definition nothing_memorized (s : t) : Prop :=
  memorize s = false \/ _prevParams s = None.

(** The calls written down by the listeners. *)
Definition Log : Type := list (nat * option nat * list JSValue).

(** Listeners that write their call down; those of [stops] return
    [false], those of [halts] call [halt] on the signal, and none does
    anything else. *)
Definition scripted (stops halts : nat -> bool)
  : nat -> option nat -> list JSValue -> t * Log -> Outcome bool * (t * Log) :=
  fun listener context params sw =>
    (Done (stops listener),
     ((if halts listener then halt (fst sw) else fst sw),
      snd sw ++ [(listener, context, params)])).

(** Listeners that only write their call down. *)
Definition quiet
  : nat -> option nat -> list JSValue -> t * Log -> Outcome bool * (t * Log) :=
  scripted (fun _ => false) (fun _ => false).

(** The call a binding makes when it is executed with some parameters. *)
Definition call_of (paramsArr : list JSValue) (b : SignalBinding.t)
  : nat * option nat * list JSValue :=
  (SignalBinding._listener b, SignalBinding.context b,
   match SignalBinding.params b with
   | Some curried => curried ++ paramsArr
   | None => paramsArr
   end).

(** An active binding whose listener stops the dispatch. *)
Definition stopper (stops halts : nat -> bool) (b : SignalBinding.t) : bool :=
  SignalBinding.active b
  && (stops (SignalBinding._listener b) || halts (SignalBinding._listener b)).

(** The bindings of a list up to the first that stops the dispatch, that
    one included. *)
Fixpoint until_stopped (stops halts : nat -> bool)
  (bindings : list SignalBinding.t) : list SignalBinding.t :=
  match bindings with
  | [] => []
  | b :: rest =>
      if stopper stops halts b then [b]
      else b :: until_stopped stops halts rest
  end.

(** A binding that executing leaves in place: not both active and once. *)
Definition stays (b : SignalBinding.t) : bool :=
  negb (SignalBinding.active b && SignalBinding._isOnce b).

(** The signal after an active binding has called its listener. *)
Definition after_call (halts : nat -> bool) (s : t) (b : SignalBinding.t)
  (left : list SignalBinding.t) : t :=
  let s1 := if halts (SignalBinding._listener b) then halt s else s in
  if SignalBinding._isOnce b
  then mk left (_prevParams s1) (memorize s1) (_shouldPropagate s1)
          (active s1) (allocated s1)
  else s1.

(** A signal with three bindings, the last of them once. *)
Definition sample_signal : t :=
  mk [ SignalBinding.mk 0 7 false None 0 true None;
       SignalBinding.mk 2 9 false (Some 1%nat) 5 false None;
       SignalBinding.mk 1 8 true None 5 true (Some [JNum 1]) ]
     None false true true 3.

End Signal.

(* ================================================================== *)
(** * Notions used to state further properties *)
(* ================================================================== *)

Module Notions.

(** The checksum of a payload: the sum of its code units modulo 256. *)
Definition checksum (payload : jsstring) : Z :=
  (fold_left Z.add payload 0) mod 256.

(** A code unit [getCharacterCodePoint] refuses. *)
Definition refused (c : Z) : Prop := 0xD800 <= c <= 0xffff.

(** Two items that differ at most in the checksum bytes of a packet. *)
Definition same_payload (a b : Spec.Item) : Prop :=
  match a, b with
  | Spec.Noise x, Spec.Noise y => x = y
  | Spec.Packet p _ _, Spec.Packet q _ _ => p = q
  | _, _ => False
  end.

(** A byte. *)
Definition byte (b : Z) : Prop := 0 <= b < 256.

(** A value with the content of a dictionary or an array taken out. *)
Definition shallow (v : JSValue) : JSValue :=
  match v with
  | JArray _ | JObject _ => JObject []
  | _ => v
  end.

(** The names of a dictionary are all different. *)
Definition distinct_keys (props : list (jsstring * JSValue)) : Prop :=
  NoDup (map fst props).

(** A segment of 1 to 1024 bytes, which one read of [receiveAll] takes
    whole. *)
Definition one_read (arrived : Buffer) : Prop :=
  0 < len arrived <= WinSocketIO.BYTES_TO_READ.

(** What the XML branch of the streaming socket settles the future with:
    what [plist.parse] returns, or the empty dictionary when it throws. *)
Definition parsed_or_empty (r : Result JSValue) : JSValue :=
  match r with
  | Return parsed => parsed
  | Throw _ => JObject []
  end.

(** What the handler of ["data"] cannot do to the future: change one that
    is settled, or fail one. *)
Definition kept (before after : PosixSocket.Future) : Prop :=
  (PosixSocket.isResolved before = true -> after = before)
  /\ (Spec.not_thrown before -> Spec.not_thrown after).

(** A message that [sendMessage] frames: anything but a string. *)
Definition framed_message (data : JSValue) : Prop :=
  match data with
  | JStr _ => False
  | _ => True
  end.

End Notions.

(* ================================================================== *)
(** * Properties *)
(* ================================================================== *)

Import Spec.

(** ** Completion of a progress sequence *)

Section Completion.

Import MobileDevice.

Lemma get_prop_object props k :
  get_prop (JObject props) k = Return (field props k).
Proof. reflexivity. Qed.

Lemma isDataReceivingCompleted_object props :
  isDataReceivingCompleted (JObject props) =
  Return (js_and (js_and (field props (js "Status")) (field props (js "Complete")))
                 (js_not (field props (js "PercentComplete")))).
Proof.
  unfold isDataReceivingCompleted. rewrite !get_prop_object. cbn [bind].
  unfold js_and.
  destruct (truthy (field props (js "Status"))) eqn:Hs; [|now rewrite Hs].
  cbn [bind].
  destruct (truthy (field props (js "Complete"))) eqn:Hc; now rewrite ?Hc.
Qed.

(** C1, the claim as worded fails: a reply that holds a
    [PercentComplete] field equal to 0 is, by the wording, not complete,
    and [isDataReceivingCompleted] answers [true] on it. *)
Lemma isDataReceivingCompleted_zero_percent :
  complete_as_specified (progress_reply 0) = false
  /\ isDataReceivingCompleted (JObject (progress_reply 0)) = Return (JBool true).
Proof. split; reflexivity. Qed.

(** C1, amended: on every dictionary [isDataReceivingCompleted] returns,
    and it returns [true] exactly when [Status] is truthy, [Complete] is
    truthy and [PercentComplete] is falsy (absent, or 0, or empty); any
    other answer it gives is falsy.  The three replies of the
    specification come out as it says. *)
Theorem isDataReceivingCompleted_truthiness :
  (forall props,
      isDataReceivingCompleted (JObject props) = Return (JBool true)
      <-> (truthy (field props (js "Status")) = true
           /\ truthy (field props (js "Complete")) = true
           /\ truthy (field props (js "PercentComplete")) = false))
  /\ (forall props, exists r,
         isDataReceivingCompleted (JObject props) = Return r
         /\ (truthy r = true <-> r = JBool true))
  /\ isDataReceivingCompleted (JObject done_reply) = Return (JBool true)
  /\ isDataReceivingCompleted (JObject (progress_reply 50)) = Return (JBool false)
  /\ isDataReceivingCompleted (JObject statusless_reply) = Return JUndefined.
Proof.
  split; [|split; [|repeat split]].
  - intros props. rewrite isDataReceivingCompleted_object.
    unfold js_and, js_not.
    destruct (truthy (field props (js "Status"))) eqn:Hs; cbv beta iota;
      [destruct (truthy (field props (js "Complete"))) eqn:Hc; cbv beta iota|];
      rewrite ?Hs, ?Hc; cbv beta iota.
    + destruct (truthy (field props (js "PercentComplete"))); cbn;
        split; intros H; try (repeat split; reflexivity);
        try discriminate; try (destruct H as (_ & _ & H); discriminate).
    + split; intros H.
      * injection H as H. rewrite H in Hc. discriminate.
      * destruct H as (_ & H & _). discriminate.
    + split; intros H.
      * injection H as H. rewrite H in Hs. discriminate.
      * destruct H as (H & _). discriminate.
  - intros props. rewrite isDataReceivingCompleted_object.
    eexists. split; [reflexivity|].
    unfold js_and, js_not.
    destruct (truthy (field props (js "Status"))) eqn:Hs; cbv beta iota;
      [destruct (truthy (field props (js "Complete"))) eqn:Hc; cbv beta iota|];
      rewrite ?Hs, ?Hc; cbv beta iota.
    + destruct (truthy (field props (js "PercentComplete"))); cbn;
        split; intros H; try reflexivity; discriminate.
    + split; intros H; [discriminate|].
      rewrite H in Hc. discriminate.
    + split; intros H; [discriminate|].
      rewrite H in Hs. discriminate.
Qed.

End Completion.

(** ** Debug packets *)

Section DebugPackets.

Import GDB.

Lemma getCharacterCodePoint_acceptable c :
  acceptable c -> getCharacterCodePoint [c] = Return c.
Proof.
  unfold acceptable, getCharacterCodePoint. intros H.
  destruct (0xD800 <=? c) eqn:H1; destruct (c <=? 0xffff) eqn:H2; cbn;
    try reflexivity.
  apply Z.leb_le in H1, H2. lia.
Qed.

Lemma sum_loop_acceptable packet :
  Forall acceptable packet ->
  forall sum, sum_loop packet sum = Return (fold_left Z.add packet sum).
Proof.
  induction 1 as [|c rest Hc _ IH]; intros sum; cbn [sum_loop fold_left].
  - reflexivity.
  - rewrite (getCharacterCodePoint_acceptable c Hc). cbn [bind]. apply IH.
Qed.

Lemma send_acceptable packet s :
  Forall acceptable packet ->
  send packet s = (Return tt, mkSocket (written s ++ [framed packet]) (piped s)).
Proof.
  intros H. unfold send, mbind, lift, socket_write, framed.
  rewrite (sum_loop_acceptable packet H). reflexivity.
Qed.

(** C4: [send] prints the checksum with [sum.toString(16)], which does
    not pad.  The handshake for the argument list [["ls"]] sends the
    payload [A4,0,6c73], whose code units sum to 0 modulo 256: the packet
    written ends in the single digit [#0], not in [#00].  The checksum of
    [QStartNoAckMode] is 0xb0 and is printed with two digits. *)
Theorem send_checksum_is_not_padded :
  send (js "A4,0,6c73") fresh
    = (Return tt, mkSocket [js "$A4,0,6c73#0"] false)
  /\ nth_error (written (snd (run (mkConfig false true) [js "ls"] fresh))) 4
     = Some (js "$A4,0,6c73#0")
  /\ Z.land (fold_left Z.add (js "A4,0,6c73") 0) 255 = 0
  /\ send (js "QStartNoAckMode") fresh
     = (Return tt, mkSocket [js "$QStartNoAckMode#b0"] false)
  /\ (fold_left Z.add (js "QStartNoAckMode") 0) mod 256 = 0xb0.
Proof. repeat split; vm_compute; reflexivity. Qed.

(** What [sum.toString(16)] prints for a checksum: one digit below 16,
    two from 16 on. *)
Lemma checksum_digits sum :
  0 <= sum < 256 ->
  Number_toString 16 sum
  = if sum <? 16 then [digit_char sum] else hex_byte sum.
Proof.
  intros H.
  assert (Hall : forallb
                   (fun n => str_eqb (Number_toString 16 (Z.of_nat n))
                                     (if Z.of_nat n <? 16
                                      then [digit_char (Z.of_nat n)]
                                      else hex_byte (Z.of_nat n)))
                   (seq 0 256) = true) by (vm_compute; reflexivity).
  rewrite forallb_forall in Hall.
  specialize (Hall (Z.to_nat sum)).
  rewrite Z2Nat.id in Hall by lia.
  assert (Heq : forall a b, str_eqb a b = true -> a = b).
  { induction a as [|x a IH]; destruct b as [|y b]; cbn; try discriminate;
      [reflexivity|].
    intros E. apply andb_true_iff in E. destruct E as [E1 E2].
    apply Z.eqb_eq in E1. subst. f_equal. now apply IH. }
  apply Heq, Hall, in_seq. lia.
Qed.

Lemma write_loop_exits n packet :
  forall i,
    write_loop n packet i = ProcessExit 1
    <-> exists k, (i <= k < i + n)%nat /\ kill_at packet k = true.
Proof.
  induction n as [|n IH]; intros i; cbn [write_loop].
  - split; [discriminate | intros (k & Hk & _); lia].
  - destruct (kill_at packet i) eqn:Hi.
    + unfold kill_at in Hi. apply andb_true_iff in Hi. destruct Hi as [Hi H9].
      rewrite Hi, H9. split; [|reflexivity]. intros _. exists i. split; [lia|].
      unfold kill_at. now rewrite Hi, H9.
    + assert (Hnext : (if at_is packet i (chr "$")
                          && (at_is packet (i + 1) (chr "T")
                              || at_is packet (i + 1) (chr "S"))
                       then if at_is packet (i + 2) (chr "9")
                            then ProcessExit 1 else write_loop n packet (S i)
                       else write_loop n packet (S i))
                      = write_loop n packet (S i)).
      { unfold kill_at in Hi.
        destruct (at_is packet i (chr "$")
                  && (at_is packet (i + 1) (chr "T")
                      || at_is packet (i + 1) (chr "S"))); [|reflexivity].
        cbn [andb] in Hi. now rewrite Hi. }
      rewrite Hnext, IH. split; intros (k & Hk & Hkill).
      * exists k. split; [lia | exact Hkill].
      * exists k. split; [|exact Hkill].
        destruct (Nat.eq_dec k i) as [->|Hne]; [congruence | lia].
Qed.

(** [_write] leaves the process exactly when somewhere in the chunk [$]
    is followed by [T] or [S] and then, at once, by [9]. *)
Lemma write_exits packet :
  _write packet = ProcessExit 1 <-> exists k, kill_at packet k = true.
Proof.
  unfold _write. rewrite write_loop_exits. split; intros (k & H).
  - exists k. tauto.
  - exists k. split; [|exact H].
    unfold kill_at in H. apply andb_true_iff in H. destruct H as [_ H].
    unfold at_is, at_ in H.
    destruct (nth_error packet (k + 2)) eqn:E; [|discriminate].
    assert (k + 2 < List.length packet)%nat
      by (apply nth_error_Some; congruence).
    lia.
Qed.

(** C5: [_write] compares [packet[i + 2]], the byte next to [T] or [S],
    with [9].  On a chunk holding the stop reply [$T09...], where [9] is
    the third byte of the payload, it calls back without leaving the
    process; it leaves the process on [$T9...]; it does neither on
    [$T05...]. *)
Theorem signal_watcher_reads_second_payload_byte :
  kill_as_specified (js "$T09thread:1;#a6") = true
  /\ _write (js "$T09thread:1;#a6") = Callback None
  /\ kill_as_specified (js "$T91thread:1;#a7") = false
  /\ _write (js "$T91thread:1;#a7") = ProcessExit 1
  /\ kill_as_specified (js "$T05thread:1;#a2") = false
  /\ _write (js "$T05thread:1;#a2") = Callback None.
Proof. repeat split; vm_compute; reflexivity. Qed.

End DebugPackets.

(** ** The launch handshake *)

Section Handshake.

Import GDB.

Lemma ascii_string_check s :
  forallb (fun c => (0 <=? c) && (c <? 128)) s = true -> ascii_string s.
Proof.
  intros H. apply Forall_forall. intros c Hc.
  rewrite forallb_forall in H. specialize (H c Hc).
  apply andb_true_iff in H. destruct H as [H1 H2].
  apply Z.leb_le in H1. apply Z.ltb_lt in H2. lia.
Qed.

Lemma ascii_string_acceptable s : ascii_string s -> Forall acceptable s.
Proof.
  apply Forall_impl. intros c Hc. unfold acceptable. lia.
Qed.

Lemma ascii_string_app a b :
  ascii_string a -> ascii_string b -> ascii_string (a ++ b).
Proof. intros Ha Hb. apply Forall_app. now split. Qed.

Lemma digit_char_ascii d : 0 <= d < 36 -> 0 <= digit_char d < 128.
Proof.
  intros H. unfold digit_char.
  change (chr "0") with 48. change (chr "a") with 97.
  destruct (d <? 10) eqn:E; [apply Z.ltb_lt in E | apply Z.ltb_ge in E]; lia.
Qed.

Lemma digits_ascii fuel radix :
  0 < radix <= 36 ->
  forall n acc, ascii_string acc -> ascii_string (digits fuel radix n acc).
Proof.
  intros Hr. induction fuel as [|fuel IH]; intros n acc Hacc; cbn [digits].
  - exact Hacc.
  - assert (Hd : ascii_string (digit_char (n mod radix) :: acc)).
    { constructor; [|exact Hacc]. apply digit_char_ascii.
      pose proof (Z.mod_pos_bound n radix). lia. }
    destruct (n / radix =? 0); [exact Hd | apply IH, Hd].
Qed.

Lemma Number_toString_ascii radix n :
  0 < radix <= 36 -> ascii_string (Number_toString radix n).
Proof.
  intros Hr. unfold Number_toString. destruct (n <? 0).
  - constructor; [change (chr "-") with 45; lia|].
    apply digits_ascii; [exact Hr | constructor].
  - apply digits_ascii; [exact Hr | constructor].
Qed.

Lemma Buffer_toString_hex_ascii buf : ascii_string (Buffer_toString_hex buf).
Proof.
  unfold Buffer_toString_hex. induction buf as [|b rest IH]; cbn [flat_map].
  - constructor.
  - apply ascii_string_app; [|exact IH]. unfold hex_byte.
    repeat constructor; apply digit_char_ascii.
    + pose proof (Z.mod_pos_bound (b / 16) 16). lia.
    + pose proof (Z.mod_pos_bound (b / 16) 16). lia.
    + pose proof (Z.mod_pos_bound b 16). lia.
    + pose proof (Z.mod_pos_bound b 16). lia.
Qed.

Lemma triple_ascii arg i : ascii_string (triple arg i).
Proof.
  unfold triple.
  repeat apply ascii_string_app;
    try (apply Number_toString_ascii; lia);
    try apply Buffer_toString_hex_ascii;
    apply ascii_string_check; reflexivity.
Qed.

Lemma join_ascii sep items :
  ascii_string sep -> Forall ascii_string items -> ascii_string (join sep items).
Proof.
  intros Hsep. induction 1 as [|x rest Hx Hrest IH]; cbn [join].
  - constructor.
  - destruct rest as [|y rest']; [exact Hx|].
    apply ascii_string_app; [exact Hx|].
    apply ascii_string_app; [exact Hsep | exact IH].
Qed.

Lemma mapi_triple_ascii argv i : Forall ascii_string (mapi triple argv i).
Proof.
  revert i. induction argv as [|arg rest IH]; intros i; cbn [mapi].
  - constructor.
  - constructor; [apply triple_ascii | apply IH].
Qed.

Lemma Buffer_from_string_ascii s : ascii_string s -> Buffer_from_string s = s.
Proof.
  induction 1 as [|c rest Hc _ IH]; cbn [Buffer_from_string]; [reflexivity|].
  unfold is_high_surrogate, is_low_surrogate, utf8_of_code_point.
  replace (0xD800 <=? c) with false by (symmetry; apply Z.leb_gt; lia).
  replace (0xDC00 <=? c) with false by (symmetry; apply Z.leb_gt; lia).
  replace (c <? 0x80) with true by (symmetry; apply Z.ltb_lt; lia).
  cbn. now rewrite IH.
Qed.

Lemma encode_argument_ascii arg i :
  ascii_string arg -> encode_argument arg i = triple arg i.
Proof.
  intros H. unfold encode_argument, triple.
  rewrite (Buffer_from_string_ascii arg H).
  now rewrite (Z.mul_comm (len arg) 2).
Qed.

Lemma encodedArguments_ascii argv :
  Forall ascii_string argv ->
  encodedArguments argv = join (js ",") (mapi triple argv 0).
Proof.
  unfold encodedArguments. intros H. f_equal.
  generalize 0. induction H as [|arg rest Harg _ IH]; intros i; cbn [mapi].
  - reflexivity.
  - now rewrite (encode_argument_ascii arg i Harg), IH.
Qed.

Lemma literal_acceptable s :
  forallb (fun c => (0 <=? c) && (c <? 128)) s = true -> Forall acceptable s.
Proof. intros H. apply ascii_string_acceptable, ascii_string_check, H. Qed.

(** What [run] writes when every packet it sends is acceptable. *)
Lemma run_writes cfg argv :
  Forall acceptable (js "A" ++ encodedArguments argv) ->
  run cfg argv fresh
  = (Return tt,
     mkSocket
       ([framed (js "QStartNoAckMode"); js "+";
         framed (js "QEnvironmentHexEncoded:");
         framed (js "QSetDisableASLR:1");
         framed (js "A" ++ encodedArguments argv);
         framed (js "qLaunchSuccess")]
        ++ [framed (if isWindows cfg then js "vCont;c"
                    else if justlaunch cfg then js "D" else js "vCont;c")])
       (negb (isWindows cfg) && negb (justlaunch cfg))).
Proof.
  intros HA. unfold run, mbind.
  rewrite (send_acceptable (js "QStartNoAckMode")) by (now apply literal_acceptable).
  unfold socket_write at 1. cbn [written piped fresh app].
  rewrite (send_acceptable (js "QEnvironmentHexEncoded:")) by (now apply literal_acceptable).
  rewrite (send_acceptable (js "QSetDisableASLR:1")) by (now apply literal_acceptable).
  rewrite (send_acceptable _ _ HA).
  rewrite (send_acceptable (js "qLaunchSuccess")) by (now apply literal_acceptable).
  cbn [written piped app].
  destruct (isWindows cfg); [|destruct (justlaunch cfg)]; cbn [negb andb].
  - rewrite (send_acceptable (js "vCont;c")) by (now apply literal_acceptable).
    reflexivity.
  - rewrite (send_acceptable (js "D")) by (now apply literal_acceptable).
    reflexivity.
  - unfold socket_pipe. cbn [written piped].
    rewrite (send_acceptable (js "vCont;c")) by (now apply literal_acceptable).
    reflexivity.
Qed.

(** C6, the claim as worded fails: on a Windows host configured
    launch-only, [run] ends with [vCont;c], where the wording has [D]. *)
Lemma run_on_windows_never_detaches :
  run (mkConfig true true) [] fresh
    = (Return tt, mkSocket (handshake (mkConfig true true) []) false)
  /\ last (handshake (mkConfig true true) []) [] = framed (js "vCont;c")
  /\ last (handshake_as_specified true []) [] = framed (js "D")
  /\ handshake (mkConfig true true) [] <> handshake_as_specified true [].
Proof.
  repeat split; try (vm_compute; reflexivity).
  vm_compute. discriminate.
Qed.

(** C6, amended: for every list of ASCII arguments [run] completes and
    writes, in this order and nothing else, the packets
    [QStartNoAckMode], the bare [+], [QEnvironmentHexEncoded:],
    [QSetDisableASLR:1], [A] with the triples [2L,i,H] joined by commas,
    [qLaunchSuccess], and last [vCont;c] on a Windows host, else [D] when
    launch-only and [vCont;c] otherwise; the two consumers are attached
    exactly when the process is resumed on a host other than Windows. *)
Theorem run_handshake cfg argv :
  Forall ascii_string argv ->
  run cfg argv fresh
  = (Return tt,
     mkSocket (handshake cfg argv) (negb (isWindows cfg) && negb (justlaunch cfg))).
Proof.
  intros Hargv. rewrite run_writes.
  - unfold handshake, handshake_prefix.
    now rewrite (encodedArguments_ascii argv Hargv).
  - rewrite (encodedArguments_ascii argv Hargv).
    apply ascii_string_acceptable, ascii_string_app.
    + now apply ascii_string_check.
    + apply join_ascii; [now apply ascii_string_check | apply mapi_triple_ascii].
Qed.

(** The handshake for the two arguments [app] and [-x], launch-only, on a
    host other than Windows. *)
Lemma run_handshake_witness :
  run (mkConfig false true) [js "app"; js "-x"] fresh
  = (Return tt,
     mkSocket [js "$QStartNoAckMode#b0"; js "+";
               js "$QEnvironmentHexEncoded:#f7"; js "$QSetDisableASLR:1#ce";
               js "$A6,0,617070,4,1,2d78#22"; js "$qLaunchSuccess#a5";
               js "$D#44"] false).
Proof.
  refine (eq_trans (run_handshake (mkConfig false true) [js "app"; js "-x"] _) _).
  - repeat constructor; vm_compute; intuition discriminate.
  - vm_compute. reflexivity.
Defined.

End Handshake.

(** ** The output adapter *)

Section OutputAdapter.

Import GDB.
Local Open Scope nat_scope.

Lemma at_is_app_r (pre suf : Buffer) k c :
  at_is (pre ++ suf) (List.length pre + k) c = at_is suf k c.
Proof.
  unfold at_is, at_. rewrite nth_error_app2 by lia.
  now replace (List.length pre + k - List.length pre) with k by lia.
Qed.

Lemma at_is_app_l (pre suf : Buffer) k c :
  k < List.length pre -> at_is (pre ++ suf) k c = at_is pre k c.
Proof. intros H. unfold at_is, at_. now rewrite nth_error_app1. Qed.

Lemma at_is_here (pre suf : Buffer) x c :
  at_is (pre ++ x :: suf) (List.length pre) c = (x =? c)%Z.
Proof.
  rewrite <- (Nat.add_0_r (List.length pre)). now rewrite at_is_app_r.
Qed.

Lemma at_is_in (buf : Buffer) k c : at_is buf k c = true -> In c buf.
Proof.
  unfold at_is, at_. destruct (nth_error buf k) as [b|] eqn:E; [|discriminate].
  intros H. apply Z.eqb_eq in H. subst b. eapply nth_error_In, E.
Qed.

Lemma at_is_bound (buf : Buffer) k c : at_is buf k c = true -> k < List.length buf.
Proof.
  unfold at_is, at_. intros H. apply nth_error_Some.
  destruct (nth_error buf k); [discriminate | discriminate].
Qed.

(** Lists are made of pairs, with one element left over or none. *)
Lemma pair_induction {A} (P : list A -> Prop) :
  P [] -> (forall a, P [a]) -> (forall a b l, P l -> P (a :: b :: l)) ->
  forall l, P l.
Proof.
  intros Hnil Hone Hpair l.
  assert (H : P l /\ forall a, P (a :: l)).
  { induction l as [|x l [IH1 IH2]]; [split; [exact Hnil | exact Hone]|].
    split; [apply IH2|]. intros a. apply Hpair. exact IH1. }
  apply H.
Qed.

(** A string that is pairs of digits and nothing else is read whole. *)
Lemma hex_pairs_from_hex s :
  forall bytes, hex_pairs s = Some bytes -> Buffer_from_hex s = Return bytes.
Proof.
  unfold Buffer_from_hex.
  induction s as [| a | a b rest IH] using pair_induction; intros bytes H.
  - injection H as <-. reflexivity.
  - discriminate H.
  - cbn [hex_pairs] in H. cbn [List.length hex_prefix].
    change (Nat.odd (S (S (List.length rest)))) with (Nat.odd (List.length rest)).
    destruct (hex_val a) as [x|]; [|discriminate].
    destruct (hex_val b) as [y|]; [|discriminate].
    destruct (hex_pairs rest) as [r|]; [|discriminate].
    injection H as <-. specialize (IH r eq_refl).
    destruct (Nat.odd (List.length rest)); [discriminate|].
    injection IH as ->. reflexivity.
Qed.

(** The inner loop stops at the first [#] at or after [i]. *)
Lemma scan_hash_first fuel packet e :
  at_is packet e (chr "#") = true ->
  forall i,
    i <= e -> e - i < fuel ->
    (forall k, i <= k < e -> at_is packet k (chr "#") = false) ->
    scan_hash fuel packet i = Some e.
Proof.
  intros He. induction fuel as [|fuel IH]; intros i Hi Hf Hno; [lia|].
  cbn [scan_hash]. destruct (Nat.eq_dec i e) as [->|Hne].
  - now rewrite He.
  - rewrite (Hno i) by lia. apply IH; [lia | lia |].
    intros k Hk. apply Hno. lia.
Qed.

Lemma scan_hash_sound fuel packet :
  forall i e, scan_hash fuel packet i = Some e ->
    i <= e /\ at_is packet e (chr "#") = true.
Proof.
  induction fuel as [|fuel IH]; intros i e H; [discriminate|].
  cbn [scan_hash] in H. destruct (at_is packet i (chr "#")) eqn:E.
  - injection H as <-. split; [lia | exact E].
  - apply IH in H. split; [lia | tauto].
Qed.

(** Without a [#] at or after [i] the inner loop outlasts any fuel. *)
Lemma scan_hash_none fuel packet :
  forall i, (forall k, i <= k -> at_is packet k (chr "#") = false) ->
    scan_hash fuel packet i = None.
Proof.
  induction fuel as [|fuel IH]; intros i Hno; [reflexivity|].
  cbn [scan_hash]. rewrite (Hno i) by lia. apply IH.
  intros k Hk. apply Hno. lia.
Qed.

(** With a [#] at [j] the inner loop stops at or before [j]. *)
Lemma scan_hash_exists fuel packet j :
  at_is packet j (chr "#") = true ->
  forall i, i <= j -> j - i < fuel ->
    exists e, scan_hash fuel packet i = Some e /\ i <= e <= j.
Proof.
  intros Hj. induction fuel as [|fuel IH]; intros i Hi Hf; [lia|].
  cbn [scan_hash]. destruct (at_is packet i (chr "#")) eqn:E.
  - exists i. split; [reflexivity | lia].
  - destruct (Nat.eq_dec i j) as [->|Hne]; [congruence|].
    destruct (IH (S i)) as (e & He & Hb); [lia | lia |].
    exists e. split; [exact He | lia].
Qed.

Variable Decoder : Type.
Variable decoder_write : Decoder -> Buffer -> jsstring * Decoder.

Local Abbreviation loop := (transform_loop Decoder decoder_write).

(** Bytes that hold no [$] are stepped over one at a time. *)
Lemma loop_skips_noise bytes :
  ~ In (chr "$") bytes ->
  forall pre suf fuel d result,
    loop (List.length bytes + fuel) (pre ++ bytes ++ suf) (List.length pre) d result
    = loop fuel ((pre ++ bytes) ++ suf) (List.length (pre ++ bytes)) d result.
Proof.
  induction bytes as [|b rest IH]; intros Hno pre suf fuel d result.
  - cbn [List.length Nat.add app]. now rewrite app_nil_r.
  - cbn [List.length Nat.add transform_loop].
    replace (List.length pre <? List.length (pre ++ (b :: rest) ++ suf)) with true
      by (symmetry; apply Nat.ltb_lt; rewrite !length_app; cbn; lia).
    cbn [app]. rewrite at_is_here.
    replace (b =? chr "$")%Z with false
      by (symmetry; apply Z.eqb_neq; intros ->; apply Hno; now left).
    replace (pre ++ b :: rest ++ suf) with ((pre ++ [b]) ++ rest ++ suf)
      by (now rewrite <- app_assoc).
    replace (S (List.length pre)) with (List.length (pre ++ [b]))
      by (rewrite length_app; cbn; lia).
    rewrite IH by (intros H; apply Hno; now right).
    now rewrite <- !app_assoc.
Qed.

(** The test of [_transform] on a whole packet is [qualifies]. *)
Lemma qualifies_test (pre payload suf : Buffer) :
  at_is ((pre ++ payload) ++ chr "#" :: suf) (List.length pre) (chr "O")
  && negb (at_is ((pre ++ payload) ++ chr "#" :: suf) (List.length pre + 1) (chr "K"))
  = qualifies payload.
Proof.
  rewrite <- !app_assoc.
  destruct payload as [|o [|k rest]]; cbn [app qualifies].
  - now rewrite at_is_here.
  - rewrite at_is_here, at_is_app_r. cbn. now rewrite andb_true_r.
  - rewrite at_is_here, at_is_app_r. reflexivity.
Qed.

Lemma range_payload (pre suf : Buffer) o rest :
  range ((pre ++ o :: rest) ++ suf) (S (List.length pre))
        (List.length pre + S (List.length rest))
  = rest.
Proof.
  unfold range.
  replace ((pre ++ o :: rest) ++ suf) with ((pre ++ [o]) ++ rest ++ suf)
    by (now rewrite <- !app_assoc).
  replace (S (List.length pre)) with (List.length (pre ++ [o]) + 0)
    by (rewrite length_app; cbn; lia).
  rewrite skipn_app, skipn_all2 by lia.
  replace (List.length (pre ++ [o]) + 0 - List.length (pre ++ [o])) with 0 by lia.
  cbn [skipn app].
  replace (List.length pre + S (List.length rest) - (List.length (pre ++ [o]) + 0))
    with (List.length rest + 0) by (rewrite length_app; cbn; lia).
  rewrite firstn_app_2. cbn [firstn]. apply app_nil_r.
Qed.

(** The adapter on a chunk made of whole packets is [console]. *)
Lemma loop_console items :
  Forall well_formed items ->
  forall pre fuel d result,
    List.length (chunk_of items) < fuel ->
    loop fuel (pre ++ chunk_of items) (List.length pre) d result
    = Some (console Decoder decoder_write items d result).
Proof.
  induction 1 as [|it rest Hit _ IH]; intros pre fuel d result Hfuel.
  - destruct fuel as [|fuel]; [cbn in Hfuel; lia|].
    cbn [chunk_of flat_map transform_loop console]. rewrite app_nil_r.
    now rewrite Nat.ltb_irrefl.
  - destruct it as [bytes|payload c1 c2]; cbn [well_formed] in Hit.
    + change (chunk_of (Noise bytes :: rest)) with (bytes ++ chunk_of rest) in *.
      rewrite length_app in Hfuel.
      replace fuel with (List.length bytes + (fuel - List.length bytes)) by lia.
      rewrite loop_skips_noise by exact Hit.
      cbn [console]. apply IH. lia.
    + change (chunk_of (Packet payload c1 c2 :: rest))
        with ((chr "$" :: payload ++ [chr "#"; c1; c2]) ++ chunk_of rest) in *.
      rewrite length_app in Hfuel. cbn [List.length] in Hfuel.
      rewrite length_app in Hfuel. cbn [List.length] in Hfuel.
      destruct fuel as [|fuel]; [lia|].
      set (packet := pre ++ (chr "$" :: payload ++ [chr "#"; c1; c2]) ++ chunk_of rest).
      assert (Hshape : packet = ((pre ++ [chr "$"]) ++ payload)
                                ++ chr "#" :: c1 :: c2 :: chunk_of rest).
      { unfold packet. repeat (rewrite <- app_assoc; cbn [app]). reflexivity. }
      assert (Hstart : S (List.length pre) = List.length (pre ++ [chr "$"]))
        by (rewrite length_app; cbn; lia).
      cbn [transform_loop].
      replace (List.length pre <? List.length packet) with true
        by (symmetry; apply Nat.ltb_lt; unfold packet; rewrite !length_app; cbn; lia).
      replace (at_is packet (List.length pre) (chr "$")) with true
        by (unfold packet; cbn [app]; rewrite at_is_here; reflexivity).
      assert (Hscan : scan_hash fuel packet (S (List.length pre))
                      = Some (S (List.length pre) + List.length payload)).
      { apply scan_hash_first.
        - rewrite Hshape, Hstart, <- length_app. apply at_is_here.
        - lia.
        - lia.
        - intros k Hk. rewrite Hshape.
          replace k with (List.length (pre ++ [chr "$"])
                          + (k - List.length (pre ++ [chr "$"]))) by lia.
          rewrite <- app_assoc, at_is_app_r.
          rewrite at_is_app_l by lia.
          destruct (at_is payload _ (chr "#")) eqn:E; [|reflexivity].
          exfalso. apply Hit. eapply at_is_in, E. }
      rewrite Hscan.
      replace (at_is packet (S (List.length pre)) (chr "O")
               && negb (at_is packet (S (List.length pre) + 1) (chr "K")))
        with (qualifies payload)
        by (rewrite Hshape, Hstart; symmetry; apply qualifies_test).
      assert (Hnext : forall d' result',
                 loop fuel packet
                      (S (S (S (S (List.length pre) + List.length payload)))) d' result'
                 = Some (console Decoder decoder_write rest d' result')).
      { intros d' result'.
        replace packet
          with ((pre ++ chr "$" :: payload ++ [chr "#"; c1; c2]) ++ chunk_of rest)
          by (unfold packet; now rewrite <- app_assoc).
        replace (S (S (S (S (List.length pre) + List.length payload))))
          with (List.length (pre ++ chr "$" :: payload ++ [chr "#"; c1; c2]))
          by (rewrite length_app; cbn [List.length]; rewrite length_app; cbn; lia).
        apply IH. lia. }
      cbn [console]. destruct (qualifies payload) eqn:Hq; cbn [negb].
      * destruct payload as [|o payload']; [discriminate|].
        replace (toString_ascii packet (S (S (List.length pre)))
                                (S (List.length pre) + List.length (o :: payload')))
          with (map (fun b => Z.land b 127) payload').
        2:{ unfold toString_ascii. f_equal. rewrite Hshape, Hstart.
            cbn [List.length]. symmetry. apply range_payload. }
        cbn [tl].
        destruct (Buffer_from_hex (map (fun b => Z.land b 127) payload'));
          [|reflexivity].
        destruct (decoder_write d a) as [text d']. apply Hnext.
      * apply Hnext.
Qed.





Lemma at_is_unique (buf : Buffer) k c c' :
  at_is buf k c = true -> at_is buf k c' = true -> c = c'.
Proof.
  unfold at_is. destruct (at_ buf k); [|discriminate].
  intros H1 H2. apply Z.eqb_eq in H1, H2. congruence.
Qed.

(** When every [$] has a later [#], fuel for one turn per byte is enough. *)
Lemma loop_terminates packet :
  every_dollar_closed packet ->
  forall fuel i d result,
    List.length packet - i < fuel ->
    exists r, loop fuel packet i d result = Some r.
Proof.
  intros Hclosed. induction fuel as [|fuel IH]; intros i d result Hfuel; [lia|].
  cbn [transform_loop].
  destruct (i <? List.length packet) eqn:Hi; [|eexists; reflexivity].
  apply Nat.ltb_lt in Hi.
  destruct (at_is packet i (chr "$")) eqn:Hd; [|apply IH; lia].
  destruct (Hclosed i Hd) as (j & Hij & Hj).
  pose proof (at_is_bound packet j _ Hj) as Hjb.
  destruct (scan_hash_exists fuel packet j Hj (S i)) as (e & He & Heb);
    [lia | lia |].
  rewrite He.
  destruct (negb _); [apply IH; lia|].
  destruct (Buffer_from_hex _); [|eexists; reflexivity].
  destruct (decoder_write d a). apply IH. lia.
Qed.

(** A [$] that starts a packet and has no later [#] is never got past. *)
Lemma loop_never_completes packet p :
  at_is packet p (chr "$") = true ->
  ~ closed_at packet p ->
  not_in_checksum packet p ->
  forall fuel i d result text d',
    i <= p ->
    loop fuel packet i d result <> Some (DoneResult text, d').
Proof.
  intros Hp Hopen Hsum.
  pose proof (at_is_bound packet p _ Hp) as Hpb.
  induction fuel as [|fuel IH]; intros i d result text d' Hi; [discriminate|].
  cbn [transform_loop].
  replace (i <? List.length packet) with true by (symmetry; apply Nat.ltb_lt; lia).
  destruct (at_is packet i (chr "$")) eqn:Hd.
  - destruct (scan_hash fuel packet (S i)) as [e|] eqn:He; [|discriminate].
    apply scan_hash_sound in He. destruct He as [Hie He].
    assert (Hlt : e < p).
    { destruct (Nat.lt_trichotomy e p) as [H|[H|H]]; [exact H| |].
      - subst e. pose proof (at_is_unique packet p _ _ Hp He). discriminate.
      - exfalso. apply Hopen. exists e. split; [lia | exact He]. }
    destruct (Hsum e He) as [H1 H2].
    destruct (negb _); [apply IH; lia|].
    destruct (Buffer_from_hex _); [|discriminate].
    destruct (decoder_write d a). apply IH. lia.
  - apply IH. destruct (Nat.eq_dec i p) as [->|Hne]; [congruence | lia].
Qed.

(** C10, amended: the scan of a chunk ends whenever every [$] of the
    chunk has a [#] after it; and when some [$] has no [#] after it and is
    not one of the two bytes following a [#] (which the scan skips as a
    checksum), the scan never completes with a result, whatever the fuel:
    the inner loop runs on for ever, unless decoding an earlier payload
    threw first. *)
Theorem adapter_scan_termination packet :
  (every_dollar_closed packet ->
   forall d fuel, List.length packet < fuel ->
     exists r, _transform Decoder decoder_write fuel packet d = Some r)
  /\ (forall p,
         at_is packet p (chr "$") = true ->
         ~ closed_at packet p ->
         not_in_checksum packet p ->
         forall fuel d text d',
           _transform Decoder decoder_write fuel packet d
           <> Some (DoneResult text, d')).
Proof.
  split.
  - intros Hclosed d fuel Hfuel. unfold _transform.
    apply loop_terminates; [exact Hclosed | lia].
  - intros p Hp Hopen Hsum fuel d text d'. unfold _transform.
    apply (loop_never_completes packet p Hp Hopen Hsum). lia.
Qed.

(** When the first [$] of a chunk has no [#] after it, the inner loop
    outlasts any fuel. *)
Lemma loop_diverges_at_first_dollar packet p :
  at_is packet p (chr "$") = true ->
  ~ closed_at packet p ->
  (forall k, k < p -> at_is packet k (chr "$") = false) ->
  forall fuel i d result, i <= p -> loop fuel packet i d result = None.
Proof.
  intros Hp Hopen Hfirst.
  pose proof (at_is_bound packet p _ Hp) as Hpb.
  induction fuel as [|fuel IH]; intros i d result Hi; [reflexivity|].
  cbn [transform_loop].
  replace (i <? List.length packet) with true by (symmetry; apply Nat.ltb_lt; lia).
  destruct (Nat.eq_dec i p) as [->|Hne].
  - rewrite Hp. rewrite scan_hash_none; [reflexivity|].
    intros k Hk. destruct (at_is packet k (chr "#")) eqn:E; [|reflexivity].
    exfalso. apply Hopen. exists k. split; [lia | exact E].
  - rewrite Hfirst by lia. apply IH. lia.
Qed.

End OutputAdapter.


Section OutputAdapterExamples.

Import GDB.
Local Open Scope nat_scope.



(** The same two packets in two chunks: nothing for the first, [hello]
    for the second. *)
Lemma adapter_hello_in_two_chunks :
  _transform StringDecoder.Decoder StringDecoder.write 10
             (js "$OK#cc") StringDecoder.create
  = Some (DoneResult [], StringDecoder.create)
  /\ _transform StringDecoder.Decoder StringDecoder.write 20
                (js "$O68656c6c6f#cc") StringDecoder.create
     = Some (DoneResult (js "hello"), StringDecoder.create).
Proof. split; vm_compute; reflexivity. Qed.

(** The two bytes of U+00E9 in two packets: the first packet yields no
    text and leaves the decoder holding the byte 0xc3, the second yields
    the character. *)
Lemma adapter_code_point_across_packets :
  _transform StringDecoder.Decoder StringDecoder.write 10
             (js "$Oc3#00") StringDecoder.create
  = Some (DoneResult [], [195%Z])
  /\ _transform StringDecoder.Decoder StringDecoder.write 10
                (js "$Oa9#00") [195%Z]
     = Some (DoneResult [233%Z], StringDecoder.create).
Proof. split; vm_compute; reflexivity. Qed.

(** C10, the claim as worded fails: in the chunk [$a#$b] the second [$]
    has no [#] after it, and the scan ends all the same, because that [$]
    is skipped as a checksum byte. *)
Lemma adapter_scan_skips_dollar_in_checksum :
  at_is (js "$a#$b") 3 (chr "$") = true
  /\ ~ closed_at (js "$a#$b") 3
  /\ ~ every_dollar_closed (js "$a#$b")
  /\ _transform StringDecoder.Decoder StringDecoder.write 6
                (js "$a#$b") StringDecoder.create
     = Some (DoneResult [], StringDecoder.create).
Proof.
  assert (Hopen : ~ closed_at (js "$a#$b") 3).
  { intros (j & Hj & H). pose proof (at_is_bound _ _ _ H) as Hb. cbn in Hb.
    assert (j = 4) by lia. subst j. discriminate H. }
  repeat split.
  - exact Hopen.
  - intros H. apply Hopen. apply H. reflexivity.
Qed.

(** Where the decoder of hexadecimal strings refuses a string of odd
    length, a payload with an odd number of characters after its [O] ends
    the scan with that error, also when a [$] without a [#] comes after
    it. *)
Lemma adapter_scan_ended_by_exception :
  _transform StringDecoder.Decoder StringDecoder.write 9
             (js "$Oz#00$x") StringDecoder.create
  = Some (DoneError (TypeError (js "Invalid hex string")), StringDecoder.create).
Proof. vm_compute. reflexivity. Qed.

(** The scan of [$OK#cc] ends; the scan of [$O68], a packet cut off by
    the end of the chunk, does not complete. *)
Lemma adapter_scan_termination_witness :
  (exists r, _transform StringDecoder.Decoder StringDecoder.write 7
                        (js "$OK#cc") StringDecoder.create = Some r)
  /\ _transform StringDecoder.Decoder StringDecoder.write 1000
                (js "$O68") StringDecoder.create
     <> Some (DoneResult [], StringDecoder.create).
Proof.
  split.
  - apply (proj1 (adapter_scan_termination
                    StringDecoder.Decoder StringDecoder.write (js "$OK#cc"))).
    + intros i Hi. pose proof (at_is_bound _ _ _ Hi) as Hb. cbn in Hb.
      exists 3. split; [|reflexivity].
      destruct i as [|[|[|[|[|[|i]]]]]]; try discriminate Hi; lia.
    + cbn. lia.
  - apply (proj2 (adapter_scan_termination
                    StringDecoder.Decoder StringDecoder.write (js "$O68")) 0).
    + reflexivity.
    + intros (j & Hj & H). pose proof (at_is_bound _ _ _ H) as Hb. cbn in Hb.
      destruct j as [|[|[|[|j]]]]; try discriminate H; lia.
    + intros j H. pose proof (at_is_bound _ _ _ H) as Hb. cbn in Hb.
      destruct j as [|[|[|[|j]]]]; try discriminate H; lia.
Defined.

End OutputAdapterExamples.

(** ** Big-endian lengths *)

Section Lengths.

Lemma land_255 n : Z.land n 255 = n mod 256.
Proof. change 255 with (Z.ones 8). now rewrite Z.land_ones by lia. Qed.

Lemma int32be_pack n rest :
  0 <= n < 2147483648 ->
  readInt32BE (pack_i32be n ++ rest) = Return n.
Proof.
  intros Hn. unfold pack_i32be. cbn [app readInt32BE]. f_equal.
  unfold int32be. rewrite !land_255, !Z.shiftr_div_pow2 by lia.
  change (2 ^ 24) with 16777216. change (2 ^ 16) with 65536.
  change (2 ^ 8) with 256.
  match goal with |- (if ?c then _ else _) = _ => destruct c eqn:E end;
    [apply Z.leb_le in E | apply Z.leb_gt in E];
    Z.div_mod_to_equations; lia.
Qed.

Lemma pack_i32be_length n : List.length (pack_i32be n) = 4%nat.
Proof. reflexivity. Qed.

Lemma len_app {A} (a b : list A) : len (a ++ b) = len a + len b.
Proof. unfold len. rewrite length_app. lia. Qed.

Lemma len_nonneg {A} (a : list A) : 0 <= len a.
Proof. unfold len. lia. Qed.

End Lengths.

(** ** The synchronous socket *)

Section Synchronous.

Import WinSocket.

Variable uninitialised : nat -> Z.
Variable Buffer_toString : Buffer -> jsstring.
Variable plist_parse : jsstring -> Result JSValue.
Variable plistlib_toString : JSValue -> jsstring.
Variable base64 : Buffer -> jsstring.

Lemma read_closed bytes :
  bytes <= kMaxLength -> read uninitialised [] bytes = (Return None, []).
Proof.
  intros H. unfold read.
  replace (kMaxLength <? bytes) with false by (symmetry; apply Z.ltb_ge; lia).
  reflexivity.
Qed.

(** A read that finds exactly the bytes it asks for. *)
Lemma read_whole arrived rest bytes :
  len arrived = bytes -> 0 < bytes <= kMaxLength ->
  read uninitialised (Data arrived :: rest) bytes
  = (Return (Some arrived), rest).
Proof.
  intros <- H. unfold read, recv.
  replace (kMaxLength <? len arrived) with false by (symmetry; apply Z.ltb_ge; lia).
  rewrite Z.leb_refl.
  replace (len arrived <? 0) with false by (symmetry; apply Z.ltb_ge; lia).
  replace (len arrived =? 0) with false by (symmetry; apply Z.eqb_neq; lia).
  unfold len. rewrite Nat2Z.id, Nat.sub_diag. cbn [seq map].
  now rewrite app_nil_r.
Qed.

(** A read that finds more than it asks for takes the front. *)
Lemma read_front front back rest bytes :
  len front = bytes -> 0 < bytes <= kMaxLength -> back <> [] ->
  read uninitialised (Data (front ++ back) :: rest) bytes
  = (Return (Some front), Data back :: rest).
Proof.
  intros <- H Hback. unfold read, recv.
  replace (kMaxLength <? len front) with false by (symmetry; apply Z.ltb_ge; lia).
  replace (len (front ++ back) <=? len front) with false.
  2:{ symmetry. apply Z.leb_gt. rewrite len_app.
      destruct back; [congruence|]. unfold len. cbn [List.length]. lia. }
  replace (len front <? 0) with false by (symmetry; apply Z.ltb_ge; lia).
  replace (len front =? 0) with false by (symmetry; apply Z.eqb_neq; lia).
  unfold len. rewrite Nat2Z.id.
  rewrite firstn_app, firstn_all, Nat.sub_diag. cbn [firstn].
  rewrite app_nil_r, Nat.sub_diag. cbn [seq map]. rewrite app_nil_r.
  rewrite skipn_app, skipn_all, Nat.sub_diag. reflexivity.
Qed.

(** C9, the claim as worded fails: when the very first read finds the
    stream closed, [receiveMessageCore] returns the empty reply; it does
    not fail. *)
Lemma receiveMessageCore_closed_at_once :
  receiveMessageCore (fun _ => 0) (fun b => b) 0 []
  = Some (Return [], []).
Proof. reflexivity. Qed.

(** C9, amended: [receiveMessageCore] reads four bytes for the length and
    then the number of bytes they declare.  When the first read finds the
    stream closed it returns the empty reply.  When the length has been
    read and the next read finds the stream closed, it fails with
    [Unable to read reply].  When each read finds all the bytes it asks
    for, whether the message arrived in one piece or as length and
    payload, it returns the payload as a string.  (What happens when a
    read finds fewer bytes than it asks for is left open.) *)
Theorem receiveMessageCore_reads_one_message :
  (forall fuel, receiveMessageCore uninitialised Buffer_toString fuel []
                = Some (Return [], []))
  /\ (forall fuel l,
         0 < l <= kMaxLength ->
         receiveMessageCore uninitialised Buffer_toString (S fuel)
                            [Data (pack_i32be l)]
         = Some (Throw (Failure (js "Unable to read reply")), []))
  /\ (forall fuel payload rest,
         0 < len payload <= kMaxLength ->
         receiveMessageCore uninitialised Buffer_toString (S fuel)
                            (Data (pack_i32be (len payload)) :: Data payload :: rest)
         = Some (Return (Buffer_toString payload), rest)
         /\ receiveMessageCore uninitialised Buffer_toString (S fuel)
                               (Data (pack_i32be (len payload) ++ payload) :: rest)
            = Some (Return (Buffer_toString payload), rest)).
Proof.
  assert (Hfour : forall n, len (pack_i32be n) = 4) by reflexivity.
  assert (Hk : 0 < 4 <= kMaxLength) by (unfold kMaxLength; lia).
  assert (Hlen : forall n, 0 < n <= kMaxLength ->
                 readInt32BE (pack_i32be n) = Return n).
  { intros n Hn. rewrite <- (app_nil_r (pack_i32be n)).
    apply int32be_pack. unfold kMaxLength in Hn. lia. }
  split; [|split].
  - intros fuel. reflexivity.
  - intros fuel l Hl. unfold receiveMessageCore.
    rewrite (read_whole _ _ 4 (Hfour l) Hk).
    rewrite Hfour. cbn [Z.eqb Pos.eqb]. rewrite (Hlen l Hl).
    cbn [read_reply].
    replace (0 <? l) with true by (symmetry; apply Z.ltb_lt; lia).
    rewrite read_closed by lia. reflexivity.
  - intros fuel payload rest Hp. split.
    + unfold receiveMessageCore.
      rewrite (read_whole _ _ 4 (Hfour _) Hk).
      rewrite Hfour. cbn [Z.eqb Pos.eqb]. rewrite (Hlen _ Hp).
      cbn [read_reply].
      replace (0 <? len payload) with true by (symmetry; apply Z.ltb_lt; lia).
      rewrite (read_whole _ _ _ eq_refl Hp).
      rewrite Z.sub_diag. destruct fuel; reflexivity.
    + unfold receiveMessageCore.
      rewrite (read_front _ payload _ 4 (Hfour _) Hk)
        by (intros ->; unfold len in Hp; cbn in Hp; lia).
      rewrite Hfour. cbn [Z.eqb Pos.eqb]. rewrite (Hlen _ Hp).
      cbn [read_reply].
      replace (0 <? len payload) with true by (symmetry; apply Z.ltb_lt; lia).
      rewrite (read_whole _ _ _ eq_refl Hp).
      rewrite Z.sub_diag. destruct fuel; reflexivity.
Qed.

(** C3: [createPlist] writes an empty dictionary for every value that is
    a dictionary, so a dictionary that holds one is sent as if the inner
    one were empty, and the two come back alike whatever the plist
    packages do; and [receiveMessage] returns [null] for every format
    other than XML, so nothing sent in the binary format comes back. *)
Theorem roundtrip_loses_nested_and_binary :
  createPlist base64 nested_message = createPlist base64 emptied_message
  /\ (forall fuel,
         roundtrip uninitialised Buffer_toString plist_parse plistlib_toString
                   base64 kCFPropertyListXMLFormat_v1_0 fuel nested_message
         = roundtrip uninitialised Buffer_toString plist_parse plistlib_toString
                     base64 kCFPropertyListXMLFormat_v1_0 fuel emptied_message)
  /\ (forall fuel data,
         match roundtrip uninitialised Buffer_toString plist_parse
                         plistlib_toString base64
                         kCFPropertyListBinaryFormat_v1_0 fuel data with
         | Some (Return v, _) => v = JNull
         | _ => True
         end).
Proof.
  split; [reflexivity | split].
  - intros fuel. reflexivity.
  - intros fuel data. unfold roundtrip, receiveMessage.
    destruct (receiveMessageCore _ _ _ _) as [[[message|e] wire]|]; exact I || reflexivity.
Qed.

End Synchronous.

(** ** The streaming socket *)

Section SliceFacts.

Lemma slice_from_skipn (b : Buffer) n :
  0 <= n <= len b -> slice_from b n = skipn (Z.to_nat n) b.
Proof.
  intros H. unfold slice_from, slice, clamp.
  replace (n <? 0) with false by (symmetry; apply Z.ltb_ge; lia).
  replace (len b <? 0) with false by (symmetry; apply Z.ltb_ge; lia).
  rewrite Z.min_id, (Z.min_l n (len b)) by lia.
  destruct (len b <=? n) eqn:E.
  - apply Z.leb_le in E. symmetry. apply skipn_all2. unfold len in *. lia.
  - apply firstn_all2. rewrite length_skipn. unfold len in *. lia.
Qed.

Lemma slice_firstn (b : Buffer) n :
  0 <= n <= len b -> slice b 0 n = firstn (Z.to_nat n) b.
Proof.
  intros H. unfold slice, clamp.
  replace (n <? 0) with false by (symmetry; apply Z.ltb_ge; lia).
  cbn [Z.ltb Z.compare]. rewrite (Z.min_l 0 (len b)), (Z.min_l n (len b)) by lia.
  destruct (n <=? 0) eqn:E.
  - apply Z.leb_le in E. now replace n with 0 by lia.
  - now rewrite Z.sub_0_r.
Qed.

Lemma slice_length (b : Buffer) s e :
  (List.length (slice b s e) <= List.length b)%nat.
Proof.
  unfold slice. destruct (_ <=? _); [cbn; lia|].
  rewrite length_firstn, length_skipn. lia.
Qed.

Lemma app_split_front {A} (a b c d : list A) :
  a ++ b = c ++ d -> (List.length c <= List.length a)%nat ->
  firstn (List.length c) a = c /\ skipn (List.length c) a ++ b = d.
Proof.
  intros H Hlen. split.
  - assert (H1 : firstn (List.length c) (a ++ b) = firstn (List.length c) (c ++ d))
      by now rewrite H.
    rewrite firstn_app in H1.
    replace (List.length c - List.length a)%nat with 0%nat in H1 by lia.
    cbn [firstn] in H1. rewrite app_nil_r in H1. rewrite H1.
    rewrite firstn_app, Nat.sub_diag, firstn_all. cbn [firstn]. apply app_nil_r.
  - assert (H1 : skipn (List.length c) (a ++ b) = skipn (List.length c) (c ++ d))
      by now rewrite H.
    rewrite skipn_app in H1.
    replace (List.length c - List.length a)%nat with 0%nat in H1 by lia.
    cbn [skipn] in H1. rewrite H1.
    rewrite skipn_app, Nat.sub_diag, skipn_all. reflexivity.
Qed.

End SliceFacts.

Section Streaming.

Import PosixSocket.

Variable parseBuffer : Buffer -> Result JSValue.
Variable plist_parse : jsstring -> Result JSValue.
Variable Buffer_toString : Buffer -> jsstring.
Variable ToString : JSValue -> jsstring.

Local Abbreviation turn := (iteration parseBuffer ToString).
Local Abbreviation loop := (drain parseBuffer ToString).
Local Abbreviation binary := WinSocket.kCFPropertyListBinaryFormat_v1_0.
Local Abbreviation on_data := (onData parseBuffer plist_parse Buffer_toString ToString).
Local Abbreviation feed_all := (feed parseBuffer plist_parse Buffer_toString ToString).
Local Abbreviation one := (direct parseBuffer ToString).
Local Abbreviation follows := (tracks parseBuffer ToString).
Local Abbreviation outcome := (handled parseBuffer ToString).

(** Every turn of the loop brings it nearer its end. *)
Lemma turn_decreases w w' :
  turn w = Some (Return w') -> (turns w' < turns w)%nat.
Proof.
  unfold iteration. destruct (length w <=? len (buffer w)); [|discriminate].
  unfold turns. destruct (state w).
  - destruct (buffer w) as [|b0 [|b1 [|b2 [|b3 tail]]]] eqn:Hb;
      cbn [readInt32BE bind]; try discriminate.
    intros H. injection H as <-. cbn [state PosixSocket.buffer].
    rewrite slice_from_skipn by (unfold len; cbn [List.length]; lia).
    change (Z.to_nat 4) with 4%nat. cbn [skipn List.length]. lia.
  - destruct (receivePlist _ _ _ _ _) as [r l].
    intros H. injection H as <-. cbn [state PosixSocket.buffer].
    pose proof (slice_length (buffer w) (length w) (len (buffer w))).
    unfold slice_from. lia.
Qed.

(** The loop ends within [turns w] turns. *)
Lemma drain_total fuel :
  forall w, (turns w <= fuel)%nat -> exists w', loop fuel w = Some w'.
Proof.
  induction fuel as [|fuel IH]; intros w Hfuel.
  - cbn [drain]. destruct (turn w) as [[w'|e]|] eqn:E; try (eexists; reflexivity).
    apply turn_decreases in E. lia.
  - cbn [drain]. destruct (turn w) as [[w'|e]|] eqn:E; try (eexists; reflexivity).
    apply turn_decreases in E. apply IH. lia.
Qed.

Lemma stream_of_cons data todo :
  stream_of (data :: todo) = pack_i32be (len data) ++ data ++ stream_of todo.
Proof. unfold stream_of, frame. cbn [map List.concat]. now rewrite <- app_assoc. Qed.

Lemma handled_snoc past data :
  outcome (past ++ [data]) = one (outcome past) data.
Proof. unfold handled. now rewrite fold_left_app. Qed.

(** A turn of the loop keeps the socket in step with the frames. *)
Lemma turn_follows frames rest w r :
  Forall declarable frames ->
  follows w frames rest ->
  turn w = Some r ->
  exists w', r = Return w' /\ follows w' frames rest.
Proof.
  intros Hsmall (past & todo & Hframes & Hdone & Hpending) Hturn.
  unfold iteration in Hturn.
  destruct (length w <=? len (buffer w)) eqn:Hroom; [|discriminate].
  apply Z.leb_le in Hroom. injection Hturn as <-.
  unfold pending in Hpending. destruct (state w) eqn:Hstate.
  - destruct Hpending as [Hfour Hbytes]. rewrite Hfour in Hroom.
    destruct todo as [|data todo'].
    { cbn in Hbytes. apply app_eq_nil in Hbytes. destruct Hbytes as [Hb _].
      rewrite Hb in Hroom. cbn in Hroom. lia. }
    rewrite stream_of_cons in Hbytes.
    destruct (app_split_front _ _ _ _ Hbytes) as [Hfront Hback].
    { rewrite pack_i32be_length. unfold len in Hroom. lia. }
    rewrite pack_i32be_length in Hfront, Hback.
    assert (Hdata : declarable data).
    { rewrite Forall_forall in Hsmall. apply Hsmall. subst frames.
      apply in_or_app. right. now left. }
    assert (Hread : readInt32BE (buffer w) = Return (len data)).
    { rewrite <- (firstn_skipn 4 (buffer w)), Hfront.
      apply int32be_pack. unfold declarable in Hdata.
      pose proof (len_nonneg data). lia. }
    rewrite Hread. cbn [bind]. eexists. split; [reflexivity|].
    exists past, (data :: todo'). split; [exact Hframes|]. split; [exact Hdone|].
    unfold pending. cbn [state length PosixSocket.buffer].
    exists data, todo'. split; [reflexivity|]. split; [reflexivity|].
    rewrite slice_from_skipn by lia. exact Hback.
  - destruct Hpending as (data & todo' & -> & Hlen & Hbytes).
    rewrite Hlen in *.
    destruct (app_split_front _ _ _ _ Hbytes) as [Hfront Hback].
    { unfold len in Hroom. lia. }
    pose proof (len_nonneg data) as Hnn.
    rewrite slice_firstn, slice_from_skipn by lia.
    unfold len at 1 2. rewrite Nat2Z.id, Hfront.
    destruct (receivePlist parseBuffer ToString data (result w) (logger w))
      as [result' logger'] eqn:Hone.
    eexists. split; [reflexivity|].
    exists (past ++ [data]), todo'. split; [|split].
    + rewrite <- app_assoc. exact Hframes.
    + cbn [result logger]. rewrite handled_snoc, <- Hdone.
      unfold direct. cbn [fst snd]. now rewrite Hone.
    + unfold pending. cbn [state length PosixSocket.buffer]. split; [reflexivity|].
      exact Hback.
Qed.

(** The loop keeps the socket in step and leaves it where no turn is
    possible. *)
Lemma drain_follows frames rest fuel :
  Forall declarable frames ->
  forall w w',
    follows w frames rest ->
    loop fuel w = Some w' ->
    follows w' frames rest /\ turn w' = None.
Proof.
  intros Hsmall. induction fuel as [|fuel IH]; intros w w' Hw Hloop;
    cbn [drain] in Hloop; destruct (turn w) as [r|] eqn:Hturn.
  - destruct (turn_follows frames rest w r Hsmall Hw Hturn) as (w1 & -> & _).
    discriminate.
  - injection Hloop as <-. now split.
  - destruct (turn_follows frames rest w r Hsmall Hw Hturn) as (w1 & -> & Hw1).
    now apply (IH w1).
  - injection Hloop as <-. now split.
Qed.

(** Feeding the chunks of a stream of frames. *)
Lemma feed_follows frames :
  Forall declarable frames ->
  forall chunks w,
    follows w frames (List.concat chunks) ->
    turn w = None ->
    exists w', feed_all binary w chunks = Some w'
               /\ follows w' frames [] /\ turn w' = None.
Proof.
  intros Hsmall. induction chunks as [|data chunks IH]; intros w Hw Hrest.
  - exists w. cbn [feed]. now repeat split.
  - cbn [feed]. unfold onData. rewrite Z.eqb_refl.
    set (w0 := mkWorld (buffer w ++ data) (state w) (length w) (result w) (logger w)).
    assert (Hw0 : follows w0 frames (List.concat chunks)).
    { destruct Hw as (past & todo & Hframes & Hdone & Hpending).
      exists past, todo. split; [exact Hframes|]. split; [exact Hdone|].
      unfold pending in *. cbn [w0 state length PosixSocket.buffer].
      cbn [List.concat] in Hpending.
      destruct (state w); rewrite <- app_assoc; exact Hpending. }
    destruct (drain_total (turns w0) w0 (Nat.le_refl _)) as (w1 & Hloop).
    rewrite Hloop.
    destruct (drain_follows frames _ _ Hsmall w0 w1 Hw0 Hloop) as [Hw1 Hstop].
    apply IH; assumption.
Qed.

Lemma frame_length data : (4 <= List.length (frame data))%nat.
Proof. unfold frame. rewrite length_app, pack_i32be_length. lia. Qed.

(** A socket in step with the frames, with nothing more to come and no
    turn possible, has handled them all and holds no byte. *)
Lemma follows_at_end frames w :
  follows w frames [] -> turn w = None ->
  (result w, logger w) = outcome frames
  /\ buffer w = [] /\ state w = Length /\ length w = 4.
Proof.
  intros (past & todo & Hframes & Hdone & Hpending) Hstop.
  unfold iteration in Hstop.
  destruct (length w <=? len (buffer w)) eqn:Hroom; [discriminate|].
  apply Z.leb_gt in Hroom. unfold pending in Hpending.
  destruct (state w) eqn:Hstate.
  - destruct Hpending as [Hfour Hbytes]. rewrite app_nil_r in Hbytes.
    rewrite Hfour in Hroom. destruct todo as [|data todo'].
    + rewrite app_nil_r in Hframes. subst past. now repeat split.
    + exfalso. rewrite stream_of_cons in Hbytes.
      assert (H : len (buffer w) = len (pack_i32be (len data) ++ data ++ stream_of todo'))
        by now rewrite Hbytes.
      rewrite len_app in H. change (len (pack_i32be (len data))) with 4 in H.
      pose proof (len_nonneg (data ++ stream_of todo')). lia.
  - exfalso. destruct Hpending as (data & todo' & _ & Hlen & Hbytes).
    rewrite app_nil_r in Hbytes.
    assert (H : len (buffer w) = len (data ++ stream_of todo')) by now rewrite Hbytes.
    rewrite len_app in H. pose proof (len_nonneg (stream_of todo')). lia.
Qed.

(** Frames cut into chunks anywhere are handled as frames taken one by
    one. *)
Lemma feed_frames frames chunks :
  Forall declarable frames ->
  List.concat chunks = stream_of frames ->
  exists w,
    feed_all binary initial chunks = Some w
    /\ (result w, logger w) = outcome frames
    /\ buffer w = [] /\ state w = Length /\ length w = 4.
Proof.
  intros Hsmall Hchunks.
  destruct (feed_follows frames Hsmall chunks initial) as (w & Hfeed & Hw & Hstop).
  - exists [], frames. split; [reflexivity|]. split; [reflexivity|].
    unfold pending. cbn [state initial length PosixSocket.buffer app].
    now split.
  - reflexivity.
  - exists w. split; [exact Hfeed|]. now apply follows_at_end.
Qed.

Lemma messages_app l1 l2 : messages (l1 ++ l2) = messages l1 ++ messages l2.
Proof.
  induction l1 as [|entry l1 IH]; [reflexivity|].
  destruct entry; cbn [app messages]; now rewrite IH.
Qed.

Lemma retrieveState_messages message r l :
  messages (snd (retrieveState ToString message r l)) = messages l.
Proof.
  unfold retrieveState.
  destruct (truthy message && typeof_object message && truthy (get message (js "0")));
    [|reflexivity].
  destruct (MobileDevice.get_prop _ (js "Status"));
    [destruct (MobileDevice.get_prop _ (js "PercentComplete"))|];
    cbn [snd]; rewrite !messages_app; cbn [messages]; now rewrite !app_nil_r.
Qed.

Lemma retrieveState_not_thrown message r l :
  not_thrown r -> not_thrown (fst (retrieveState ToString message r l)).
Proof.
  intros Hr. unfold retrieveState.
  destruct (truthy message && typeof_object message && truthy (get message (js "0")));
    [|exact Hr].
  assert (H : not_thrown
                (if status_is_complete (get message (js "0"))
                 then if negb (isResolved r)
                      then Returned (get message (js "0")) else r
                 else r)).
  { destruct (status_is_complete _); [|exact Hr].
    destruct (negb (isResolved r)); [exact I | exact Hr]. }
  destruct (MobileDevice.get_prop _ (js "Status"));
    [destruct (MobileDevice.get_prop _ (js "PercentComplete"))|]; exact H.
Qed.

Lemma handled_from_messages frames :
  forall r l,
    messages (snd (fold_left one frames (r, l)))
    = messages l ++ parsed parseBuffer frames.
Proof.
  induction frames as [|data frames IH]; intros r l; cbn [fold_left parsed].
  - now rewrite app_nil_r.
  - unfold direct at 2. cbn [fst snd]. unfold receivePlist.
    destruct (parseBuffer data) as [m|e].
    + destruct (retrieveState ToString m r _) as [r' l'] eqn:E.
      rewrite IH. pose proof (retrieveState_messages m r
        (l ++ [Trace (js "MESSAGE RECEIVING"); TraceMessage m])) as H.
      rewrite E in H. cbn [snd] in H. rewrite H, messages_app. cbn [messages].
      now rewrite <- app_assoc.
    + rewrite IH, messages_app. cbn [messages]. now rewrite app_nil_r.
Qed.

Lemma handled_from_not_thrown frames :
  forall r l, not_thrown r -> not_thrown (fst (fold_left one frames (r, l))).
Proof.
  induction frames as [|data frames IH]; intros r l Hr; cbn [fold_left].
  - exact Hr.
  - unfold direct at 2. cbn [fst snd]. unfold receivePlist.
    destruct (parseBuffer data) as [m|e].
    + pose proof (retrieveState_not_thrown m r
        (l ++ [Trace (js "MESSAGE RECEIVING"); TraceMessage m]) Hr) as H.
      destruct (retrieveState ToString m r _) as [r' l']. now apply IH.
    + now apply IH.
Qed.

Lemma parsed_all frames :
  (forall data, In data frames -> exists m, parseBuffer data = Return m) ->
  List.length (parsed parseBuffer frames) = List.length frames.
Proof.
  induction frames as [|data frames IH]; intros Hall; [reflexivity|].
  cbn [parsed]. destruct (Hall data (or_introl eq_refl)) as (m & ->).
  cbn [List.length]. f_equal. apply IH. intros d Hd. apply Hall. now right.
Qed.

Lemma parsed_app a b :
  parsed parseBuffer (a ++ b) = parsed parseBuffer a ++ parsed parseBuffer b.
Proof.
  induction a as [|data a IH]; [reflexivity|].
  cbn [app parsed]. destruct (parseBuffer data); [cbn [app]|]; now rewrite IH.
Qed.

(** In the [Length] state the socket waits for four bytes. *)
Lemma reached_waits_for_four w :
  Reached parseBuffer ToString w -> state w = Length -> length w = 4.
Proof.
  induction 1 as [|w data _ IH|w w' _ _ Hturn]; cbn [state length];
    [reflexivity | exact IH |].
  unfold iteration in Hturn.
  destruct (length w <=? len (buffer w)); [|discriminate].
  destruct (state w).
  - destruct (readInt32BE (buffer w)); [|discriminate].
    injection Hturn as <-. discriminate.
  - destruct (receivePlist _ _ _ _ _). injection Hturn as <-. reflexivity.
Qed.

(** C2, amended: frames with a declarable length, written back to back
    and cut into chunks anywhere.  Fed chunk by chunk to a socket of the
    binary format, the one format in which the socket frames, they
    leave it with an empty buffer, waiting for a length, and with the
    future and the log that handling the frames one by one, each parsed
    whole, would have left: the messages logged are the parsed frames in
    their order, one for each frame when every frame parses.  And on its
    way the socket takes a length only from a buffer of at least four
    bytes, the first four, and cuts a frame only from a buffer of at least
    the expected length. *)
Theorem chunked_frames_are_received frames chunks :
  Forall declarable frames ->
  List.concat chunks = stream_of frames ->
  (exists w,
      feed_all binary initial chunks = Some w
      /\ (result w, logger w) = outcome frames
      /\ messages (logger w) = parsed parseBuffer frames
      /\ ((forall data, In data frames -> exists m, parseBuffer data = Return m) ->
          List.length (messages (logger w)) = List.length frames)
      /\ buffer w = [] /\ state w = Length /\ length w = 4)
  /\ (forall w r,
         Reached parseBuffer ToString w ->
         turn w = Some r ->
         match state w with
         | Length =>
             4 <= len (buffer w)
             /\ exists l,
                 readInt32BE (firstn 4 (buffer w)) = Return l
                 /\ r = Return (mkWorld (skipn 4 (buffer w)) Plist l
                                        (result w) (logger w))
         | Plist =>
             length w <= len (buffer w)
             /\ exists w',
                 r = Return w'
                 /\ (result w', logger w')
                    = one (result w, logger w) (slice (buffer w) 0 (length w))
                 /\ buffer w' = slice_from (buffer w) (length w)
                 /\ state w' = Length
         end).
Proof.
  intros Hsmall Hchunks. split.
  - destruct (feed_frames frames chunks Hsmall Hchunks)
      as (w & Hfeed & Hout & Hbuf & Hstate & Hlen).
    assert (Hm : messages (logger w) = parsed parseBuffer frames).
    { change (logger w) with (snd (result w, logger w)). rewrite Hout.
      unfold handled. now rewrite handled_from_messages. }
    exists w. repeat split; try assumption.
    intros Hall. rewrite Hm. now apply parsed_all.
  - intros w r Hw Hturn. unfold iteration in Hturn.
    destruct (length w <=? len (buffer w)) eqn:Hroom; [|discriminate].
    apply Z.leb_le in Hroom. injection Hturn as <-.
    destruct (state w) eqn:Hstate.
    + rewrite (reached_waits_for_four w Hw Hstate) in Hroom.
      split; [exact Hroom|].
      destruct (buffer w) as [|b0 [|b1 [|b2 [|b3 tail]]]] eqn:Hb;
        try (unfold len in Hroom; cbn in Hroom; lia).
      eexists. split; [reflexivity|]. cbn [readInt32BE bind]. do 2 f_equal.
      apply slice_from_skipn. unfold len. cbn [List.length]. lia.
    + split; [exact Hroom|].
      destruct (receivePlist _ _ _ _ _) as [r' l'] eqn:E.
      eexists. split; [reflexivity|]. cbn [result logger PosixSocket.buffer state].
      unfold direct. cbn [fst snd]. now rewrite E.
Qed.

(** C8: frames with a declarable length, one of which does not parse,
    written back to back and cut into chunks anywhere.  The binary socket
    takes them all: the future is not failed, the bad frame leaves one
    line in the log and nothing else, the frames after it are handled as
    they would be one by one, their messages logged after those of the
    frames before it, and the buffer ends empty. *)
Theorem bad_frame_is_logged_and_skipped before bad after chunks e :
  Forall declarable (before ++ bad :: after) ->
  parseBuffer bad = Throw e ->
  List.concat chunks = stream_of (before ++ bad :: after) ->
  exists w,
    feed_all binary initial chunks = Some w
    /\ not_thrown (result w)
    /\ (result w, logger w)
       = fold_left one after
           (fst (outcome before),
            snd (outcome before)
            ++ [TraceError (js "Failed to parse bplist: ") e])
    /\ messages (logger w)
       = parsed parseBuffer before ++ parsed parseBuffer after
    /\ buffer w = [] /\ state w = Length /\ length w = 4.
Proof.
  intros Hsmall Hbad Hchunks.
  destruct (feed_frames _ chunks Hsmall Hchunks)
    as (w & Hfeed & Hout & Hbuf & Hstate & Hlen).
  exists w. split; [exact Hfeed|].
  assert (Hm : messages (logger w) = parsed parseBuffer (before ++ bad :: after)).
  { change (logger w) with (snd (result w, logger w)). rewrite Hout.
    unfold handled. now rewrite handled_from_messages. }
  rewrite parsed_app in Hm. cbn [parsed] in Hm. rewrite Hbad in Hm.
  split; [|split; [|split; [exact Hm | now repeat split]]].
  - change (result w) with (fst (result w, logger w)). rewrite Hout.
    unfold handled. now apply handled_from_not_thrown.
  - rewrite Hout. unfold handled. rewrite fold_left_app. cbn [fold_left].
    f_equal. unfold direct. unfold receivePlist. now rewrite Hbad.
Qed.

End Streaming.

Section StreamingExamples.

Import PosixSocket.

(** Two frames, [Hi] and [Complete], arriving one byte at a time. *)
Lemma chunked_frames_are_received_witness :
  exists w,
    feed sample_parseBuffer sample_plist_parse sample_Buffer_toString
         sample_ToString WinSocket.kCFPropertyListBinaryFormat_v1_0 initial
         (map (fun b => [b]) (stream_of [js "Hi"; js "Complete"]))
    = Some w
    /\ messages (logger w)
       = [JArray [JObject [(js "Status", JStr (js "Hi"))]];
          JArray [JObject [(js "Status", JStr (js "Complete"))]]]
    /\ result w = Returned (JObject [(js "Status", JStr (js "Complete"))])
    /\ buffer w = [].
Proof.
  destruct (proj1 (chunked_frames_are_received
                     sample_parseBuffer sample_plist_parse
                     sample_Buffer_toString sample_ToString
                     [js "Hi"; js "Complete"]
                     (map (fun b => [b]) (stream_of [js "Hi"; js "Complete"]))
                     ltac:(repeat constructor)
                     ltac:(vm_compute; reflexivity)))
    as (w & Hfeed & Hout & Hm & _ & Hbuf & _).
  exists w. split; [exact Hfeed|]. split; [|split].
  - rewrite Hm. reflexivity.
  - change (result w) with (fst (result w, logger w)). rewrite Hout.
    vm_compute. reflexivity.
  - exact Hbuf.
Defined.

(** The frame [Hi], an empty frame that the parser refuses, and the frame
    [Complete], arriving in two chunks cut inside the first frame. *)
Lemma bad_frame_is_logged_and_skipped_witness :
  exists w,
    feed sample_parseBuffer sample_plist_parse sample_Buffer_toString
         sample_ToString WinSocket.kCFPropertyListBinaryFormat_v1_0 initial
         [[0; 0; 0; 2; 72];
          [105; 0; 0; 0; 0; 0; 0; 0; 8; 67; 111; 109; 112; 108; 101; 116; 101]]
    = Some w
    /\ not_thrown (result w)
    /\ messages (logger w)
       = [JArray [JObject [(js "Status", JStr (js "Hi"))]];
          JArray [JObject [(js "Status", JStr (js "Complete"))]]]
    /\ buffer w = [].
Proof.
  destruct (bad_frame_is_logged_and_skipped
              sample_parseBuffer sample_plist_parse
              sample_Buffer_toString sample_ToString
              [js "Hi"] [] [js "Complete"]
              [[0; 0; 0; 2; 72];
               [105; 0; 0; 0; 0; 0; 0; 0; 8; 67; 111; 109; 112; 108; 101; 116; 101]]
              (TypeError (js "Unable to identify format"))
              ltac:(repeat constructor)
              eq_refl
              ltac:(vm_compute; reflexivity))
    as (w & Hfeed & Hok & _ & Hm & Hbuf & _).
  exists w. split; [exact Hfeed|]. split; [exact Hok|]. split; [|exact Hbuf].
  rewrite Hm. reflexivity.
Defined.

(** C2, the claim as worded fails for a socket of the XML format.  The
    frames [Hi] and [Complete], arriving one byte at a time: parsed one by
    one they are two messages, and the socket of the binary format hands
    on both; the socket of the XML format hands on none, keeps every byte
    in its buffer, and has settled its future at the first byte with the
    empty dictionary of a parse that failed. *)
Lemma chunked_frames_in_the_xml_format :
  parsed sample_parseBuffer [js "Hi"; js "Complete"]
  = [JArray [JObject [(js "Status", JStr (js "Hi"))]];
     JArray [JObject [(js "Status", JStr (js "Complete"))]]]
  /\ feed sample_parseBuffer sample_plist_parse sample_Buffer_toString
          sample_ToString WinSocket.kCFPropertyListXMLFormat_v1_0 initial
          (map (fun b => [b]) (stream_of [js "Hi"; js "Complete"]))
     = Some (mkWorld (stream_of [js "Hi"; js "Complete"]) Length 4
                     (Returned (JObject [])) []).
Proof. split; vm_compute; reflexivity. Qed.

(** In the XML format the socket frames nothing: each chunk has the whole
    buffer parsed, length prefix included, and the first answer, here the
    empty dictionary of a failed parse, settles the future. *)
Lemma xml_format_is_not_framed :
  feed sample_parseBuffer sample_plist_parse sample_Buffer_toString
       sample_ToString WinSocket.kCFPropertyListXMLFormat_v1_0 initial
       [PosixSocket.frame (js "Hi")]
  = Some (mkWorld (PosixSocket.frame (js "Hi")) Length 4 (Returned (JObject [])) []).
Proof. vm_compute. reflexivity. Qed.

End StreamingExamples.

Section SynchronousExamples.

Import WinSocket.

(** A stream closed after the length 5 has been read; and the message
    [ok] read whole. *)
Lemma receiveMessageCore_reads_one_message_witness :
  receiveMessageCore (fun _ => 0) sample_Buffer_toString 1 [Data [0; 0; 0; 5]]
  = Some (Throw (Failure (js "Unable to read reply")), [])
  /\ receiveMessageCore (fun _ => 0) sample_Buffer_toString 1
                        [Data [0; 0; 0; 2]; Data (js "ok")]
     = Some (Return (js "ok"), []).
Proof.
  destruct (receiveMessageCore_reads_one_message (fun _ => 0) sample_Buffer_toString)
    as (_ & Hclosed & Hwhole).
  split.
  - apply (Hclosed 0%nat 5). unfold kMaxLength. lia.
  - apply (Hwhole 0%nat (js "ok") []). unfold kMaxLength. vm_compute.
    split; [reflexivity | discriminate].
Defined.

(** A read that finds fewer bytes than it asks for: [read] hands back the
    whole buffer, so the reply is the two bytes that came followed by
    three bytes that never did, and the bytes that come later are left on
    the connection. *)
Lemma receiveMessageCore_short_read :
  receiveMessageCore (fun _ => 63) sample_Buffer_toString 1
                     [Data [0; 0; 0; 5]; Data (js "he"); Data (js "llo")]
  = Some (Return (js "he???"), [Data (js "llo")]).
Proof. vm_compute. reflexivity. Qed.

End SynchronousExamples.

(* ================================================================== *)
(** * Further properties *)
(* ================================================================== *)

Import Notions.

(** ** Sending debug packets *)

Section MoreDebugPackets.

Import GDB.

Lemma acceptable_or_refused c : acceptable c \/ refused c.
Proof. unfold acceptable, refused. lia. Qed.

Lemma getCharacterCodePoint_refused c :
  refused c -> getCharacterCodePoint [c] = Throw AssertionError.
Proof.
  unfold refused, getCharacterCodePoint. intros [H1 H2].
  apply Z.leb_le in H1, H2. now rewrite H1, H2.
Qed.

Lemma sum_loop_refused packet :
  Exists refused packet ->
  forall sum, sum_loop packet sum = Throw AssertionError.
Proof.
  induction packet as [|c rest IH]; intros H sum.
  - inversion H.
  - cbn [sum_loop]. destruct (acceptable_or_refused c) as [Hc|Hc].
    + rewrite (getCharacterCodePoint_acceptable c Hc). cbn [bind].
      apply IH. inversion H as [? ? Hbad|? ? Hrest]; subst;
        [unfold acceptable, refused in *; lia | exact Hrest].
    + now rewrite (getCharacterCodePoint_refused c Hc).
Qed.

(** X1: [send] writes one string, the framed payload, and nothing else,
    when every code unit of the payload is let through; when one is
    refused (0xD800 to 0xffff, which is more than the surrogates) it
    throws the assertion error and the socket is as it was: nothing is
    written, no checksum is formed. *)
Theorem send_writes_one_packet_or_nothing packet s :
  (Forall acceptable packet ->
   send packet s
   = (Return tt, mkSocket (written s ++ [framed packet]) (piped s)))
  /\ (Exists refused packet -> send packet s = (Throw AssertionError, s)).
Proof.
  split.
  - apply send_acceptable.
  - intros H. unfold send, mbind, lift.
    now rewrite (sum_loop_refused packet H).
Qed.

Lemma send_writes_one_packet_or_nothing_witness :
  send (js "D") fresh = (Return tt, mkSocket [js "$D#44"] false)
  /\ send [65; 0xFF01] fresh = (Throw AssertionError, fresh).
Proof.
  split.
  - refine (eq_trans (proj1 (send_writes_one_packet_or_nothing (js "D") fresh) _) _).
    + now apply literal_acceptable.
    + vm_compute. reflexivity.
  - apply (proj2 (send_writes_one_packet_or_nothing [65; 0xFF01] fresh)).
    right. left. unfold refused. lia.
Defined.

Lemma hex_byte_reads_back b :
  byte b -> hex_pairs (hex_byte b) = Some [b].
Proof.
  intros H.
  assert (Hall : forallb
                   (fun n => match hex_pairs (hex_byte (Z.of_nat n)) with
                             | Some [x] => x =? Z.of_nat n
                             | _ => false
                             end)
                   (seq 0 256) = true) by (vm_compute; reflexivity).
  rewrite forallb_forall in Hall. specialize (Hall (Z.to_nat b)).
  unfold byte in H. rewrite Z2Nat.id in Hall by lia.
  destruct (hex_pairs (hex_byte b)) as [[|x [|y l]]|];
    try (discriminate Hall; apply in_seq; lia).
  f_equal. f_equal. apply Z.eqb_eq, Hall, in_seq. lia.
Qed.

Lemma hex_digit_reads_back d :
  0 <= d < 16 -> hex_val (digit_char d) = Some d.
Proof.
  intros H.
  assert (Hall : forallb
                   (fun n => match hex_val (digit_char (Z.of_nat n)) with
                             | Some x => x =? Z.of_nat n
                             | None => false
                             end)
                   (seq 0 16) = true) by (vm_compute; reflexivity).
  rewrite forallb_forall in Hall. specialize (Hall (Z.to_nat d)).
  rewrite Z2Nat.id in Hall by lia.
  destruct (hex_val (digit_char d)) as [x|];
    [|discriminate Hall; apply in_seq; lia].
  f_equal. apply Z.eqb_eq, Hall, in_seq. lia.
Qed.

(** X2: the packet of any payload is [$], the payload, [#] and the
    checksum, the sum of the code units modulo 256, printed as a single
    hexadecimal digit when it is below 16 and as two digits from 16 on;
    the digits read back as the checksum. *)
Theorem packet_ends_in_checksum_digits payload :
  0 <= checksum payload < 256
  /\ framed payload
     = js "$" ++ payload ++ js "#"
       ++ (if checksum payload <? 16
           then [digit_char (checksum payload)]
           else hex_byte (checksum payload))
  /\ (if checksum payload <? 16
      then hex_val (digit_char (checksum payload))
      else option_map (fun b => hd 0 b) (hex_pairs (hex_byte (checksum payload))))
     = Some (checksum payload).
Proof.
  assert (Hrange : 0 <= checksum payload < 256)
    by (unfold checksum; apply Z.mod_pos_bound; lia).
  split; [exact Hrange|]. split.
  - unfold framed, frame_packet. rewrite land_255.
    fold (checksum payload). now rewrite (checksum_digits _ Hrange).
  - destruct (checksum payload <? 16) eqn:E.
    + apply Z.ltb_lt in E. apply hex_digit_reads_back. lia.
    + now rewrite (hex_byte_reads_back _ Hrange).
Qed.

End MoreDebugPackets.

(** ** The handshake on any argument list *)

Section MoreHandshake.

Import GDB.

Lemma encode_argument_is_ascii arg index : ascii_string (encode_argument arg index).
Proof.
  unfold encode_argument.
  repeat apply ascii_string_app;
    try (apply Number_toString_ascii; lia);
    try apply Buffer_toString_hex_ascii;
    apply ascii_string_check; reflexivity.
Qed.

Lemma mapi_encode_argument_ascii argv index :
  Forall ascii_string (mapi encode_argument argv index).
Proof.
  revert index. induction argv as [|arg rest IH]; intros index; cbn [mapi].
  - constructor.
  - constructor; [apply encode_argument_is_ascii | apply IH].
Qed.

Lemma encodedArguments_is_ascii argv : ascii_string (encodedArguments argv).
Proof.
  unfold encodedArguments. apply join_ascii.
  - now apply ascii_string_check.
  - apply mapi_encode_argument_ascii.
Qed.

Lemma framed_ascii payload : ascii_string payload -> ascii_string (framed payload).
Proof.
  intros H. unfold framed, frame_packet.
  repeat apply ascii_string_app;
    try (apply Number_toString_ascii; lia);
    try exact H;
    apply ascii_string_check; reflexivity.
Qed.

(** X3: whatever the arguments are, characters outside ASCII and lone
    surrogates included, and whatever the host, [run] does not throw: it
    writes seven strings, all of them ASCII, the fifth being the packet of
    [A] followed by the encoded arguments. *)
Theorem run_never_throws cfg argv :
  exists writes,
    run cfg argv fresh
    = (Return tt,
       mkSocket writes (negb (isWindows cfg) && negb (justlaunch cfg)))
    /\ List.length writes = 7%nat
    /\ Forall ascii_string writes
    /\ nth_error writes 4 = Some (framed (js "A" ++ encodedArguments argv)).
Proof.
  assert (HA : ascii_string (js "A" ++ encodedArguments argv)).
  { apply ascii_string_app;
      [now apply ascii_string_check | apply encodedArguments_is_ascii]. }
  eexists. split; [apply run_writes, ascii_string_acceptable, HA|].
  split; [reflexivity|]. split; [|reflexivity].
  cbn [app].
  assert (Hlast : ascii_string
                    (framed (if isWindows cfg then js "vCont;c"
                             else if justlaunch cfg then js "D" else js "vCont;c"))).
  { apply framed_ascii. destruct (isWindows cfg); [|destruct (justlaunch cfg)];
      now apply ascii_string_check. }
  repeat (apply Forall_cons;
          [first [ exact Hlast
                 | apply framed_ascii;
                   first [exact HA | now apply ascii_string_check]
                 | now apply ascii_string_check ]|]).
  apply Forall_nil.
Qed.

Lemma utf8_of_code_point_length c :
  (1 <= List.length (utf8_of_code_point c) <= 4)%nat
  /\ (0x80 <= c -> (2 <= List.length (utf8_of_code_point c))%nat)
  /\ (0x800 <= c -> (3 <= List.length (utf8_of_code_point c))%nat)
  /\ (0x10000 <= c -> List.length (utf8_of_code_point c) = 4%nat).
Proof.
  unfold utf8_of_code_point.
  destruct (c <? 0x80) eqn:E1; [apply Z.ltb_lt in E1 | apply Z.ltb_ge in E1];
    [cbn; repeat split; lia|].
  destruct (c <? 0x800) eqn:E2; [apply Z.ltb_lt in E2 | apply Z.ltb_ge in E2];
    [cbn; repeat split; lia|].
  destruct (c <? 0x10000) eqn:E3; [apply Z.ltb_lt in E3 | apply Z.ltb_ge in E3];
    cbn; repeat split; lia.
Qed.

(** The UTF-8 bytes of a string are at least as many as its code units,
    and more when a code unit is not ASCII. *)
Lemma Buffer_from_string_grows n :
  forall s,
    (List.length s <= n)%nat ->
    (List.length s <= List.length (Buffer_from_string s))%nat
    /\ (Exists (fun c => 0x80 <= c) s ->
        (List.length s < List.length (Buffer_from_string s))%nat).
Proof.
  induction n as [|n IH]; intros s Hn.
  - destruct s; [|cbn in Hn; lia]. split; [cbn; lia|]. intros H. inversion H.
  - destruct s as [|c rest]; [split; [cbn; lia | intros H; inversion H]|].
    cbn [List.length] in Hn. cbn [Buffer_from_string].
    assert (Hrest := IH rest ltac:(lia)).
    pose proof (utf8_of_code_point_length 0xFFFD) as (_ & _ & H3 & _).
    specialize (H3 ltac:(lia)).
    destruct (is_high_surrogate c) eqn:Hhi.
    + destruct rest as [|d rest'].
      * cbn [List.length]. split; [lia|]. intros _. lia.
      * destruct (is_low_surrogate d) eqn:Hlo.
        -- cbn [List.length] in *. assert (Hrest' := IH rest' ltac:(lia)).
           unfold is_high_surrogate in Hhi. unfold is_low_surrogate in Hlo.
           apply andb_true_iff in Hhi, Hlo.
           destruct Hhi as [Hc1 Hc2]. destruct Hlo as [Hd1 Hd2].
           apply Z.leb_le in Hc1, Hc2, Hd1, Hd2.
           pose proof (utf8_of_code_point_length
                         (0x10000 + (c - 0xD800) * 0x400 + (d - 0xDC00)))
             as (_ & _ & _ & H4).
           specialize (H4 ltac:(lia)).
           rewrite length_app, H4. split; [lia|]. intros _. lia.
        -- rewrite length_app. cbn [List.length] in *. split; [lia|].
           intros _. lia.
    + destruct (is_low_surrogate c) eqn:Hlo.
      * rewrite length_app. cbn [List.length]. split; [lia|]. intros _. lia.
      * rewrite length_app. cbn [List.length].
        pose proof (utf8_of_code_point_length c) as (H1 & H2 & _).
        split; [lia|]. intros H.
        inversion H as [? ? Hc|? ? Hr]; subst;
          [specialize (H2 Hc); lia | destruct Hrest as [_ Hrest];
                                     specialize (Hrest Hr); lia].
Qed.

Lemma Buffer_toString_hex_length buf :
  len (Buffer_toString_hex buf) = 2 * len buf.
Proof.
  unfold len, Buffer_toString_hex. induction buf as [|b rest IH]; [reflexivity|].
  cbn [flat_map]. rewrite length_app. cbn [List.length hex_byte]. lia.
Qed.

(** X4: the first field of an argument's triple, [arg.length * 2], is the
    number of hexadecimal digits in its third field when the argument is
    ASCII, and is less than that number as soon as one of its code units
    is not. *)
Theorem argument_length_field arg :
  (ascii_string arg ->
   len arg * 2 = len (Buffer_toString_hex (Buffer_from_string arg)))
  /\ (Exists (fun c => 0x80 <= c) arg ->
      len arg * 2 < len (Buffer_toString_hex (Buffer_from_string arg))).
Proof.
  rewrite Buffer_toString_hex_length. split.
  - intros H. rewrite (Buffer_from_string_ascii arg H). lia.
  - intros H.
    destruct (Buffer_from_string_grows (List.length arg) arg (Nat.le_refl _))
      as [_ Hlt].
    specialize (Hlt H). unfold len. lia.
Qed.

Lemma argument_length_field_witness :
  len (js "ab") * 2 = len (Buffer_toString_hex (Buffer_from_string (js "ab")))
  /\ len [233] * 2 < len (Buffer_toString_hex (Buffer_from_string [233])).
Proof.
  split.
  - apply (proj1 (argument_length_field (js "ab"))).
    now apply ascii_string_check.
  - apply (proj2 (argument_length_field [233])). left. lia.
Defined.

End MoreHandshake.

(** ** The signal watcher on any chunk *)

Section MoreSignalWatcher.

Import GDB.
Local Open Scope nat_scope.

Lemma write_loop_outcome n packet :
  forall i, write_loop n packet i = ProcessExit 1
            \/ write_loop n packet i = Callback None.
Proof.
  induction n as [|n IH]; intros i; cbn [write_loop]; [now right|].
  destruct (_ && _); [destruct (at_is packet (i + 2) (chr "9"))|];
    [now left | apply IH | apply IH].
Qed.

(** X5: [_write] either leaves the process with code 1 or calls back
    without an error, and it leaves the process exactly when somewhere in
    the chunk a [$] is followed at once by [T] or [S] and then by [9]. *)
Theorem write_exits_exactly_on_kill packet :
  (_write packet = ProcessExit 1 <-> exists k, kill_at packet k = true)
  /\ (_write packet = ProcessExit 1 \/ _write packet = Callback None).
Proof.
  split; [apply write_exits | apply write_loop_outcome].
Qed.

Lemma kill_at_needs_dollar packet k :
  kill_at packet k = true -> at_is packet k (chr "$") = true.
Proof.
  unfold kill_at. intros H. apply andb_true_iff in H. destruct H as [H _].
  apply andb_true_iff in H. tauto.
Qed.

Lemma no_dollar_no_kill packet :
  ~ In (chr "$") packet -> _write packet = Callback None.
Proof.
  intros Hno. destruct (write_loop_outcome (List.length packet - 2) packet 0)
    as [H|H]; [|exact H].
  apply write_exits in H. destruct H as (k & Hk).
  exfalso. apply Hno. eapply at_is_in, kill_at_needs_dollar, Hk.
Qed.

(** X6: the watcher keeps nothing from one chunk to the next.  When the
    three bytes [$T9] arrive in one chunk the process is left; when the
    stream is cut after [$T], neither chunk makes it leave. *)
Theorem write_misses_kill_across_chunks pre post :
  ~ In (chr "$") pre -> ~ In (chr "$") post ->
  _write (pre ++ js "$T9" ++ post) = ProcessExit 1
  /\ _write (pre ++ js "$T") = Callback None
  /\ _write (js "9" ++ post) = Callback None.
Proof.
  intros Hpre Hpost. split; [|split].
  - apply write_exits. exists (List.length pre). unfold kill_at.
    change (pre ++ js "$T9" ++ post)
      with (pre ++ chr "$" :: chr "T" :: chr "9" :: post).
    rewrite at_is_here, !at_is_app_r. reflexivity.
  - destruct (write_loop_outcome (List.length (pre ++ js "$T") - 2)
                                 (pre ++ js "$T") 0) as [H|H]; [|exact H].
    apply write_exits in H. destruct H as (k & Hk). exfalso.
    pose proof (kill_at_needs_dollar _ _ Hk) as Hd.
    unfold kill_at in Hk. apply andb_true_iff in Hk. destruct Hk as [_ H9].
    apply at_is_bound in H9. rewrite length_app in H9. cbn in H9.
    assert (Hk : k < List.length pre) by lia.
    rewrite at_is_app_l in Hd by exact Hk.
    apply Hpre. eapply at_is_in, Hd.
  - apply no_dollar_no_kill. cbn. intros [H|H]; [discriminate | now apply Hpost].
Qed.

Lemma write_misses_kill_across_chunks_witness :
  _write (js "+" ++ js "$T9" ++ js "1;#00") = ProcessExit 1
  /\ _write (js "+" ++ js "$T") = Callback None
  /\ _write (js "9" ++ js "1;#00") = Callback None.
Proof.
  apply (write_misses_kill_across_chunks (js "+") (js "1;#00"));
    cbn; intuition discriminate.
Defined.

End MoreSignalWatcher.

(** ** The output adapter on whole packets *)

Section MoreOutputAdapter.

Import GDB.
Local Open Scope nat_scope.

Variable Decoder : Type.
Variable decoder_write : Decoder -> Buffer -> jsstring * Decoder.

Local Abbreviation text_of := (console Decoder decoder_write).
Local Abbreviation adapter := (_transform Decoder decoder_write).

Lemma adapter_console items :
  Forall well_formed items ->
  forall d fuel,
    List.length (chunk_of items) < fuel ->
    adapter fuel (chunk_of items) d = Some (text_of items d []).
Proof.
  intros Hwf d fuel Hfuel.
  exact (loop_console Decoder decoder_write items Hwf [] fuel d [] Hfuel).
Qed.

Lemma same_payload_console items items' :
  Forall2 same_payload items items' ->
  forall d result, text_of items d result = text_of items' d result.
Proof.
  induction 1 as [|a b items items' Hab _ IH]; intros d result; [reflexivity|].
  destruct a as [x|p c1 c2], b as [y|q c1' c2']; cbn [same_payload] in Hab;
    try contradiction; subst; cbn [console].
  - apply IH.
  - destruct (qualifies q); [|apply IH].
    destruct (Buffer_from_hex _); [|reflexivity].
    destruct (decoder_write d a). apply IH.
Qed.

Lemma same_payload_well_formed items items' :
  Forall2 same_payload items items' ->
  Forall well_formed items -> Forall well_formed items'.
Proof.
  induction 1 as [|a b items items' Hab _ IH]; intros Hwf; [constructor|].
  inversion Hwf as [|? ? Ha Hrest]; subst. constructor; [|now apply IH].
  destruct a, b; cbn [same_payload well_formed] in *; try contradiction;
    now subst.
Qed.

Lemma same_payload_length items items' :
  Forall2 same_payload items items' ->
  List.length (chunk_of items) = List.length (chunk_of items').
Proof.
  induction 1 as [|a b items items' Hab _ IH]; [reflexivity|].
  change (chunk_of (a :: items)) with (render a ++ chunk_of items).
  change (chunk_of (b :: items')) with (render b ++ chunk_of items').
  rewrite !length_app, IH. f_equal.
  destruct a, b; cbn [same_payload] in Hab; try contradiction; subst;
    [reflexivity|].
  cbn [render List.length]. rewrite !length_app. reflexivity.
Qed.

(** X7: the two bytes after [#] are never looked at.  Two chunks of whole
    packets that differ only in those bytes give the same answer, text or
    error, and leave the decoder in the same state, so a packet whose
    checksum is wrong is taken like any other. *)
Theorem adapter_ignores_checksums items items' :
  Forall2 same_payload items items' ->
  Forall well_formed items ->
  forall d fuel,
    List.length (chunk_of items) < fuel ->
    exists answer,
      adapter fuel (chunk_of items) d = Some answer
      /\ adapter fuel (chunk_of items') d = Some answer.
Proof.
  intros Hsame Hwf d fuel Hfuel.
  exists (text_of items d []). split.
  - exact (adapter_console items Hwf d fuel Hfuel).
  - rewrite (adapter_console items' (same_payload_well_formed _ _ Hsame Hwf) d fuel);
      [now rewrite (same_payload_console _ _ Hsame)|].
    now rewrite <- (same_payload_length _ _ Hsame).
Qed.

Lemma console_from result items :
  forall d,
    text_of items d result
    = match text_of items d [] with
      | (DoneResult text, d') => (DoneResult (result ++ text), d')
      | (DoneError e, d') => (DoneError e, d')
      end.
Proof.
  revert result. induction items as [|it rest IH]; intros result d; cbn [console].
  - now rewrite app_nil_r.
  - destruct it as [bytes|payload c1 c2]; [apply IH|].
    destruct (qualifies payload); [|apply IH].
    destruct (Buffer_from_hex _); [|reflexivity].
    destruct (decoder_write d a) as [text d'].
    rewrite (IH (result ++ text)), (IH ([] ++ text)).
    destruct (text_of rest d' []) as [[t|e] d'']; [|reflexivity].
    now rewrite <- app_assoc.
Qed.

Lemma console_app first second :
  forall d result,
    text_of (first ++ second) d result
    = match text_of first d result with
      | (DoneResult text, d') => text_of second d' text
      | (DoneError e, d') => (DoneError e, d')
      end.
Proof.
  induction first as [|it rest IH]; intros d result; cbn [app console];
    [reflexivity|].
  destruct it as [bytes|payload c1 c2]; [apply IH|].
  destruct (qualifies payload); [|apply IH].
  destruct (Buffer_from_hex _); [|reflexivity].
  destruct (decoder_write d a). apply IH.
Qed.

(** X8: cutting the stream between two packets changes nothing.  When
    one chunk of whole packets gives a text and a decoder state, and the
    next chunk, read with that state, gives a second text, then the two
    chunks read as one give the first text followed by the second, and
    the same final state. *)
Theorem adapter_chunks_compose first second d d1 d2 text1 text2 fuel1 fuel2 fuel :
  Forall well_formed first -> Forall well_formed second ->
  List.length (chunk_of first) < fuel1 ->
  List.length (chunk_of second) < fuel2 ->
  List.length (chunk_of first ++ chunk_of second) < fuel ->
  adapter fuel1 (chunk_of first) d = Some (DoneResult text1, d1) ->
  adapter fuel2 (chunk_of second) d1 = Some (DoneResult text2, d2) ->
  adapter fuel (chunk_of first ++ chunk_of second) d
  = Some (DoneResult (text1 ++ text2), d2).
Proof.
  intros Hw1 Hw2 Hf1 Hf2 Hf H1 H2.
  rewrite (adapter_console first Hw1 d fuel1 Hf1) in H1.
  rewrite (adapter_console second Hw2 d1 fuel2 Hf2) in H2.
  injection H1 as H1. injection H2 as H2.
  assert (Hboth : chunk_of first ++ chunk_of second = chunk_of (first ++ second))
    by (unfold chunk_of; now rewrite flat_map_app).
  rewrite Hboth in *.
  rewrite (adapter_console (first ++ second)
             ltac:(apply Forall_app; now split) d fuel Hf).
  f_equal. rewrite console_app, H1, console_from, H2. reflexivity.
Qed.

Lemma hex_digit_char x buf :
  In x (Buffer_toString_hex buf) ->
  (48 <= x <= 57)%Z \/ (97 <= x <= 102)%Z.
Proof.
  unfold Buffer_toString_hex. rewrite in_flat_map. intros (b & _ & Hx).
  assert (Hd : forall d, (0 <= d < 16)%Z ->
                         (48 <= digit_char d <= 57)%Z
                         \/ (97 <= digit_char d <= 102)%Z).
  { intros d Hd. unfold digit_char.
    change (chr "0") with 48%Z. change (chr "a") with 97%Z.
    destruct (d <? 10)%Z eqn:E;
      [apply Z.ltb_lt in E | apply Z.ltb_ge in E]; lia. }
  cbn in Hx. destruct Hx as [<-|[<-|[]]]; apply Hd; apply Z.mod_pos_bound; lia.
Qed.

Lemma hex_pairs_cons x y l :
  hex_pairs (x :: y :: l)
  = match hex_val x, hex_val y, hex_pairs l with
    | Some a, Some b, Some r => Some ((16 * a + b)%Z :: r)
    | _, _, _ => None
    end.
Proof. reflexivity. Qed.

Lemma hex_reads_back bytes :
  Forall byte bytes ->
  Buffer_from_hex (Buffer_toString_hex bytes) = Return bytes.
Proof.
  intros H. apply hex_pairs_from_hex.
  assert (Hp : hex_pairs (Buffer_toString_hex bytes) = Some bytes).
  { induction H as [|b rest Hb _ IH]; [reflexivity|].
    pose proof (hex_byte_reads_back b Hb) as Hone.
    unfold Buffer_toString_hex in *. cbn [flat_map].
    unfold hex_byte in *. change ([?x; ?y] ++ ?l) with (x :: y :: l).
    rewrite hex_pairs_cons in *. rewrite IH.
    destruct (hex_val (digit_char ((b / 16) mod 16))) as [x|]; [|discriminate].
    destruct (hex_val (digit_char (b mod 16))) as [y|]; [|discriminate].
    change (hex_pairs []) with (Some (@nil Z)) in Hone.
    assert (E : (16 * x + y)%Z = b) by (injection Hone; intros E; exact E).
    now rewrite E. }
  exact Hp.
Qed.

Lemma land_127_ascii s :
  (forall x, In x s -> (0 <= x < 128)%Z) ->
  map (fun b => Z.land b 127) s = s.
Proof.
  intros H. induction s as [|x rest IH]; [reflexivity|].
  cbn [map]. rewrite IH by (intros y Hy; apply H; now right).
  f_equal. change 127%Z with (Z.ones 7). rewrite Z.land_ones by lia.
  apply Z.mod_small. apply H. now left.
Qed.

(** X9: a packet whose payload is [O] followed by the hexadecimal digits
    of some bytes hands the decoder exactly those bytes: the text of the
    chunk is what the decoder makes of them, whatever the two checksum
    bytes are. *)
Theorem adapter_decodes_hex_payload bytes c1 c2 :
  Forall byte bytes ->
  forall d fuel,
    List.length bytes * 2 + 5 < fuel ->
    adapter fuel
            (chr "$" :: (chr "O" :: Buffer_toString_hex bytes) ++ [chr "#"; c1; c2])
            d
    = Some (DoneResult (fst (decoder_write d bytes)), snd (decoder_write d bytes)).
Proof.
  intros Hbytes d fuel Hfuel.
  pose (item := Packet (chr "O" :: Buffer_toString_hex bytes) c1 c2).
  assert (Hwf : Forall well_formed [item]).
  { constructor; [|constructor]. cbn [item well_formed]. intros [H|H].
    - discriminate H.
    - apply hex_digit_char in H. change (chr "#") with 35%Z in H. lia. }
  assert (Hchunk : chunk_of [item]
                   = chr "$" :: (chr "O" :: Buffer_toString_hex bytes)
                                ++ [chr "#"; c1; c2]).
  { cbn [chunk_of flat_map item render]. now rewrite app_nil_r. }
  rewrite <- Hchunk.
  rewrite (adapter_console [item] Hwf d fuel).
  2:{ rewrite Hchunk. cbn [List.length]. rewrite length_app.
      pose proof (Buffer_toString_hex_length bytes) as Hl. unfold len in Hl.
      cbn [List.length]. lia. }
  f_equal. cbn [console item].
  assert (Hq : qualifies (chr "O" :: Buffer_toString_hex bytes) = true).
  { cbn [qualifies]. rewrite Z.eqb_refl. cbn [andb].
    destruct (Buffer_toString_hex bytes) as [|k rest] eqn:E; [reflexivity|].
    assert (Hk : In k (Buffer_toString_hex bytes)) by (rewrite E; now left).
    apply hex_digit_char in Hk. change (chr "K") with 75%Z.
    apply negb_true_iff, Z.eqb_neq. lia. }
  rewrite Hq. cbn [tl].
  rewrite land_127_ascii
    by (intros x Hx; apply hex_digit_char in Hx; lia).
  rewrite (hex_reads_back bytes Hbytes).
  now destruct (decoder_write d bytes).
Qed.

(** X10: when the first [$] of a chunk has no [#] after it, the scan has
    no result for any amount of fuel: the inner loop walks past the end of
    the chunk and never stops. *)
Theorem adapter_hangs_on_open_packet packet p :
  at_is packet p (chr "$") = true ->
  ~ closed_at packet p ->
  (forall k, k < p -> at_is packet k (chr "$") = false) ->
  forall fuel d, adapter fuel packet d = None.
Proof.
  intros Hp Hopen Hfirst fuel d. unfold _transform.
  apply (loop_diverges_at_first_dollar Decoder decoder_write packet p
           Hp Hopen Hfirst). lia.
Qed.

End MoreOutputAdapter.

Section MoreOutputAdapterExamples.

Import GDB.
Local Open Scope nat_scope.

Lemma adapter_ignores_checksums_witness :
  exists answer,
    _transform StringDecoder.Decoder StringDecoder.write 20
               (js "$O6869#ab") StringDecoder.create
    = Some answer
    /\ _transform StringDecoder.Decoder StringDecoder.write 20
                  (js "$O6869#zz") StringDecoder.create
       = Some answer.
Proof.
  refine (adapter_ignores_checksums
            StringDecoder.Decoder StringDecoder.write
            [Packet (js "O6869") (chr "a") (chr "b")]
            [Packet (js "O6869") (chr "z") (chr "z")]
            _ _ StringDecoder.create 20 _).
  - repeat constructor.
  - repeat constructor. cbn. intuition discriminate.
  - cbn. lia.
Defined.

Lemma adapter_chunks_compose_witness :
  _transform StringDecoder.Decoder StringDecoder.write 20
             (js "$Oc3#00" ++ js "$Oa9#00") StringDecoder.create
  = Some (DoneResult ([] ++ [233%Z]), StringDecoder.create).
Proof.
  refine (adapter_chunks_compose
            StringDecoder.Decoder StringDecoder.write
            [Packet (js "Oc3") (chr "0") (chr "0")]
            [Packet (js "Oa9") (chr "0") (chr "0")]
            StringDecoder.create [195%Z] StringDecoder.create [] [233%Z]
            10 10 20 _ _ _ _ _ _ _);
    try (repeat constructor; cbn; intuition discriminate);
    try (cbn; lia); vm_compute; reflexivity.
Defined.

Lemma adapter_decodes_hex_payload_witness :
  _transform StringDecoder.Decoder StringDecoder.write 16
             (js "$O68656c6c6f#cc") StringDecoder.create
  = Some (DoneResult (js "hello"), StringDecoder.create).
Proof.
  refine (eq_trans
            (adapter_decodes_hex_payload
               StringDecoder.Decoder StringDecoder.write
               (js "hello") (chr "c") (chr "c") _ StringDecoder.create 16 _) _).
  - repeat constructor; vm_compute; intuition discriminate.
  - cbn. lia.
  - vm_compute. reflexivity.
Defined.

Lemma adapter_hangs_on_open_packet_witness :
  _transform StringDecoder.Decoder StringDecoder.write 1000
             (js "+$O6865") StringDecoder.create
  = None.
Proof.
  apply (adapter_hangs_on_open_packet
           StringDecoder.Decoder StringDecoder.write (js "+$O6865") 1).
  - reflexivity.
  - intros (j & Hj & H). pose proof (at_is_bound _ _ _ H) as Hb. cbn in Hb.
    do 7 (destruct j as [|j]; [try discriminate H; lia|]). lia.
  - intros k Hk. assert (k = 0) by lia. subst k. reflexivity.
Defined.

End MoreOutputAdapterExamples.

(** ** The synchronous socket: reads *)

Section MoreSynchronous.

Import WinSocket.

Variable uninitialised : nat -> Z.
Variable Buffer_toString : Buffer -> jsstring.
Variable plist_parse : jsstring -> Result JSValue.
Variable plistlib_toString : JSValue -> jsstring.
Variable base64 : Buffer -> jsstring.

Local Abbreviation read_bytes := (read uninitialised).
Local Abbreviation core := (receiveMessageCore uninitialised Buffer_toString).

Lemma read_hands_back_all wire bytes data wire' :
  read_bytes wire bytes = (Return (Some data), wire') ->
  len data = bytes
  /\ exists stored,
      0 < len stored <= bytes
      /\ data = stored
                ++ map uninitialised
                       (seq (List.length stored)
                            (Z.to_nat bytes - List.length stored)).
Proof.
  unfold read. destruct (kMaxLength <? bytes); [discriminate|].
  destruct (recv wire bytes) as [[result stored] w] eqn:Hrecv.
  destruct (result <? 0) eqn:Hneg; [discriminate|].
  destruct (result =? 0) eqn:Hzero; [discriminate|].
  apply Z.ltb_ge in Hneg. apply Z.eqb_neq in Hzero.
  intros H. injection H as <- <-.
  assert (Hstored : len stored = result /\ result <= bytes).
  { unfold recv in Hrecv. destruct wire as [|[arrived|] rest].
    - injection Hrecv as <- <- <-. lia.
    - destruct (len arrived <=? bytes) eqn:E.
      + apply Z.leb_le in E. injection Hrecv as <- <- <-. lia.
      + apply Z.leb_gt in E. injection Hrecv as <- <- <-.
        unfold len in *. rewrite length_firstn. lia.
    - injection Hrecv as <- <- <-. lia. }
  destruct Hstored as [Hs Hle]. split.
  - rewrite len_app. unfold len in *. rewrite length_map, length_seq. lia.
  - exists stored. split; [lia | reflexivity].
Qed.

(** X11: whenever [read] hands back a buffer, the buffer has the length
    that was asked for, however few bytes [recv] stored in it: its front
    is what arrived, the rest is what the fresh buffer held. *)
Theorem read_returns_the_whole_buffer wire bytes data wire' :
  read_bytes wire bytes = (Return (Some data), wire') ->
  len data = bytes
  /\ exists stored,
      0 < len stored <= bytes
      /\ data = stored
                ++ map uninitialised
                       (seq (List.length stored)
                            (Z.to_nat bytes - List.length stored)).
Proof. apply read_hands_back_all. Qed.

Lemma read_reply_once left reply wire :
  exists r, read_reply uninitialised Buffer_toString 1 left reply wire = Some r.
Proof.
  cbn [read_reply]. destruct (0 <? left); [|eexists; reflexivity].
  destruct (read_bytes wire left) as [[[data|]|e] wire'] eqn:Hread;
    try (eexists; reflexivity).
  destruct (read_hands_back_all _ _ _ _ Hread) as [Hlen _].
  rewrite Hlen, Z.sub_diag. eexists. reflexivity.
Qed.

Lemma read_reply_more fuel left reply wire r :
  read_reply uninitialised Buffer_toString 1 left reply wire = Some r ->
  read_reply uninitialised Buffer_toString (S fuel) left reply wire = Some r.
Proof.
  cbn [read_reply]. destruct (0 <? left); [|trivial].
  destruct (read_bytes wire left) as [[[data|]|e] wire'] eqn:Hread; trivial.
  destruct (read_hands_back_all _ _ _ _ Hread) as [Hlen _].
  rewrite Hlen, Z.sub_diag. destruct fuel; trivial.
Qed.

(** A read that finds fewer bytes than it asks for. *)
Lemma read_short arrived rest bytes :
  0 < len arrived < bytes -> bytes <= kMaxLength ->
  read_bytes (Data arrived :: rest) bytes
  = (Return (Some (arrived
                   ++ map uninitialised
                          (seq (List.length arrived)
                               (Z.to_nat bytes - List.length arrived)))),
     rest).
Proof.
  intros H Hk. unfold read, recv.
  replace (kMaxLength <? bytes) with false by (symmetry; apply Z.ltb_ge; lia).
  replace (len arrived <=? bytes) with true by (symmetry; apply Z.leb_le; lia).
  replace (len arrived <? 0) with false by (symmetry; apply Z.ltb_ge; lia).
  replace (len arrived =? 0) with false by (symmetry; apply Z.eqb_neq; lia).
  reflexivity.
Qed.

(** X12: the loop of [receiveMessageCore] never takes a second turn, so
    fuel for one turn always gives its result.  When the payload read
    finds fewer bytes than the length declares, the reply is made of the
    bytes that came followed by the bytes the fresh buffer held, and
    whatever comes later stays on the connection. *)
Theorem receiveMessageCore_reads_the_payload_once :
  (forall wire fuel,
      exists r, core 1%nat wire = Some r /\ core (S fuel) wire = Some r)
  /\ (forall l arrived rest fuel,
         0 < len arrived < l -> l <= kMaxLength ->
         core (S fuel) (Data (pack_i32be l) :: Data arrived :: rest)
         = Some (Return
                   (Buffer_toString
                      (arrived
                       ++ map uninitialised
                              (seq (List.length arrived)
                                   (Z.to_nat l - List.length arrived)))),
                 rest)).
Proof.
  split.
  - intros wire fuel. unfold receiveMessageCore.
    destruct (read_bytes wire 4) as [[[data|]|e] wire'];
      try (eexists; split; reflexivity).
    destruct (len data =? 4); [|eexists; split; reflexivity].
    destruct (readInt32BE data) as [l|e]; [|eexists; split; reflexivity].
    destruct (read_reply_once l [] wire') as (r & Hr).
    exists r. split; [exact Hr | now apply read_reply_more].
  - intros l arrived rest fuel Hl Hk. unfold receiveMessageCore.
    assert (H4 : 0 < 4 <= kMaxLength) by (unfold kMaxLength; lia).
    rewrite (read_whole uninitialised (pack_i32be l) _ 4 eq_refl H4).
    change (len (pack_i32be l) =? 4) with true. cbv iota.
    rewrite <- (app_nil_r (pack_i32be l)),
      int32be_pack by (unfold kMaxLength in Hk; lia).
    cbn [read_reply].
    replace (0 <? l) with true by (symmetry; apply Z.ltb_lt; lia).
    rewrite (read_short arrived rest l Hl Hk).
    pose proof (read_short arrived rest l Hl Hk) as Hread.
    destruct (read_hands_back_all _ _ _ _ Hread) as [Hlen _].
    rewrite Hlen, Z.sub_diag. destruct fuel; reflexivity.
Qed.

(** X13: four length bytes that spell zero or a negative number, as they
    do whenever the first byte is 0x80 or more, end the call at once: the
    reply is empty and nothing more is read. *)
Theorem receiveMessageCore_without_payload b0 b1 b2 b3 rest fuel :
  int32be b0 b1 b2 b3 <= 0 ->
  core fuel (Data [b0; b1; b2; b3] :: rest) = Some (Return [], rest).
Proof.
  intros Hl. unfold receiveMessageCore.
  assert (H4 : 0 < 4 <= kMaxLength) by (unfold kMaxLength; lia).
  rewrite (read_whole uninitialised [b0; b1; b2; b3] rest 4 eq_refl H4).
  change (len [b0; b1; b2; b3] =? 4) with true. cbv iota.
  cbn [readInt32BE].
  destruct fuel; cbn [read_reply];
    now replace (0 <? int32be b0 b1 b2 b3) with false
      by (symmetry; apply Z.ltb_ge; lia).
Qed.

(** X14: what [sendMessage] writes for a message that is no string,
    delivered in one piece, is read back by [receiveMessageCore] as the
    text of the payload, and [receiveMessage] in the XML format returns
    what [plist.parse] makes of that text, provided the payload is not
    empty and not larger than a Buffer can be. *)
Theorem sendMessage_is_read_back data fuel :
  framed_message data ->
  0 < len (Buffer_from_string (plistlib_toString (createPlist base64 data)))
    <= kMaxLength ->
  core (S fuel) [Data (sendMessage plistlib_toString base64 data)]
  = Some (Return (Buffer_toString
                    (Buffer_from_string
                       (plistlib_toString (createPlist base64 data)))),
          [])
  /\ roundtrip uninitialised Buffer_toString plist_parse plistlib_toString
               base64 kCFPropertyListXMLFormat_v1_0 (S fuel) data
     = Some (plist_parse
               (Buffer_toString
                  (Buffer_from_string
                     (plistlib_toString (createPlist base64 data)))),
             []).
Proof.
  intros Hdata Hp.
  set (payload := Buffer_from_string (plistlib_toString (createPlist base64 data))) in *.
  assert (Hsent : sendMessage plistlib_toString base64 data
                  = pack_i32be (len payload) ++ payload)
    by (destruct data; try reflexivity; contradiction).
  assert (Hcore : core (S fuel) [Data (sendMessage plistlib_toString base64 data)]
                  = Some (Return (Buffer_toString payload), [])).
  { rewrite Hsent. unfold receiveMessageCore.
    assert (H4 : 0 < 4 <= kMaxLength) by (unfold kMaxLength; lia).
    rewrite (read_front uninitialised (pack_i32be (len payload)) payload [] 4
               eq_refl H4)
      by (intros E; rewrite E in Hp; unfold len in Hp; cbn in Hp; lia).
    change (len (pack_i32be (len payload)) =? 4) with true. cbv iota.
    rewrite <- (app_nil_r (pack_i32be (len payload))),
      int32be_pack by (unfold kMaxLength in Hp; lia).
    cbn [read_reply].
    replace (0 <? len payload) with true by (symmetry; apply Z.ltb_lt; lia).
    rewrite (read_whole uninitialised payload [] _ eq_refl Hp).
    rewrite Z.sub_diag. destruct fuel; reflexivity. }
  split; [exact Hcore|].
  unfold roundtrip, receiveMessage. now rewrite Hcore.
Qed.

End MoreSynchronous.

Section MoreSynchronousExamples.

Import WinSocket.

Lemma receiveMessageCore_without_payload_witness :
  receiveMessageCore (fun _ => 0) sample_Buffer_toString 0
                     [Data [255; 255; 255; 252]; Data (js "late")]
  = Some (Return [], [Data (js "late")]).
Proof.
  apply (receiveMessageCore_without_payload
           (fun _ => 0) sample_Buffer_toString 255 255 255 252).
  vm_compute. discriminate.
Defined.

Lemma receiveMessageCore_reads_the_payload_once_witness :
  receiveMessageCore (fun _ => 63) sample_Buffer_toString 1
                     [Data [0; 0; 0; 5]; Data (js "he"); Data (js "llo")]
  = Some (Return (js "he???"), [Data (js "llo")]).
Proof.
  refine (eq_trans
            (proj2 (receiveMessageCore_reads_the_payload_once
                      (fun _ => 63) sample_Buffer_toString)
                   5 (js "he") [Data (js "llo")] 0%nat _ _) _).
  - vm_compute. split; reflexivity.
  - vm_compute. discriminate.
  - vm_compute. reflexivity.
Defined.

Lemma sendMessage_is_read_back_witness :
  receiveMessageCore (fun _ => 0) sample_Buffer_toString 1
    [Data (sendMessage (fun _ => js "<dict/>") (fun b => b) (JObject []))]
  = Some (Return (js "<dict/>"), []).
Proof.
  refine (eq_trans
            (proj1 (sendMessage_is_read_back
                      (fun _ => 0) sample_Buffer_toString sample_plist_parse
                      (fun _ => js "<dict/>") (fun b => b) (JObject []) 0%nat
                      I _)) _).
  - vm_compute. split; [reflexivity | discriminate].
  - vm_compute. reflexivity.
Defined.

End MoreSynchronousExamples.

(** ** The synchronous socket: [createPlist] *)

Section MoreCreatePlist.

Import WinSocket.

Variable base64 : Buffer -> jsstring.

Lemma str_eqb_eq a : forall b, str_eqb a b = true <-> a = b.
Proof.
  induction a as [|x a IH]; destruct b as [|y b]; cbn [str_eqb];
    try (split; [discriminate | discriminate]); [tauto|].
  rewrite andb_true_iff, Z.eqb_eq, IH. split.
  - intros [-> ->]. reflexivity.
  - intros H. injection H as -> ->. tauto.
Qed.

Lemma assign_fresh acc key v :
  ~ In key (map fst acc) -> assign acc key v = acc ++ [(key, v)].
Proof.
  induction acc as [|[k' v'] rest IH]; intros Hfresh; cbn [assign app];
    [reflexivity|].
  cbn [map fst In] in Hfresh.
  destruct (str_eqb k' key) eqn:E.
  - apply str_eqb_eq in E. tauto.
  - now rewrite IH by tauto.
Qed.

Lemma createPlist_loop_distinct todo :
  forall acc,
    NoDup (map fst acc ++ map fst todo) ->
    createPlist_loop base64 todo acc
    = acc ++ map (fun kv => (fst kv, plist_entry base64 (snd kv))) todo.
Proof.
  induction todo as [|[key v] rest IH]; intros acc Hnd;
    cbn [createPlist_loop map]; [now rewrite app_nil_r|].
  cbn [map fst] in Hnd.
  rewrite assign_fresh.
  - rewrite IH.
    + now rewrite <- app_assoc.
    + rewrite map_app. cbn [map fst]. now rewrite <- app_assoc.
  - apply NoDup_remove_2 in Hnd. intros H. apply Hnd, in_or_app. now left.
Qed.

(** X15: for a dictionary whose names are all different, [createPlist]
    keeps every name, in the order of the dictionary, and puts under each
    the pair of a type and a value that [plist_entry] makes of what the
    dictionary held there. *)
Theorem createPlist_keeps_every_key props :
  distinct_keys props ->
  createPlist base64 (JObject props)
  = JObject [(js "type", JStr (js "dict"));
             (js "value",
              JObject (map (fun kv => (fst kv, plist_entry base64 (snd kv)))
                           props))].
Proof.
  intros H. unfold createPlist. cbn [entries].
  now rewrite (createPlist_loop_distinct props []).
Qed.

Lemma plist_entry_shallow v :
  plist_entry base64 (shallow v) = plist_entry base64 v.
Proof. now destruct v. Qed.

(** X16: [createPlist] reads one level only: a dictionary and the same
    dictionary with every inner dictionary and array emptied are written
    alike, whatever they hold and however deep. *)
Theorem createPlist_reads_one_level props :
  createPlist base64 (JObject (map (fun kv => (fst kv, shallow (snd kv))) props))
  = createPlist base64 (JObject props).
Proof.
  unfold createPlist. cbn [entries]. do 3 f_equal.
  generalize (@nil (jsstring * JSValue)).
  induction props as [|[key v] rest IH]; intros acc; [reflexivity|].
  cbn [map createPlist_loop fst snd]. now rewrite plist_entry_shallow, IH.
Qed.

End MoreCreatePlist.

Section MoreCreatePlistExamples.

Import WinSocket.

Lemma createPlist_keeps_every_key_witness :
  createPlist (fun b => b)
              (JObject [(js "Command", JStr (js "Install"));
                        (js "Size", JNum 7);
                        (js "Options", JObject [(js "x", JNum 1)])])
  = JObject
      [(js "type", JStr (js "dict"));
       (js "value",
        JObject
          [(js "Command",
            JObject [(js "type", JStr (js "string"));
                     (js "value", JStr (js "Install"))]);
           (js "Size",
            JObject [(js "type", JStr (js "integer")); (js "value", JNum 7)]);
           (js "Options",
            JObject [(js "type", JStr (js "dict")); (js "value", JObject [])])])].
Proof.
  refine (eq_trans (createPlist_keeps_every_key (fun b => b) _ _) _).
  - unfold distinct_keys. repeat constructor; cbn; intuition discriminate.
  - reflexivity.
Defined.

End MoreCreatePlistExamples.

(** ** The synchronous socket: reading to the end, and sending *)

Section MoreSocketIO.

Import WinSocket WinSocketIO.

Variable uninitialised : nat -> Z.

Local Abbreviation pad := (padded uninitialised).
Local Abbreviation receive_all := (receiveAll uninitialised).

Lemma read_one_segment arrived rest :
  one_read arrived ->
  read uninitialised (Data arrived :: rest) BYTES_TO_READ
  = (Return (Some (pad arrived)), rest).
Proof.
  unfold one_read, BYTES_TO_READ. intros H. unfold read, recv.
  replace (kMaxLength <? 1024) with false by reflexivity.
  replace (len arrived <=? 1024) with true by (symmetry; apply Z.leb_le; lia).
  replace (len arrived <? 0) with false by (symmetry; apply Z.ltb_ge; lia).
  replace (len arrived =? 0) with false by (symmetry; apply Z.eqb_neq; lia).
  reflexivity.
Qed.

Lemma receiveAll_segments segments :
  Forall one_read segments ->
  forall fuel tail handed,
    receive_all (List.length segments + fuel) (map Data segments ++ tail) handed
    = receive_all fuel tail (handed ++ map pad segments).
Proof.
  induction 1 as [|arrived rest Hone _ IH]; intros fuel tail handed.
  - cbn [List.length Nat.add map app]. now rewrite app_nil_r.
  - cbn [List.length Nat.add map app receiveAll].
    rewrite (read_one_segment arrived _ Hone), IH.
    now rewrite <- app_assoc.
Qed.

Lemma padded_length arrived : one_read arrived -> len (pad arrived) = BYTES_TO_READ.
Proof.
  unfold one_read, padded, BYTES_TO_READ. intros H.
  rewrite len_app. unfold len in *. rewrite length_map, length_seq. lia.
Qed.

(** X17: [receiveAll] (and [readSystemLog], the same loop) on segments of
    1 to 1024 bytes.  The handler is called once for each segment, and
    each time with a buffer of exactly 1024 bytes: the segment, followed
    by whatever the fresh buffer held.  When the stream then closes the
    call returns and the socket is closed; when [recv] then fails the call
    throws and the socket is left open. *)
Theorem receiveAll_hands_over_whole_buffers segments :
  Forall one_read segments ->
  receive_all (S (List.length segments)) (map Data segments) []
    = Some (mkDrained (Return tt) [] (map pad segments) true)
  /\ (forall rest,
         receive_all (S (List.length segments))
                     (map Data segments ++ SocketError :: rest) []
         = Some (mkDrained (Throw (Failure (js "Error receiving data: -1")))
                           rest (map pad segments) false))
  /\ Forall (fun data => len data = BYTES_TO_READ) (map pad segments).
Proof.
  intros H. split; [|split].
  - rewrite <- (app_nil_r (map Data segments)), <- Nat.add_1_r.
    now rewrite (receiveAll_segments segments H 1 [] []).
  - intros rest. rewrite <- Nat.add_1_r.
    now rewrite (receiveAll_segments segments H 1 (SocketError :: rest) []).
  - apply Forall_map. eapply Forall_impl; [|exact H].
    intros arrived. apply padded_length.
Qed.

Lemma sendAll_spec fuel :
  forall outlet data gone,
    (List.length outlet < fuel)%nat ->
    exists r sent rest outlet',
      sendAll fuel outlet data gone = Some (r, gone ++ sent, outlet')
      /\ data = sent ++ rest
      /\ (r = Return tt -> rest = [])
      /\ (Forall (fun room => 0 <= room) outlet -> r = Return tt).
Proof.
  induction fuel as [|fuel IH]; intros outlet data gone Hfuel; [lia|].
  assert (Hdone : forall o g, sendAll fuel o [] g = Some (Return tt, g, o))
    by (intros o g; destruct fuel; reflexivity).
  cbn [sendAll]. destruct (len data =? 0) eqn:Hempty.
  - apply Z.eqb_eq in Hempty.
    assert (data = []) by (destruct data; [reflexivity | cbn in Hempty; lia]).
    subst data. exists (Return tt), [], [], outlet.
    rewrite app_nil_r. now repeat split.
  - apply Z.eqb_neq in Hempty. pose proof (len_nonneg data) as Hnn.
    assert (Hall : slice_from data (len data) = []).
    { rewrite slice_from_skipn by lia. apply skipn_all2. unfold len. lia. }
    destruct outlet as [|room outlet']; cbn [sendCore].
    + replace (len data <? 0) with false by (symmetry; apply Z.ltb_ge; lia).
      rewrite Hall, Hdone. exists (Return tt), data, [], [].
      rewrite app_nil_r. now repeat split.
    + cbn [List.length] in Hfuel. destruct (room <? 0) eqn:Hneg.
      * cbn [Z.ltb Z.compare]. exists
          (Throw (Failure (js "Error sending data: " ++ Number_toString 10 (-1)))),
          [], data, outlet'.
        rewrite app_nil_r. repeat split; try discriminate.
        intros Hall'. inversion Hall' as [|? ? Hroom _]; subst.
        apply Z.ltb_lt in Hneg. lia.
      * apply Z.ltb_ge in Hneg. destruct (len data <=? room) eqn:Hfit.
        -- replace (len data <? 0) with false by (symmetry; apply Z.ltb_ge; lia).
           rewrite Hall, Hdone. exists (Return tt), data, [], outlet'.
           rewrite app_nil_r. now repeat split.
        -- apply Z.leb_gt in Hfit.
           replace (room <? 0) with false by (symmetry; apply Z.ltb_ge; lia).
           rewrite slice_from_skipn by lia.
           destruct (IH outlet' (skipn (Z.to_nat room) data)
                        (gone ++ firstn (Z.to_nat room) data) ltac:(lia))
             as (r & sent & rest & o' & Hsend & Hdata & Hret & Hok).
           exists r, (firstn (Z.to_nat room) data ++ sent), rest, o'.
           rewrite Hsend, <- !app_assoc, <- Hdata, firstn_skipn.
           repeat split; [exact Hret|].
           intros Hall'. apply Hok. now inversion Hall'.
Qed.

(** X18: [sendAll] stops within one turn for each entry of the outlet
    and one more.  The bytes that have gone out are then a front part of
    the data, in order; they are all of the data when it returns, and it
    returns whenever no call of [send] fails. *)
Theorem sendAll_sends_in_order outlet data :
  exists r sent rest outlet',
    sendAll (S (List.length outlet)) outlet data [] = Some (r, sent, outlet')
    /\ data = sent ++ rest
    /\ (r = Return tt -> sent = data)
    /\ (Forall (fun room => 0 <= room) outlet -> r = Return tt).
Proof.
  destruct (sendAll_spec (S (List.length outlet)) outlet data [] ltac:(lia))
    as (r & sent & rest & o' & Hsend & Hdata & Hret & Hok).
  exists r, sent, rest, o'. cbn [app] in Hsend. repeat split; try assumption.
  intros Hr. rewrite (Hret Hr), app_nil_r in Hdata. now symmetry.
Qed.

End MoreSocketIO.

Section MoreSocketIOExamples.

Import WinSocket WinSocketIO.

Lemma receiveAll_hands_over_whole_buffers_witness :
  receiveAll (fun _ => 0) 3 [Data (js "log line"); Data (js "more")] []
  = Some (mkDrained (Return tt) []
                    [padded (fun _ => 0) (js "log line");
                     padded (fun _ => 0) (js "more")] true).
Proof.
  apply (proj1 (receiveAll_hands_over_whole_buffers
                  (fun _ => 0) [js "log line"; js "more"]
                  ltac:(repeat constructor; vm_compute; discriminate))).
Defined.

End MoreSocketIOExamples.

(** ** The streaming socket on any input *)

Section MoreStreaming.

Import PosixSocket PosixSocketIO.

Variable parseBuffer : Buffer -> Result JSValue.
Variable plist_parse : jsstring -> Result JSValue.
Variable Buffer_toString : Buffer -> jsstring.
Variable ToString : JSValue -> jsstring.
Variable dictToPlistEncoding : JSValue -> Z -> Buffer.

Local Abbreviation turn := (iteration parseBuffer ToString).
Local Abbreviation loop := (drain parseBuffer ToString).
Local Abbreviation binary := WinSocket.kCFPropertyListBinaryFormat_v1_0.
Local Abbreviation xml := WinSocket.kCFPropertyListXMLFormat_v1_0.
Local Abbreviation on_data := (onData parseBuffer plist_parse Buffer_toString ToString).
Local Abbreviation feed_all := (feed parseBuffer plist_parse Buffer_toString ToString).
Local Abbreviation one := (direct parseBuffer ToString).
Local Abbreviation outcome := (handled parseBuffer ToString).

Lemma onData_returns format w data : exists w', on_data format w data = Some w'.
Proof.
  unfold onData. destruct (format =? binary).
  - apply (drain_total parseBuffer ToString). lia.
  - destruct (format =? xml); eexists; reflexivity.
Qed.

(** X19: the handler of ["data"] comes to an end on every chunk, in every
    state and for every format: no length the stream can declare, zero or
    negative or larger than what is buffered, keeps the loop turning. *)
Theorem feed_always_returns format chunks :
  forall w,
    exists w',
      feed parseBuffer plist_parse Buffer_toString ToString format w chunks
      = Some w'.
Proof.
  induction chunks as [|data rest IH]; intros w; cbn [feed].
  - eexists. reflexivity.
  - destruct (onData_returns format w data) as (w1 & ->). apply IH.
Qed.

Lemma kept_refl f : kept f f.
Proof. now split. Qed.

Lemma kept_trans a b c : kept a b -> kept b c -> kept a c.
Proof.
  intros [H1 H2] [H3 H4]. split.
  - intros Ha. rewrite <- (H1 Ha). apply H3. now rewrite (H1 Ha).
  - tauto.
Qed.

Lemma retrieveState_kept message r l :
  kept r (fst (retrieveState ToString message r l)).
Proof.
  unfold retrieveState.
  destruct (truthy message && typeof_object message && truthy (get message (js "0")));
    [|apply kept_refl].
  assert (H : kept r (if status_is_complete (get message (js "0"))
                      then if negb (isResolved r)
                           then Returned (get message (js "0")) else r
                      else r)).
  { destruct (status_is_complete _); [|apply kept_refl].
    destruct (isResolved r) eqn:E; cbn [negb]; [apply kept_refl|].
    split; [intros Hr; congruence | intros _; exact I]. }
  destruct (MobileDevice.get_prop _ (js "Status"));
    [destruct (MobileDevice.get_prop _ (js "PercentComplete"))|]; exact H.
Qed.

Lemma receivePlist_kept data r l :
  kept r (fst (receivePlist parseBuffer ToString data r l)).
Proof.
  unfold receivePlist. destruct (parseBuffer data);
    [apply retrieveState_kept | apply kept_refl].
Qed.

Lemma turn_kept w w' : turn w = Some (Return w') -> kept (result w) (result w').
Proof.
  unfold iteration. destruct (length w <=? len (buffer w)); [|discriminate].
  destruct (state w).
  - destruct (readInt32BE (buffer w)); [|discriminate].
    intros H. injection H as <-. apply kept_refl.
  - pose proof (receivePlist_kept (slice (buffer w) 0 (length w))
                                  (result w) (logger w)) as H.
    destruct (receivePlist _ _ _ _ _) as [r' l'].
    intros E. injection E as <-. exact H.
Qed.

Lemma drain_kept fuel :
  forall w w', loop fuel w = Some w' -> kept (result w) (result w').
Proof.
  induction fuel as [|fuel IH]; intros w w'; cbn [drain];
    destruct (turn w) as [[w1|e]|] eqn:E; intros H;
    try discriminate; try (injection H as <-; apply kept_refl).
  eapply kept_trans; [apply (turn_kept _ _ E) | apply IH, H].
Qed.

Lemma onData_kept format w data w' :
  on_data format w data = Some w' -> kept (result w) (result w').
Proof.
  unfold onData. destruct (format =? binary).
  - intros H. apply drain_kept in H. exact H.
  - destruct (format =? xml); intros H; injection H as <-; cbn [result];
      [|apply kept_refl].
    destruct (isResolved (result w)) eqn:E; cbn [negb]; [apply kept_refl|].
    split; [intros Hr; congruence | intros _; exact I].
Qed.

(** X20: the handler of ["data"] never fails the future and never
    changes one that is settled: whatever the chunks and the format, a
    future that was returned or thrown stays as it was, and one that was
    not thrown is not thrown afterwards.  The handler of ["error"] fails
    it, and only while it is pending. *)
Theorem future_is_settled_once format chunks :
  forall w w',
    feed_all format w chunks = Some w' ->
    (isResolved (result w) = true -> result w' = result w)
    /\ (not_thrown (result w) -> not_thrown (result w'))
    /\ (forall error,
           result (onError w error)
           = if isResolved (result w) then result w else Thrown error).
Proof.
  induction chunks as [|data rest IH]; intros w w'; cbn [feed].
  - intros H. injection H as <-. repeat split; try tauto.
    intros error. cbn [onError result]. now destruct (isResolved (result w)).
  - destruct (on_data format w data) as [w1|] eqn:E; [|discriminate].
    intros H. destruct (IH w1 w' H) as (H1 & H2 & _).
    destruct (onData_kept _ _ _ _ E) as [K1 K2]. repeat split.
    + intros Hr. rewrite <- (K1 Hr). apply H1. now rewrite (K1 Hr).
    + tauto.
    + intros error. cbn [onError result]. now destruct (isResolved (result w)).
Qed.

Lemma direct_result r l data :
  fst (one (r, l) data)
  = if isResolved r then r
    else match completes parseBuffer data with
         | Some message => Returned message
         | None => Pending
         end.
Proof.
  unfold direct, completes, receivePlist. cbn [fst snd].
  destruct (parseBuffer data) as [message|e];
    [|now destruct r].
  unfold retrieveState.
  destruct (truthy message && typeof_object message && truthy (get message (js "0")));
    cbn [andb]; [|now destruct r].
  assert (H : (if status_is_complete (get message (js "0"))
               then if negb (isResolved r)
                    then Returned (get message (js "0")) else r
               else r)
              = if isResolved r then r
                else if status_is_complete (get message (js "0"))
                     then Returned (get message (js "0")) else Pending).
  { destruct (status_is_complete _); destruct r; reflexivity. }
  destruct (MobileDevice.get_prop _ (js "Status"));
    [destruct (MobileDevice.get_prop _ (js "PercentComplete"))|];
    cbn [fst]; rewrite H; destruct (isResolved r); try reflexivity;
    now destruct (status_is_complete _).
Qed.

Lemma handled_result frames :
  forall r l,
    fst (fold_left one frames (r, l))
    = if isResolved r then r
      else match first_complete parseBuffer frames with
           | Some message => Returned message
           | None => Pending
           end.
Proof.
  induction frames as [|data rest IH]; intros r l; cbn [fold_left first_complete].
  - now destruct r.
  - destruct (one (r, l) data) as [r1 l1] eqn:E.
    pose proof (direct_result r l data) as H. rewrite E in H. cbn [fst] in H.
    rewrite IH, H. destruct (isResolved r) eqn:Hr; [now rewrite Hr|].
    destruct (completes parseBuffer data); [reflexivity|].
    reflexivity.
Qed.

(** X21: the future of [receiveMessage] is returned with the first
    message of the stream whose [Status] is the string [Complete], and
    stays pending when there is none: this for frames of declarable
    length cut into chunks anywhere, in the binary format. *)
Theorem future_returns_first_complete frames chunks :
  Forall declarable frames ->
  List.concat chunks = stream_of frames ->
  exists w,
    feed_all binary initial chunks = Some w
    /\ result w = match first_complete parseBuffer frames with
                  | Some message => Returned message
                  | None => Pending
                  end.
Proof.
  intros Hsmall Hchunks.
  destruct (feed_frames parseBuffer plist_parse Buffer_toString ToString
                        frames chunks Hsmall Hchunks)
    as (w & Hfeed & Hout & _).
  exists w. split; [exact Hfeed|].
  change (result w) with (fst (result w, logger w)). rewrite Hout.
  unfold handled. now rewrite handled_result.
Qed.

Lemma feed_xml chunks :
  forall w,
    feed_all xml w chunks
    = Some (mkWorld (buffer w ++ List.concat chunks) (state w) (length w)
                    (match chunks with
                     | [] => result w
                     | data :: _ =>
                         if isResolved (result w) then result w
                         else Returned
                                (parsed_or_empty
                                   (plist_parse
                                      (Buffer_toString (buffer w ++ data))))
                     end)
                    (logger w)).
Proof.
  induction chunks as [|data rest IH]; intros w; cbn [feed List.concat].
  - rewrite app_nil_r. now destruct w.
  - unfold onData. change (xml =? binary) with false.
    change (xml =? xml) with true. cbv iota.
    rewrite IH. cbn [buffer state length result logger].
    rewrite <- app_assoc. f_equal. f_equal.
    unfold parsed_or_empty.
    destruct (isResolved (result w)) eqn:E; cbn [negb].
    + destruct rest; [reflexivity | now rewrite E].
    + destruct rest; reflexivity.
Qed.

(** X22: in the XML format nothing is framed and nothing is taken out of
    the buffer.  The first chunk to arrive settles the future, with what
    [plist.parse] makes of that chunk alone, length prefix included, or
    with the empty dictionary when it throws; later chunks are added to
    the buffer and change nothing else; nothing is logged. *)
Theorem xml_reply_is_the_first_chunk data rest :
  feed_all xml initial (data :: rest)
  = Some (mkWorld (data ++ List.concat rest) Length 4
                  (Returned (parsed_or_empty (plist_parse (Buffer_toString data))))
                  []).
Proof. rewrite feed_xml. reflexivity. Qed.

Lemma suffix_of_refl a : suffix_of a a.
Proof. now exists []. Qed.

Lemma suffix_of_trans a b c : suffix_of a b -> suffix_of b c -> suffix_of a c.
Proof.
  intros [x ->] [y ->]. exists (y ++ x). now rewrite app_assoc.
Qed.

Lemma slice_from_suffix (b : Buffer) n : suffix_of (slice_from b n) b.
Proof.
  unfold slice_from, slice.
  assert (He : clamp (len b) (len b) = len b).
  { unfold clamp. pose proof (len_nonneg b).
    replace (len b <? 0) with false by (symmetry; apply Z.ltb_ge; lia).
    apply Z.min_id. }
  rewrite He. destruct (_ <=? _) eqn:E.
  - exists b. now rewrite app_nil_r.
  - apply Z.leb_gt in E.
    assert (Hs : 0 <= clamp (len b) n).
    { unfold clamp. destruct (n <? 0) eqn:En; [lia|].
      apply Z.ltb_ge in En. pose proof (len_nonneg b). lia. }
    set (c := clamp (len b) n) in *.
    assert (Hall : firstn (Z.to_nat (len b - c)) (skipn (Z.to_nat c) b)
                   = skipn (Z.to_nat c) b)
      by (apply firstn_all2; rewrite length_skipn; unfold len in *; lia).
    rewrite Hall. exists (firstn (Z.to_nat c) b).
    symmetry. apply firstn_skipn.
Qed.

Lemma turn_suffix w w' : turn w = Some (Return w') -> suffix_of (buffer w') (buffer w).
Proof.
  unfold iteration. destruct (length w <=? len (buffer w)); [|discriminate].
  destruct (state w).
  - destruct (readInt32BE (buffer w)); [|discriminate].
    intros H. injection H as <-. apply slice_from_suffix.
  - destruct (receivePlist _ _ _ _ _). intros H. injection H as <-.
    apply slice_from_suffix.
Qed.

Lemma drain_suffix fuel :
  forall w w', loop fuel w = Some w' -> suffix_of (buffer w') (buffer w).
Proof.
  induction fuel as [|fuel IH]; intros w w'; cbn [drain];
    destruct (turn w) as [[w1|e]|] eqn:E; intros H;
    try discriminate; try (injection H as <-; apply suffix_of_refl).
  eapply suffix_of_trans; [apply IH, H | apply (turn_suffix _ _ E)].
Qed.

(** X23: the socket makes up no byte and changes the order of none: for
    every format and every sequence of chunks, well formed or not, the
    buffer it is left with is the end of the bytes it held followed by the
    bytes that arrived. *)
Theorem buffer_is_the_end_of_the_stream format chunks :
  forall w w',
    feed_all format w chunks = Some w' ->
    suffix_of (buffer w') (buffer w ++ List.concat chunks).
Proof.
  induction chunks as [|data rest IH]; intros w w'; cbn [feed List.concat].
  - intros H. injection H as <-. rewrite app_nil_r. apply suffix_of_refl.
  - destruct (on_data format w data) as [w1|] eqn:E; [|discriminate].
    intros H. apply IH in H.
    eapply suffix_of_trans; [exact H|].
    assert (H1 : suffix_of (buffer w1) (buffer w ++ data)).
    { unfold onData in E. destruct (format =? binary).
      - apply drain_suffix in E. exact E.
      - destruct (format =? xml); injection E as <-; apply suffix_of_refl. }
    destruct H1 as [front H1]. exists front.
    now rewrite app_assoc, H1, <- app_assoc.
Qed.

(** X24: what [sendMessage] writes for a sequence of messages that are no
    strings, each write arriving as one chunk, a socket of the binary
    format at the other end handles as those messages one by one: the
    encoding of each is parsed whole, in order, and the buffer ends empty,
    provided each encoding has a declarable length.  (A socket of the XML
    format frames nothing, whatever is sent.) *)
Theorem sendMessage_is_received messages format :
  Forall framed_message messages ->
  Forall (fun m => declarable (dictToPlistEncoding m format)) messages ->
  exists w,
    feed_all binary initial
             (flat_map (fun m => sendMessage dictToPlistEncoding m format) messages)
    = Some w
    /\ (result w, logger w)
       = outcome (map (fun m => dictToPlistEncoding m format) messages)
    /\ buffer w = [].
Proof.
  intros Hframed Hsmall.
  destruct (feed_frames parseBuffer plist_parse Buffer_toString ToString
              (map (fun m => dictToPlistEncoding m format) messages)
              (flat_map (fun m => sendMessage dictToPlistEncoding m format) messages))
    as (w & Hfeed & Hout & Hbuf & _).
  - apply Forall_map. exact Hsmall.
  - unfold stream_of. clear Hsmall.
    induction Hframed as [|m rest Hm _ IH]; [reflexivity|].
    cbn [flat_map map List.concat]. rewrite concat_app, IH. f_equal.
    unfold sendMessage, frame. destruct m; try contradiction;
      cbn [List.concat]; now rewrite app_nil_r.
  - exists w. now repeat split.
Qed.

End MoreStreaming.

Section MoreStreamingExamples.

Import PosixSocket PosixSocketIO WinSocket.

Lemma read_returns_the_whole_buffer_witness :
  len (js "ab" ++ map (fun _ : nat => 63) (seq 2 (Z.to_nat 5 - 2))) = 5.
Proof.
  refine (proj1 (read_returns_the_whole_buffer
                   (fun _ => 63) [Data (js "ab")] 5 _ [] _)).
  vm_compute. reflexivity.
Defined.

(** A future already returned is not touched by a later [Complete]. *)
Lemma future_is_settled_once_witness :
  exists w',
    feed sample_parseBuffer sample_plist_parse sample_Buffer_toString
         sample_ToString kCFPropertyListBinaryFormat_v1_0
         (mkWorld [] Length 4 (Returned (JStr (js "first"))) [])
         [frame (js "Complete")]
    = Some w'
    /\ result w' = Returned (JStr (js "first")).
Proof.
  eexists. split.
  - vm_compute. reflexivity.
  - refine (proj1 (future_is_settled_once
                     sample_parseBuffer sample_plist_parse
                     sample_Buffer_toString sample_ToString
                     kCFPropertyListBinaryFormat_v1_0 [frame (js "Complete")]
                     (mkWorld [] Length 4 (Returned (JStr (js "first"))) [])
                     _ _) _).
    + vm_compute. reflexivity.
    + reflexivity.
Defined.

(** Of the frames [Hi], [Complete] and [Complete] again, in one-byte
    chunks, the second settles the future. *)
Lemma future_returns_first_complete_witness :
  exists w,
    feed sample_parseBuffer sample_plist_parse sample_Buffer_toString
         sample_ToString kCFPropertyListBinaryFormat_v1_0 initial
         (map (fun b => [b]) (stream_of [js "Hi"; js "Complete"; js "Complete"]))
    = Some w
    /\ result w = Returned (JObject [(js "Status", JStr (js "Complete"))]).
Proof.
  exact (future_returns_first_complete
           sample_parseBuffer sample_plist_parse sample_Buffer_toString
           sample_ToString
           [js "Hi"; js "Complete"; js "Complete"]
           (map (fun b => [b]) (stream_of [js "Hi"; js "Complete"; js "Complete"]))
           ltac:(repeat constructor)
           ltac:(vm_compute; reflexivity)).
Defined.

(** After a length of 6 and four bytes of payload, the four bytes wait. *)
Lemma buffer_is_the_end_of_the_stream_witness :
  suffix_of (js "abcd") ([] ++ List.concat [[0; 0; 0; 6]; js "abcd"]).
Proof.
  refine (buffer_is_the_end_of_the_stream
            sample_parseBuffer sample_plist_parse sample_Buffer_toString
            sample_ToString kCFPropertyListBinaryFormat_v1_0
            [[0; 0; 0; 6]; js "abcd"] initial
            (mkWorld (js "abcd") Plist 6 Pending []) _).
  vm_compute. reflexivity.
Defined.

(** Two dictionaries sent one after the other, with an encoding that
    stands in for the one of CoreFoundation. *)
Lemma sendMessage_is_received_witness :
  exists w,
    feed sample_parseBuffer sample_plist_parse sample_Buffer_toString
         sample_ToString kCFPropertyListBinaryFormat_v1_0 initial
         (flat_map (fun m => PosixSocketIO.sendMessage
                               (fun _ _ => js "Complete") m 200)
                   [JObject []; JObject []])
    = Some w
    /\ (result w, logger w)
       = handled sample_parseBuffer sample_ToString
                 (map (fun m => (fun _ _ => js "Complete") m 200)
                      [JObject []; JObject []])
    /\ buffer w = [].
Proof.
  apply (sendMessage_is_received
           sample_parseBuffer sample_plist_parse sample_Buffer_toString
           sample_ToString (fun _ _ => js "Complete")
           [JObject []; JObject []] 200).
  - repeat constructor.
  - repeat constructor.
Defined.

End MoreStreamingExamples.

(** ** The signal: adding and removing listeners *)

Section SignalRegistry.

Import Signal.

Local Abbreviation prio := SignalBinding.priority.
Local Abbreviation ident := SignalBinding.id.

Lemma sorted_app {A} (R : A -> A -> Prop) l1 l2 :
  StronglySorted R (l1 ++ l2) <->
  StronglySorted R l1 /\ StronglySorted R l2
  /\ Forall (fun a => Forall (R a) l2) l1.
Proof.
  induction l1 as [|a l1 IH]; simpl.
  - split.
    + intros H. repeat split; [constructor | exact H | constructor].
    + intros (_ & H & _). exact H.
  - split.
    + intros H. inversion H as [|? ? Hs Hf]; subst.
      apply IH in Hs as (A1 & A2 & A3).
      apply Forall_app in Hf as [F1 F2].
      repeat split; [constructor; assumption | assumption
                    | constructor; assumption].
    + intros (A1 & A2 & A3).
      inversion A1 as [|? ? Hs Hf]; subst.
      inversion A3 as [|? ? Ha Hrest]; subst.
      constructor.
      * apply IH. repeat split; assumption.
      * apply Forall_app. split; assumption.
Qed.

Lemma no_dup_insert {A} (a : A) l1 l2 :
  NoDup (l1 ++ l2) -> ~ In a (l1 ++ l2) -> NoDup (l1 ++ a :: l2).
Proof.
  induction l1 as [|x l1 IH]; simpl; intros Hn Hi.
  - constructor; assumption.
  - inversion Hn as [|? ? Hx Hrest]; subst.
    constructor.
    + intros Hin. apply in_app_or in Hin as [Hin | [Hin | Hin]].
      * apply Hx, in_or_app. left. exact Hin.
      * apply Hi. left. symmetry. exact Hin.
      * apply Hx, in_or_app. right. exact Hin.
    + apply IH; [exact Hrest | intros Hin; apply Hi; right; exact Hin].
Qed.

Lemma insertion_point_below bs x n p :
  (n <= List.length bs)%nat ->
  insertion_point (bs ++ x) n p = insertion_point bs n p.
Proof.
  induction n as [|n IH]; simpl; intros Hn; [reflexivity|].
  rewrite nth_error_app1 by lia.
  destruct (nth_error bs n) as [cur|]; [|reflexivity].
  destruct (p <=? prio cur); [apply IH; lia | reflexivity].
Qed.

Lemma insertion_point_snoc bs x p :
  insertion_point (bs ++ [x]) (List.length (bs ++ [x])) p
  = if p <=? prio x then insertion_point bs (List.length bs) p
    else S (List.length bs).
Proof.
  rewrite length_app, Nat.add_1_r. simpl.
  rewrite nth_error_app2, Nat.sub_diag by lia. simpl.
  destruct (p <=? prio x); [|reflexivity].
  apply insertion_point_below. lia.
Qed.

Lemma insertion_splits bs p :
  in_priority_order bs ->
  exists front back,
    bs = front ++ back
    /\ insertion_point bs (List.length bs) p = List.length front
    /\ Forall (fun c => prio c < p) front
    /\ Forall (fun c => p <= prio c) back.
Proof.
  unfold in_priority_order.
  induction bs as [|x bs IH] using rev_ind; intros Hs.
  - exists [], []. repeat split; constructor.
  - apply sorted_app in Hs as (Hbs & _ & Hx).
    rewrite insertion_point_snoc.
    destruct (p <=? prio x) eqn:Hp.
    + destruct (IH Hbs) as (front & back & E & Hk & Hf & Hb).
      exists front, (back ++ [x]). repeat split.
      * rewrite E at 1. symmetry; apply app_assoc.
      * exact Hk.
      * exact Hf.
      * apply Forall_app. split; [exact Hb|].
        constructor; [apply Z.leb_le; exact Hp | constructor].
    + exists (bs ++ [x]), []. repeat split.
      * symmetry; apply app_nil_r.
      * rewrite length_app, Nat.add_1_r. reflexivity.
      * apply Z.leb_gt in Hp.
        apply Forall_app. split; [|constructor; [exact Hp | constructor]].
        eapply Forall_impl; [|exact Hx].
        intros a Ha. inversion Ha; subst. simpl in *. lia.
      * constructor.
Qed.

Lemma splice_in_at front back b :
  splice_in (front ++ back) (List.length front) b = front ++ b :: back.
Proof.
  unfold splice_in.
  induction front as [|x front IH]; simpl; [reflexivity|].
  f_equal. exact IH.
Qed.

Lemma splice_out_at front back b :
  splice_out (front ++ b :: back) (List.length front) = front ++ back.
Proof.
  unfold splice_out.
  induction front as [|x front IH]; simpl; [reflexivity|].
  f_equal. exact IH.
Qed.

Lemma insertion_keeps_order front back b :
  in_priority_order (front ++ back) ->
  Forall (fun c => prio c < prio b) front ->
  Forall (fun c => prio b <= prio c) back ->
  in_priority_order (front ++ b :: back).
Proof.
  unfold in_priority_order. intros Hs Hf Hb.
  apply sorted_app in Hs as (S1 & S2 & S3).
  apply sorted_app. repeat split.
  - exact S1.
  - constructor; assumption.
  - rewrite Forall_forall in *. intros a Ha.
    constructor; [specialize (Hf a Ha); simpl in Hf; lia | exact (S3 a Ha)].
Qed.


Lemma same_context_eq a b : same_context a b = true <-> a = b.
Proof.
  destruct a as [x|], b as [y|]; simpl; split; intros H;
    try discriminate; try reflexivity.
  - apply Nat.eqb_eq in H. subst. reflexivity.
  - injection H as ->. apply Nat.eqb_refl.
Qed.

Lemma is_bound_to_pair b l c :
  is_bound_to b l c = true <-> bound_pair b = (l, c).
Proof.
  unfold is_bound_to, bound_pair. rewrite andb_true_iff, Nat.eqb_eq, same_context_eq.
  split; [intros [-> ->]; reflexivity | intros H; injection H; auto].
Qed.

Lemma not_bound_to_pair b l c :
  is_bound_to b l c = false <-> bound_pair b <> (l, c).
Proof.
  rewrite <- is_bound_to_pair. destruct (is_bound_to b l c); split; congruence.
Qed.

Lemma indexOf_below bs x n l c :
  (n <= List.length bs)%nat ->
  _indexOfListener_loop (bs ++ x) n l c = _indexOfListener_loop bs n l c.
Proof.
  induction n as [|n IH]; simpl; intros Hn; [reflexivity|].
  rewrite nth_error_app1 by lia.
  destruct (nth_error bs n) as [cur|]; [|apply IH; lia].
  destruct (is_bound_to cur l c); [reflexivity | apply IH; lia].
Qed.

Lemma indexOf_snoc bs x l c :
  _indexOfListener_loop (bs ++ [x]) (List.length (bs ++ [x])) l c
  = if is_bound_to x l c then Some (List.length bs)
    else _indexOfListener_loop bs (List.length bs) l c.
Proof.
  rewrite length_app, Nat.add_1_r. simpl.
  rewrite nth_error_app2, Nat.sub_diag by lia. simpl.
  destruct (is_bound_to x l c); [reflexivity|].
  apply indexOf_below. lia.
Qed.

Lemma indexOf_none bs l c :
  _indexOfListener_loop bs (List.length bs) l c = None <->
  Forall (fun b => is_bound_to b l c = false) bs.
Proof.
  induction bs as [|x bs IH] using rev_ind.
  - simpl. split; [constructor | reflexivity].
  - rewrite indexOf_snoc, Forall_app.
    destruct (is_bound_to x l c) eqn:Hx.
    + split; [discriminate|].
      intros [_ H]. inversion H; congruence.
    + rewrite IH. split; [intros H; split; [exact H | repeat constructor; exact Hx]
                         | intros [H _]; exact H].
Qed.

Lemma indexOf_some bs l c i :
  _indexOfListener_loop bs (List.length bs) l c = Some i ->
  exists front b back,
    bs = front ++ b :: back /\ List.length front = i
    /\ is_bound_to b l c = true
    /\ Forall (fun b => is_bound_to b l c = false) back.
Proof.
  induction bs as [|x bs IH] using rev_ind.
  - discriminate.
  - rewrite indexOf_snoc.
    destruct (is_bound_to x l c) eqn:Hx.
    + intros H. injection H as <-.
      exists bs, x, []. repeat split; [exact Hx | constructor].
    + intros H. destruct (IH H) as (front & b & back & E & Hi & Hb & Hrest).
      exists front, b, (back ++ [x]). repeat split.
      * rewrite E, <- app_assoc. reflexivity.
      * exact Hi.
      * exact Hb.
      * apply Forall_app. split; [exact Hrest | repeat constructor; exact Hx].
Qed.

Lemma has_existsb s l c :
  has s l c = existsb (fun b => is_bound_to b l c) (_bindings s).
Proof.
  unfold has, _indexOfListener.
  induction (_bindings s) as [|x bs IH] using rev_ind; [reflexivity|].
  rewrite indexOf_snoc, existsb_app. simpl.
  destruct (is_bound_to x l c).
  - rewrite orb_true_r. reflexivity.
  - rewrite !orb_false_r. exact IH.
Qed.

Lemma has_pair s l c :
  has s l c = true <-> In (l, c) (map bound_pair (_bindings s)).
Proof.
  rewrite has_existsb, existsb_exists, in_map_iff.
  split; intros (b & H1 & H2); exists b.
  - split; [apply is_bound_to_pair; exact H2 | exact H1].
  - split; [exact H2 | apply is_bound_to_pair; exact H1].
Qed.

Lemma has_found s l c :
  has s l c = true ->
  exists i b,
    _indexOfListener s l c = Some i
    /\ nth_error (_bindings s) i = Some b
    /\ In b (_bindings s) /\ bound_pair b = (l, c).
Proof.
  intros Hh. unfold has in Hh.
  destruct (_indexOfListener s l c) as [i|] eqn:Hi; [|discriminate].
  pose proof Hi as Hi'. unfold _indexOfListener in Hi'.
  apply indexOf_some in Hi' as (front & b & back & E & Hl & Hb & _).
  exists i, b. split; [reflexivity|]. split.
  - rewrite E, <- Hl, nth_error_app2, Nat.sub_diag by lia. reflexivity.
  - split; [rewrite E; apply in_or_app; right; left; reflexivity|].
    apply is_bound_to_pair; exact Hb.
Qed.

Lemma indexOf_at front b back :
  bound_once (front ++ b :: back) ->
  _indexOfListener_loop (front ++ b :: back)
    (List.length (front ++ b :: back))
    (SignalBinding._listener b) (SignalBinding.context b)
  = Some (List.length front).
Proof.
  unfold bound_once. intros Hn.
  destruct (_indexOfListener_loop (front ++ b :: back)
              (List.length (front ++ b :: back))
              (SignalBinding._listener b) (SignalBinding.context b))
    as [i|] eqn:Hi.
  - apply indexOf_some in Hi as (front' & b' & back' & E & Hl & Hb & _).
    apply is_bound_to_pair in Hb.
    rewrite map_app in Hn. simpl in Hn.
    assert (Hsplit : map bound_pair front ++ bound_pair b :: map bound_pair back
                     = map bound_pair front' ++ bound_pair b :: map bound_pair back').
    { change (bound_pair b) with (SignalBinding._listener b, SignalBinding.context b) at 2.
      rewrite <- Hb.
      change (map bound_pair front' ++ bound_pair b' :: map bound_pair back')
        with (map bound_pair front' ++ map bound_pair (b' :: back')).
      rewrite <- map_app, <- E, map_app. reflexivity. }
    assert (Hlen : List.length (map bound_pair front) = List.length (map bound_pair front')).
    { revert Hn Hsplit. generalize (bound_pair b) as k.
      generalize (map bound_pair back) as r, (map bound_pair back') as r'.
      generalize (map bound_pair front') as f'.
      induction (map bound_pair front) as [|x f IH]; intros f' r r' k Hn Hsplit.
      - destruct f' as [|y f']; [reflexivity|].
        simpl in *. injection Hsplit as <- Hrest.
        inversion Hn as [|? ? Hk _]; subst.
        exfalso. apply Hk. apply in_or_app. right. left. reflexivity.
      - destruct f' as [|y f'].
        + simpl in *. injection Hsplit as -> Hrest.
          inversion Hn as [|? ? Hk _]; subst.
          exfalso. apply Hk. apply in_or_app. right. left. reflexivity.
        + simpl in *. injection Hsplit as <- Hrest.
          inversion Hn; subst. f_equal. eapply IH; eassumption. }
    rewrite !length_map in Hlen. congruence.
  - apply indexOf_none in Hi. apply Forall_app in Hi as [_ Hi].
    inversion Hi as [|? ? Hb _]; subst.
    apply not_bound_to_pair in Hb. exfalso. apply Hb. reflexivity.
Qed.

Section WithListeners.

Variable World : Type.
Variable call :
  nat -> option nat -> list JSValue -> t * World -> Outcome bool * (t * World).

(** Registering a listener that the signal has not. *)
Lemma register_new l once c priority s w :
  nothing_memorized s ->
  has s l c = false ->
  well_kept s ->
  exists b s',
    _registerListener World call l once c priority (s, w) = (Done b, (s', w))
    /\ bound_pair b = (l, c)
    /\ SignalBinding._isOnce b = once
    /\ has s' l c = true
    /\ (forall l' c', has s' l' c' = true <->
                      has s l' c' = true \/ (l', c') = (l, c))
    /\ getNumListeners s' = S (getNumListeners s)
    /\ well_kept s'.
Proof.
  intros Hm Hh (Hs & Hb & Hn & Hi).
  assert (Hnone : _indexOfListener s l c = None).
  { unfold has in Hh. destruct (_indexOfListener s l c); [discriminate | reflexivity]. }
  set (b := SignalBinding.mk (allocated s) l once c
              (match priority with Some p => p | None => 0 end) true None).
  destruct (insertion_splits (_bindings s) (prio b) Hs)
    as (front & back & E & Hk & Hf & Hbk).
  assert (Hnew : _bindings (_addBinding s b) = front ++ b :: back).
  { unfold _addBinding. cbn [_bindings]. rewrite Hk. rewrite E at 1. apply splice_in_at. }
  set (s' := mk (front ++ b :: back) (_prevParams s) (memorize s)
                (_shouldPropagate s) (active s) (S (allocated s))).
  exists b, s'.
  assert (Hfresh : forall l' c', has s' l' c' = true <->
                      has s l' c' = true \/ (l', c') = (l, c)).
  { intros l' c'. rewrite !has_existsb. simpl. rewrite E, !existsb_app. simpl.
    rewrite !orb_true_iff, is_bound_to_pair. unfold bound_pair, b; simpl.
    split; [intros [H|[H|H]] | intros [[H|H]|H]]; auto. }
  split; [|split; [reflexivity|split; [reflexivity|split; [|split; [exact Hfresh|split]]]]].
  - unfold _registerListener. cbn [fst snd]. rewrite Hnone. cbv zeta. fold b.
    rewrite Hnew. unfold _addBinding.
    cbn [memorize _prevParams _shouldPropagate active allocated]. fold s'.
    destruct Hm as [Hm | Hm]; rewrite Hm.
    + reflexivity.
    + destruct (memorize s); reflexivity.
  - apply Hfresh. right. reflexivity.
  - unfold getNumListeners. simpl. rewrite E, !length_app. simpl. lia.
  - split; [|split; [|split]].
    + simpl. rewrite E in Hs. apply insertion_keeps_order; assumption.
    + unfold bound_once in *. simpl. rewrite map_app. simpl.
      apply no_dup_insert.
      * rewrite <- map_app, <- E. exact Hb.
      * rewrite <- map_app, <- E. intros Hin.
        apply has_pair in Hin. unfold bound_pair, b in Hin; simpl in Hin. congruence.
    + simpl. rewrite map_app. simpl. apply no_dup_insert.
      * rewrite <- map_app, <- E. exact Hn.
      * rewrite <- map_app, <- E. intros Hin.
        apply in_map_iff in Hin as (x & Hx & Hin).
        rewrite Forall_forall in Hi. specialize (Hi x Hin). lia.
    + simpl. rewrite E in Hi. apply Forall_app in Hi as [H1 H2].
      apply Forall_app. split; [|constructor; [simpl; lia|]].
      * eapply Forall_impl; [|exact H1]. intros x Hx. simpl in Hx. lia.
      * eapply Forall_impl; [|exact H2]. intros x Hx. simpl in Hx. lia.
Qed.

(** Registering a listener that the signal has already. *)
Lemma register_again l once c priority s w i b :
  nothing_memorized s ->
  _indexOfListener s l c = Some i ->
  nth_error (_bindings s) i = Some b ->
  _registerListener World call l once c priority (s, w)
  = (if Bool.eqb (SignalBinding._isOnce b) once then Done b
     else Error (js "You cannot add" ++ (if once then [] else js "Once")
                 ++ js "() then add"
                 ++ (if negb once then [] else js "Once")
                 ++ js "() the same listener without removing the relationship first."),
     (s, w)).
Proof.
  intros Hm Hi Hnth.
  unfold _registerListener. cbn [fst snd]. rewrite Hi, Hnth.
  destruct (Bool.eqb (SignalBinding._isOnce b) once); [|reflexivity].
  destruct Hm as [Hm | Hm]; rewrite Hm.
  - reflexivity.
  - destruct (memorize s); reflexivity.
Qed.

End WithListeners.

(** X25: [Signal._addBinding] puts a binding after the bindings of
    lower priority and before those of the same or a higher priority, so
    that bindings in the order of their priorities stay in that order and,
    [dispatch] going through them from the end, a listener is called
    after those of its priority that were added before it. *)
Theorem _addBinding_keeps_priority_order s b :
  in_priority_order (_bindings s) ->
  exists front back,
    _bindings s = front ++ back
    /\ _bindings (_addBinding s b) = front ++ b :: back
    /\ Forall (fun c => SignalBinding.priority c < SignalBinding.priority b) front
    /\ Forall (fun c => SignalBinding.priority b <= SignalBinding.priority c) back
    /\ in_priority_order (_bindings (_addBinding s b)).
Proof.
  intros Hs.
  destruct (insertion_splits (_bindings s) (prio b) Hs)
    as (front & back & E & Hk & Hf & Hbk).
  assert (Hnew : _bindings (_addBinding s b) = front ++ b :: back).
  { unfold _addBinding. cbn [_bindings]. rewrite Hk. rewrite E at 1.
    apply splice_in_at. }
  exists front, back.
  split; [exact E|]. split; [exact Hnew|].
  split; [exact Hf|]. split; [exact Hbk|].
  rewrite Hnew. rewrite E in Hs. apply insertion_keeps_order; assumption.
Qed.

(** X26: [Signal.add] and [Signal.addOnce] of a listener the signal has
    not in that context, nothing being memorized: the call returns a new
    binding of that listener and context and calls no listener; the
    signal then has the listener, has one listener more, has besides it
    exactly what it had, and is still well kept. *)
Theorem add_registers_a_new_listener
  (World : Type)
  (call : nat -> option nat -> list JSValue -> t * World
          -> Outcome bool * (t * World))
  (once : bool) l c priority s (w : World) :
  nothing_memorized s ->
  has s l c = false ->
  well_kept s ->
  exists b s',
    (if once then addOnce World call (Some l) c priority (s, w)
     else add World call (Some l) c priority (s, w)) = (Done b, (s', w))
    /\ bound_pair b = (l, c)
    /\ SignalBinding._isOnce b = once
    /\ has s' l c = true
    /\ (forall l' c', has s' l' c' = true <->
                      has s l' c' = true \/ (l', c') = (l, c))
    /\ getNumListeners s' = S (getNumListeners s)
    /\ well_kept s'.
Proof.
  intros Hm Hh Hk.
  destruct (register_new World call l once c priority s w Hm Hh Hk)
    as (b & s' & H).
  exists b, s'. destruct once; exact H.
Qed.

(** X27: [Signal.add] and [Signal.addOnce] of a listener the signal has
    already in that context, nothing being memorized: neither changes the
    signal nor calls a listener; the method the listener was added with
    returns the binding there is and the other one throws. *)
Theorem adding_again_changes_nothing
  (World : Type)
  (call : nat -> option nat -> list JSValue -> t * World
          -> Outcome bool * (t * World))
  l c priority s (w : World) :
  nothing_memorized s ->
  has s l c = true ->
  exists b,
    In b (_bindings s) /\ bound_pair b = (l, c)
    /\ add World call (Some l) c priority (s, w)
       = (if SignalBinding._isOnce b
          then Error (js "You cannot addOnce() then add() the same listener without removing the relationship first.")
          else Done b,
          (s, w))
    /\ addOnce World call (Some l) c priority (s, w)
       = (if SignalBinding._isOnce b
          then Done b
          else Error (js "You cannot add() then addOnce() the same listener without removing the relationship first."),
          (s, w)).
Proof.
  intros Hm Hh.
  destruct (has_found s l c Hh) as (i & b & Hi & Hnth & Hin & Hp).
  exists b. split; [exact Hin|]. split; [exact Hp|]. split.
  - unfold add. cbn [validateListener].
    rewrite (register_again World call l false c priority s w i b Hm Hi Hnth).
    destruct (SignalBinding._isOnce b); reflexivity.
  - unfold addOnce. cbn [validateListener].
    rewrite (register_again World call l true c priority s w i b Hm Hi Hnth).
    destruct (SignalBinding._isOnce b); reflexivity.
Qed.

(** X28: [Signal.remove] on a well kept signal returns the listener
    and leaves a well kept signal that has not the listener in that
    context any more, has every other listener and context it had, and
    has one listener fewer when it had the one removed. *)
Theorem remove_unregisters s l c :
  well_kept s ->
  exists s',
    remove s (Some l) c = (Done l, s')
    /\ has s' l c = false
    /\ (forall l' c', (l', c') <> (l, c) -> has s' l' c' = has s l' c')
    /\ getNumListeners s'
       = (getNumListeners s - (if has s l c then 1 else 0))%nat
    /\ well_kept s'.
Proof.
  intros (Hs & Hb & Hn & Hi).
  unfold remove. cbn [validateListener].
  eexists. split; [reflexivity|].
  unfold remove_bound.
  destruct (has s l c) eqn:Hh.
  - unfold has in Hh.
    destruct (_indexOfListener s l c) as [i|] eqn:Hidx; [|discriminate].
    pose proof Hidx as Hidx'. unfold _indexOfListener in Hidx'.
    apply indexOf_some in Hidx' as (front & b & back & E & Hl & Hbound & _).
    apply is_bound_to_pair in Hbound.
    rewrite E, <- Hl, splice_out_at.
    unfold bound_once in Hb. rewrite E, map_app in Hb. simpl in Hb.
    split; [|split; [|split]].
    + destruct (has _ l c) eqn:Hh'; [|reflexivity].
      apply has_pair in Hh'. cbn [_bindings] in Hh'.
      apply NoDup_remove_2 in Hb. rewrite Hbound, <- map_app in Hb.
      contradiction.
    + intros l' c' Hne. rewrite !has_existsb. cbn [_bindings].
      rewrite E, !existsb_app. simpl.
      assert (Hnot : is_bound_to b l' c' = false).
      { apply not_bound_to_pair. congruence. }
      rewrite Hnot. reflexivity.
    + unfold getNumListeners. cbn [_bindings].
      rewrite E, !length_app. simpl. lia.
    + split; [|split; [|split]]; cbn [_bindings allocated].
      * unfold in_priority_order in *. rewrite E in Hs.
        apply sorted_app in Hs as (S1 & S2 & S3).
        inversion S2 as [|? ? S2' _]; subst.
        apply sorted_app. split; [exact S1|]. split; [exact S2'|].
        eapply Forall_impl; [|exact S3].
        intros a Ha. inversion Ha; assumption.
      * unfold bound_once. rewrite map_app.
        apply NoDup_remove_1 in Hb. exact Hb.
      * rewrite E, map_app in Hn. simpl in Hn.
        apply NoDup_remove_1 in Hn. rewrite map_app. exact Hn.
      * rewrite E in Hi. apply Forall_app in Hi as [H1 H2].
        inversion H2; subst. apply Forall_app. split; assumption.
  - unfold has in Hh.
    destruct (_indexOfListener s l c) as [i|] eqn:Hidx; [discriminate|].
    split; [unfold has; rewrite Hidx; reflexivity|].
    split; [reflexivity|].
    split; [lia|].
    repeat split; assumption.
Qed.

End SignalRegistry.

(** ** The signal: dispatching *)

Section SignalDispatch.

Import Signal.

Lemma alive_at s front b back :
  _bindings s = front ++ b :: back ->
  NoDup (map SignalBinding.id (_bindings s)) ->
  alive s (SignalBinding.id b) = Some b.
Proof.
  unfold alive. intros -> Hn.
  induction front as [|x front IH]; simpl in *.
  - rewrite Nat.eqb_refl. reflexivity.
  - inversion Hn as [|? ? Hx Hrest]; subst.
    destruct (SignalBinding.id x =? SignalBinding.id b)%nat eqn:Hid.
    + apply Nat.eqb_eq in Hid. exfalso. apply Hx. rewrite Hid.
      rewrite map_app. apply in_or_app. right. left. reflexivity.
    + apply IH. exact Hrest.
Qed.

Lemma dispatch_loop_halted ids ps s (w : Log) stops halts :
  _shouldPropagate s = false ->
  dispatch_loop Log (scripted stops halts) ids ps (s, w) = (Done tt, (s, w)).
Proof.
  intros H. destruct ids as [|bid rest]; simpl; [reflexivity|].
  rewrite H. reflexivity.
Qed.

Lemma remove_bound_at s front b back :
  _bindings s = front ++ b :: back ->
  bound_once (_bindings s) ->
  remove_bound s (SignalBinding._listener b) (SignalBinding.context b)
  = mk (front ++ back) (_prevParams s) (memorize s) (_shouldPropagate s)
       (active s) (allocated s).
Proof.
  intros E Hb. unfold remove_bound, _indexOfListener.
  rewrite E in *. rewrite indexOf_at by exact Hb.
  rewrite splice_out_at. reflexivity.
Qed.


Lemma filter_cons_if {A} (f : A -> bool) a l :
  filter f (a :: l) = if f a then a :: filter f l else filter f l.
Proof. reflexivity. Qed.

Lemma execute_scripted stops halts ps s (w : Log) front b back :
  _bindings s = front ++ b :: back ->
  NoDup (map SignalBinding.id (_bindings s)) ->
  bound_once (_bindings s) ->
  SignalBinding.active b = true ->
  execute Log (scripted stops halts) (SignalBinding.id b) ps (s, w)
  = (Done (stops (SignalBinding._listener b)),
     (after_call halts s b (front ++ back), w ++ [call_of ps b])).
Proof.
  intros E Hn Hb Ha.
  unfold execute. cbn [fst snd].
  rewrite (alive_at s front b back E Hn), Ha.
  unfold scripted at 1. cbn [fst snd]. unfold after_call.
  set (s1 := if halts (SignalBinding._listener b) then halt s else s).
  assert (E1 : _bindings s1 = front ++ b :: back).
  { unfold s1. destruct (halts _); exact E. }
  assert (Hn1 : NoDup (map SignalBinding.id (_bindings s1))).
  { unfold s1. destruct (halts _); exact Hn. }
  assert (Hb1 : bound_once (_bindings s1)).
  { unfold s1. destruct (halts _); exact Hb. }
  destruct (SignalBinding._isOnce b); [|reflexivity].
  rewrite (alive_at s1 front b back E1 Hn1).
  rewrite (remove_bound_at s1 front b back E1 Hb1). reflexivity.
Qed.

Lemma dispatch_loop_scripted stops halts ps todo :
  forall s (w : Log) kept,
    _bindings s = rev todo ++ kept ->
    NoDup (map SignalBinding.id (_bindings s)) ->
    bound_once (_bindings s) ->
    _shouldPropagate s = true ->
    exists unvisited s',
      dispatch_loop Log (scripted stops halts) (map SignalBinding.id todo) ps (s, w)
      = (Done tt,
         (s', w ++ map (call_of ps)
                       (filter SignalBinding.active (until_stopped stops halts todo))))
      /\ todo = until_stopped stops halts todo ++ unvisited
      /\ _bindings s'
         = rev unvisited ++ filter stays (rev (until_stopped stops halts todo)) ++ kept
      /\ allocated s' = allocated s.
Proof.
  induction todo as [|b rest IH]; intros s w kept E Hn Hb Hp.
  - exists [], s. simpl. rewrite app_nil_r. repeat split. exact E.
  - simpl in E. rewrite <- app_assoc in E. simpl in E.
    cbn [map dispatch_loop fst]. rewrite Hp.
    cbn [until_stopped]. unfold stopper.
    destruct (SignalBinding.active b) eqn:Ha; cbn [andb].
    + (* the listener is called *)
      rewrite (execute_scripted stops halts ps s w (rev rest) b kept E Hn Hb Ha).
      set (s2 := after_call halts s b (rev rest ++ kept)).
      assert (Hact : filter SignalBinding.active [b] = [b])
        by (rewrite filter_cons_if, Ha; reflexivity).
      assert (Hleft : _bindings s2 = rev rest ++ filter stays (rev [b]) ++ kept).
      { unfold s2, after_call. cbn [rev app]. rewrite filter_cons_if. unfold stays.
        rewrite Ha. destruct (SignalBinding._isOnce b); [reflexivity|].
        destruct (halts _); exact E. }
      assert (Hal : allocated s2 = allocated s).
      { unfold s2, after_call.
        destruct (SignalBinding._isOnce b), (halts _); reflexivity. }
      destruct (stops (SignalBinding._listener b)) eqn:Hst; cbn [orb].
      * exists rest, s2. rewrite Hact. repeat split; [exact Hleft | exact Hal].
      * destruct (halts (SignalBinding._listener b)) eqn:Hh.
        -- exists rest, s2. rewrite Hact. cbv beta iota.
           rewrite dispatch_loop_halted
             by (unfold s2, after_call; rewrite Hh;
                 destruct (SignalBinding._isOnce b); reflexivity).
           repeat split; [exact Hleft | exact Hal].
        -- set (kept2 := if SignalBinding._isOnce b then kept else b :: kept).
           assert (E2 : _bindings s2 = rev rest ++ kept2).
           { unfold s2, after_call, kept2. rewrite Hh.
             destruct (SignalBinding._isOnce b); [reflexivity | exact E]. }
           assert (Hn2 : NoDup (map SignalBinding.id (_bindings s2))).
           { unfold s2, after_call. rewrite Hh.
             destruct (SignalBinding._isOnce b); [|exact Hn].
             cbn [_bindings]. rewrite E, map_app in Hn. simpl in Hn.
             apply NoDup_remove_1 in Hn. rewrite map_app. exact Hn. }
           assert (Hb2 : bound_once (_bindings s2)).
           { unfold s2, after_call. rewrite Hh.
             destruct (SignalBinding._isOnce b); [|exact Hb].
             cbn [_bindings]. unfold bound_once in *.
             rewrite E, map_app in Hb. simpl in Hb.
             apply NoDup_remove_1 in Hb. rewrite map_app. exact Hb. }
           assert (Hp2 : _shouldPropagate s2 = true).
           { unfold s2, after_call. rewrite Hh.
             destruct (SignalBinding._isOnce b); exact Hp. }
           destruct (IH s2 (w ++ [call_of ps b]) kept2 E2 Hn2 Hb2 Hp2)
             as (unvisited & s' & Hrun & Hsplit & Hrest & Hal').
           exists unvisited, s'. split; [|split; [|split; [|congruence]]].
           ++ cbv beta iota. etransitivity; [exact Hrun|].
              rewrite filter_cons_if, Ha. cbn [map].
              rewrite <- app_assoc. reflexivity.
           ++ simpl. f_equal. exact Hsplit.
           ++ rewrite Hrest. cbn [rev]. rewrite filter_app, <- !app_assoc.
              do 2 f_equal. unfold kept2. rewrite filter_cons_if. unfold stays.
              rewrite Ha. destruct (SignalBinding._isOnce b); reflexivity.
    + (* the binding is not active *)
      assert (Hskip : execute Log (scripted stops halts) (SignalBinding.id b) ps (s, w)
                      = (Done false, (s, w))).
      { unfold execute. cbn [fst].
        rewrite (alive_at s (rev rest) b kept E Hn), Ha. reflexivity. }
      rewrite Hskip.
      destruct (IH s w (b :: kept) E Hn Hb Hp)
        as (unvisited & s' & Hrun & Hsplit & Hleft & Hal).
      assert (Hstay : stays b = true) by (unfold stays; rewrite Ha; reflexivity).
      exists unvisited, s'. split; [|split; [|split; [|exact Hal]]].
      * rewrite filter_cons_if, Ha. exact Hrun.
      * simpl. f_equal. exact Hsplit.
      * rewrite Hleft. cbn [rev]. rewrite filter_app.
        rewrite (filter_cons_if stays), Hstay.
        rewrite <- !app_assoc. reflexivity.
Qed.


(** [dispatch] with such listeners on a signal that is active. *)
Lemma dispatch_scripted stops halts ps s (w : Log) :
  active s = true ->
  NoDup (map SignalBinding.id (_bindings s)) ->
  bound_once (_bindings s) ->
  exists unvisited s',
    dispatch Log (scripted stops halts) ps (s, w)
    = (Done tt,
       (s', w ++ map (call_of ps)
                     (filter SignalBinding.active
                        (until_stopped stops halts (rev (_bindings s))))))
    /\ rev (_bindings s)
       = until_stopped stops halts (rev (_bindings s)) ++ unvisited
    /\ _bindings s'
       = rev unvisited
         ++ filter stays (rev (until_stopped stops halts (rev (_bindings s))))
    /\ allocated s' = allocated s.
Proof.
  intros Ha Hn Hb.
  unfold dispatch. cbn [fst snd]. cbv zeta.
  replace (negb (active s)) with false by (rewrite Ha; reflexivity).
  set (s1 := if memorize s
             then mk (_bindings s) (Some ps) (memorize s) (_shouldPropagate s)
                     (active s) (allocated s)
             else s).
  assert (E1 : _bindings s1 = _bindings s)
    by (unfold s1; destruct (memorize s); reflexivity).
  assert (A1 : allocated s1 = allocated s)
    by (unfold s1; destruct (memorize s); reflexivity).
  rewrite E1.
  destruct (_bindings s) as [|b0 bs] eqn:E.
  - exists [], s1. simpl. rewrite app_nil_r.
    repeat split; [exact E1 | exact A1].
  - rewrite <- E in *. rewrite <- map_rev.
    set (s2 := mk (_bindings s) (_prevParams s1) (memorize s1) true
                  (active s1) (allocated s1)).
    destruct (dispatch_loop_scripted stops halts ps (rev (_bindings s)) s2 w [])
      as (unvisited & s' & Hrun & Hsplit & Hleft & Hal).
    + cbn [_bindings s2]. rewrite rev_involutive, app_nil_r. reflexivity.
    + exact Hn.
    + exact Hb.
    + reflexivity.
    + exists unvisited, s'. split; [exact Hrun|]. split; [exact Hsplit|].
      split; [rewrite Hleft, app_nil_r; reflexivity|].
      rewrite Hal. exact A1.
Qed.

Lemma sorted_rev {A} (R : A -> A -> Prop) l :
  StronglySorted R l -> StronglySorted (fun a b => R b a) (rev l).
Proof.
  induction 1 as [|a l Hs IH Hf]; simpl; [constructor|].
  apply sorted_app. split; [exact IH|]. split; [repeat constructor|].
  rewrite Forall_forall in *. intros x Hx. apply in_rev in Hx.
  constructor; [apply Hf; exact Hx | constructor].
Qed.

Lemma sorted_filter {A} (R : A -> A -> Prop) f l :
  StronglySorted R l -> StronglySorted R (filter f l).
Proof.
  induction 1 as [|a l Hs IH Hf]; simpl; [constructor|].
  destruct (f a); [|exact IH].
  constructor; [exact IH|].
  rewrite Forall_forall in *. intros x Hx. apply filter_In in Hx as [Hx _].
  apply Hf. exact Hx.
Qed.

Lemma no_dup_map_filter {A B} (g : A -> B) f l :
  NoDup (map g l) -> NoDup (map g (filter f l)).
Proof.
  induction l as [|a l IH]; simpl; intros Hn; [constructor|].
  inversion Hn as [|? ? Ha Hrest]; subst.
  destruct (f a); [|apply IH; exact Hrest].
  simpl. constructor; [|apply IH; exact Hrest].
  intros Hin. apply Ha. apply in_map_iff in Hin as (x & <- & Hx).
  apply filter_In in Hx as [Hx _]. apply in_map. exact Hx.
Qed.

Lemma until_stopped_quiet todo :
  until_stopped (fun _ => false) (fun _ => false) todo = todo.
Proof.
  induction todo as [|b rest IH]; simpl; [reflexivity|].
  unfold stopper. rewrite andb_false_r. f_equal. exact IH.
Qed.

(** X29: [Signal.dispatch] on an active, well kept signal whose
    listeners only note their call, return [false] or call [halt]: it
    returns, having called the listeners of the active bindings from the
    last binding down to the first one whose listener returns [false] or
    calls [halt], each once and with the parameters of its binding before
    those dispatched; so the listeners are called by falling priority. *)
Theorem dispatch_calls_by_priority_until_stopped stops halts ps s (w : Log) :
  active s = true ->
  well_kept s ->
  (exists s',
     dispatch Log (scripted stops halts) ps (s, w)
     = (Done tt,
        (s', w ++ map (call_of ps)
                      (filter SignalBinding.active
                         (until_stopped stops halts (rev (_bindings s)))))))
  /\ StronglySorted
       (fun a b => SignalBinding.priority b <= SignalBinding.priority a)
       (filter SignalBinding.active
          (until_stopped stops halts (rev (_bindings s)))).
Proof.
  intros Ha (Hs & Hb & Hn & _).
  destruct (dispatch_scripted stops halts ps s w Ha Hn Hb)
    as (unvisited & s' & Hrun & Hsplit & _).
  split; [exists s'; exact Hrun|].
  apply sorted_filter.
  apply sorted_rev in Hs. rewrite Hsplit in Hs.
  apply sorted_app in Hs as (H & _). exact H.
Qed.

(** X30: [Signal.dispatch] on an active, well kept signal whose
    listeners only note their call: every active binding has its listener
    called, the last binding first, and afterwards the signal is left
    with the bindings that are not both active and once, in their order,
    and is still well kept. *)
Theorem dispatch_drops_once_bindings ps s (w : Log) :
  active s = true ->
  well_kept s ->
  exists s',
    dispatch Log quiet ps (s, w)
    = (Done tt,
       (s', w ++ map (call_of ps)
                     (filter SignalBinding.active (rev (_bindings s)))))
    /\ _bindings s' = filter stays (_bindings s)
    /\ well_kept s'.
Proof.
  intros Ha (Hs & Hb & Hn & Hi).
  destruct (dispatch_scripted (fun _ => false) (fun _ => false) ps s w Ha Hn Hb)
    as (unvisited & s' & Hrun & Hsplit & Hleft & Hal).
  rewrite until_stopped_quiet in *.
  assert (Hnone : unvisited = []).
  { apply (app_inv_head (rev (_bindings s))).
    rewrite app_nil_r. symmetry. exact Hsplit. }
  subst unvisited. rewrite rev_involutive in Hleft. simpl in Hleft.
  exists s'. split; [exact Hrun|]. split; [exact Hleft|].
  split; [|split; [|split]]; rewrite Hleft.
  - apply sorted_filter. exact Hs.
  - apply no_dup_map_filter. exact Hb.
  - apply no_dup_map_filter. exact Hn.
  - rewrite Hal. rewrite Forall_forall in *. intros x Hx.
    apply filter_In in Hx as [Hx _]. apply Hi. exact Hx.
Qed.

End SignalDispatch.

Section SignalExamples.

Import Signal.

Lemma sample_signal_well_kept : well_kept sample_signal.
Proof.
  split; [|split; [|split]].
  - repeat constructor; simpl; lia.
  - unfold bound_once. simpl.
    repeat constructor; simpl; intuition discriminate.
  - simpl. repeat constructor; simpl; intuition discriminate.
  - simpl. repeat constructor; simpl; lia.
Qed.


Lemma _addBinding_keeps_priority_order_witness :
  in_priority_order (_bindings sample_signal)
  /\ _bindings (_addBinding sample_signal (SignalBinding.mk 3 4 false None 5 true None))
     = [ SignalBinding.mk 0 7 false None 0 true None;
         SignalBinding.mk 3 4 false None 5 true None;
         SignalBinding.mk 2 9 false (Some 1%nat) 5 false None;
         SignalBinding.mk 1 8 true None 5 true (Some [JNum 1]) ]
  /\ in_priority_order
       (_bindings (_addBinding sample_signal
                     (SignalBinding.mk 3 4 false None 5 true None))).
Proof.
  assert (H : in_priority_order (_bindings sample_signal))
    by (repeat constructor; simpl; lia).
  split; [exact H|]. split; [reflexivity|].
  destruct (_addBinding_keeps_priority_order sample_signal
              (SignalBinding.mk 3 4 false None 5 true None) H)
    as (front & back & _ & _ & _ & _ & Hs).
  exact Hs.
Defined.

Lemma add_registers_a_new_listener_witness :
  nothing_memorized sample_signal
  /\ has sample_signal 5 None = false
  /\ well_kept sample_signal
  /\ exists b s',
       addOnce unit (fun _ _ _ sw => (Done false, sw)) (Some 5%nat) None (Some 3)
               (sample_signal, tt) = (Done b, (s', tt))
       /\ has s' 5 None = true
       /\ getNumListeners s' = 4%nat.
Proof.
  assert (Hm : nothing_memorized sample_signal) by (left; reflexivity).
  assert (Hh : has sample_signal 5 None = false) by reflexivity.
  split; [exact Hm|]. split; [exact Hh|].
  split; [exact sample_signal_well_kept|].
  destruct (add_registers_a_new_listener unit (fun _ _ _ sw => (Done false, sw))
              true 5%nat None (Some 3) sample_signal tt Hm Hh
              sample_signal_well_kept)
    as (b & s' & E & _ & _ & Hhas & _ & Hnum & _).
  exists b, s'. split; [exact E|]. split; [exact Hhas | exact Hnum].
Defined.

Lemma adding_again_changes_nothing_witness :
  nothing_memorized sample_signal
  /\ has sample_signal 8 None = true
  /\ exists b,
       In b (_bindings sample_signal)
       /\ snd (add unit (fun _ _ _ sw => (Done false, sw)) (Some 8%nat) None None
                   (sample_signal, tt)) = (sample_signal, tt)
       /\ addOnce unit (fun _ _ _ sw => (Done false, sw)) (Some 8%nat) None None
                  (sample_signal, tt)
          = ((if SignalBinding._isOnce b then Done b
              else Error (js "You cannot add() then addOnce() the same listener without removing the relationship first.")),
             (sample_signal, tt)).
Proof.
  assert (Hm : nothing_memorized sample_signal) by (left; reflexivity).
  assert (Hh : has sample_signal 8 None = true) by reflexivity.
  split; [exact Hm|]. split; [exact Hh|].
  destruct (adding_again_changes_nothing unit (fun _ _ _ sw => (Done false, sw))
              8%nat None None sample_signal tt Hm Hh)
    as (b & Hin & _ & Hadd & Honce).
  exists b. split; [exact Hin|]. split; [rewrite Hadd; reflexivity | exact Honce].
Defined.

Lemma remove_unregisters_witness :
  well_kept sample_signal
  /\ exists s',
       remove sample_signal (Some 9%nat) (Some 1%nat) = (Done 9%nat, s')
       /\ has s' 9 (Some 1%nat) = false
       /\ getNumListeners s' = 2%nat
       /\ well_kept s'.
Proof.
  split; [exact sample_signal_well_kept|].
  destruct (remove_unregisters sample_signal 9%nat (Some 1%nat)
              sample_signal_well_kept)
    as (s' & E & Hh & _ & Hnum & Hk).
  exists s'. split; [exact E|]. split; [exact Hh|]. split; [exact Hnum | exact Hk].
Defined.

Lemma dispatch_calls_by_priority_until_stopped_witness :
  active sample_signal = true
  /\ well_kept sample_signal
  /\ exists s',
       dispatch Log (scripted (fun l => (l =? 8)%nat) (fun _ => false))
                [JNum 2] (sample_signal, [])
       = (Done tt, (s', [(8%nat, None, [JNum 1; JNum 2])])).
Proof.
  split; [reflexivity|]. split; [exact sample_signal_well_kept|].
  destruct (dispatch_calls_by_priority_until_stopped
              (fun l => (l =? 8)%nat) (fun _ => false) [JNum 2] sample_signal []
              eq_refl sample_signal_well_kept)
    as ((s' & E) & _).
  exists s'. exact E.
Defined.

Lemma dispatch_drops_once_bindings_witness :
  active sample_signal = true
  /\ well_kept sample_signal
  /\ exists s',
       dispatch Log quiet [JNum 2] (sample_signal, [])
       = (Done tt, (s', [(8%nat, None, [JNum 1; JNum 2]); (7%nat, None, [JNum 2])]))
       /\ _bindings s'
          = [ SignalBinding.mk 0 7 false None 0 true None;
              SignalBinding.mk 2 9 false (Some 1%nat) 5 false None ].
Proof.
  split; [reflexivity|]. split; [exact sample_signal_well_kept|].
  destruct (dispatch_drops_once_bindings [JNum 2] sample_signal []
              eq_refl sample_signal_well_kept)
    as (s' & E & Hleft & _).
  exists s'. split; [exact E | exact Hleft].
Defined.

End SignalExamples.
